(** * Layout-aware lowering of distributed tensors: geometry, memory access
    codegen and layout conversion

  A shallow embedding of lib/Conversion/TritonGPUToLLVM/TritonGPUToLLVM.cpp.
  Compile-time integers of the lowering are modelled as [Z] with the
  reduction of their C++ type written out; values of the emitted IR are
  modelled as expression trees with an evaluator per thread id; operations
  that the C++ code guards by an assertion, an out-of-range subscript or a
  division by zero return [None]. *)

From Stdlib Require Import ZArith List Lia Bool String.
From stdpp Require Import base option list.
Local Open Scope Z_scope.

(** ** Machine integers *)

Module Machine.

(** [unsigned]: 32 bits, arithmetic modulo 2^32. *)
Definition u32 (x : Z) : Z := x mod 2 ^ 32.

Arguments u32 : simpl never.

(** [int]: 32 bits, two's complement. *)
Definition i32 (x : Z) : Z := (x + 2 ^ 31) mod 2 ^ 32 - 2 ^ 31.

(** [int64_t]: 64 bits, two's complement. *)
Definition i64 (x : Z) : Z := (x + 2 ^ 63) mod 2 ^ 64 - 2 ^ 63.

Arguments i32 : simpl never.
Arguments i64 : simpl never.

(** Division and remainder of C++ integers truncate towards zero and are
    undefined on a zero divisor. *)
Definition divT (a b : Z) : option Z :=
  if b =? 0 then None else Some (Z.quot a b).

Definition remT (a b : Z) : option Z :=
  if b =? 0 then None else Some (Z.rem a b).

(** Subscript of a [SmallVector] or [ArrayRef]: asserted to be in range. *)
Definition at_ {A} (l : list A) (i : Z) : option A :=
  if i <? 0 then None else l !! Z.to_nat i.

(** Assignment through a subscript, asserted to be in range as well. *)
Definition set_at {A} (l : list A) (i : Z) (x : A) : option (list A) :=
  if (0 <=? i) && (i <? Z.of_nat (length l))
  then Some (<[Z.to_nat i := x]> l) else None.

(** Modelled from the spec: the helper [ceil<T>(m, n)] of
    triton/Analysis/Utility.h is not among the sources; the specification
    uses it as the ceiling of the quotient m / n. *)
Definition ceil (m n : Z) : Z := (m + n - 1) / n.

Arguments ceil : simpl never.

(** Modelled from the spec: the helper [product<unsigned>] of
    triton/Analysis/Utility.h is not among the sources; it is the product
    of the entries, here accumulated in [unsigned]. *)
Definition product (l : list Z) : Z :=
  fold_left (fun acc x => u32 (acc * x)) l 1.

(** The mathematical product, used to state ranges. *)
Definition prodZ (l : list Z) : Z := fold_right Z.mul 1 l.

End Machine.

Import Machine.

(** ** Compile-time index conversion: [getMultiDimIndex], [getLinearIndex] *)

Section IndexArithmetic.

(** The reduction of a mathematical result into the template's integer
    type [T]. *)
Variable wrap : Z -> Z.

(** [acc_mul] after the first loop: sizes {a, b, c, d} give b*c*d. *)
Definition acc_mul_init (shape : list Z) : Z :=
  fold_left (fun acc s => wrap (acc * s)) (tail shape) 1.

(** [acc_mul = acc_mul / shape[i + 1]], skipped in the last iteration. *)
Definition acc_mul_next (acc_mul : Z) (rest : list Z) : option Z :=
  match rest with
  | [] => Some acc_mul
  | s :: _ => divT acc_mul s
  end.

(** The second loop of [getMultiDimIndex]; [dims] is [shape] from
    position [i] on. *)
Fixpoint getMultiDimIndex_loop (dims : list Z) (acc_mul linear_remain : Z)
  : option (list Z) :=
  match dims with
  | [] => Some []
  | _ :: rest =>
      q ← divT linear_remain acc_mul;
      r ← remT linear_remain acc_mul;
      acc' ← acc_mul_next acc_mul rest;
      md ← getMultiDimIndex_loop rest acc' r;
      Some (q :: md)
  end.

Definition getMultiDimIndex (linear_index : Z) (shape : list Z)
  : option (list Z) :=
  getMultiDimIndex_loop shape (acc_mul_init shape) linear_index.

(** The second loop of [getLinearIndex]. *)
Fixpoint getLinearIndex_loop (multidim_index dims : list Z)
    (acc_mul linear_index : Z) : option Z :=
  match multidim_index, dims with
  | [], [] => Some linear_index
  | m :: ms, _ :: rest =>
      acc' ← acc_mul_next acc_mul rest;
      getLinearIndex_loop ms rest acc' (wrap (linear_index + wrap (m * acc_mul)))
  | _, _ => None
  end.

(** [assert(multidim_index.size() == shape.size())] is the mismatch case
    of the loop. *)
Definition getLinearIndex (multidim_index shape : list Z) : option Z :=
  getLinearIndex_loop multidim_index shape (acc_mul_init shape) 0.

End IndexArithmetic.

(** The number a multi-index stands for in the row-major numbering of
    [dims], as a mathematical integer; used to state what the two
    conversions compute. *)
Fixpoint linZ (md dims : list Z) : Z :=
  match md, dims with
  | m :: ms, _ :: rest => m * prodZ rest + linZ ms rest
  | _, _ => 0
  end.

(** Unsigned arithmetic of the compile-time geometry. *)
Definition umul (a b : Z) : Z := u32 (a * b).
Definition uadd (a b : Z) : Z := u32 (a + b).

Arguments umul : simpl never.
Arguments uadd : simpl never.

Infix "*u" := umul (at level 40, left associativity).
Infix "+u" := uadd (at level 50, left associativity).

(** ** Emitted index values

    The index type of the lowering is 32 bits wide
    ([option.overrideIndexBitwidth(32)]).  A [Value] is the expression tree
    of an emitted SSA value; [Null] is a default-constructed [Value]. *)

Inductive Value : Type :=
| Null
| ThreadIdX
| IndexConst (v : Z)
| URem (a b : Value)
| UDiv (a b : Value)
| Add (a b : Value)
| Mul (a b : Value).

(** What an emitted value computes on the lane whose thread id is [tid];
    [udiv] and [urem] by zero are undefined, a null value has no meaning. *)
Fixpoint eval (tid : Z) (v : Value) : option Z :=
  match v with
  | Null => None
  | ThreadIdX => Some (u32 tid)
  | IndexConst c => Some (u32 c)
  | URem a b =>
      x ← eval tid a; y ← eval tid b;
      if y =? 0 then None else Some (x mod y)
  | UDiv a b =>
      x ← eval tid a; y ← eval tid b;
      if y =? 0 then None else Some (x / y)
  | Add a b => x ← eval tid a; y ← eval tid b; Some (u32 (x + y))
  | Mul a b => x ← eval tid a; y ← eval tid b; Some (u32 (x * y))
  end.

(** One iteration of the loop of [delinearize] over the reversed tail of
    the shape: the remainders are collected from the last dimension to the
    second one. *)
Definition delinearize_step (st : list Value * Value) (dim : Z)
  : list Value * Value :=
  let '(multiDim, remained) := st in
  (URem remained (IndexConst dim) :: multiDim, UDiv remained (IndexConst dim)).

(** [delinearize(rewriter, loc, linear, shape)]. *)
Definition delinearize (linear : Value) (shape : list Z)
  : option (list Value) :=
  match shape with
  | [] => None                                         (* assert(rank > 0) *)
  | [_] => Some [linear]
  | _ :: front_dropped =>
      let '(multiDim, remained) :=
        fold_left delinearize_step (rev front_dropped) ([], linear) in
      Some (remained :: multiDim)
  end.

(** The body of the loop of [linearize]: [linear * dimSize + coordinate]. *)
Definition horner_step (linear : Value) (z : Value * Z) : Value :=
  Add (Mul linear (IndexConst (snd z))) (fst z).

(** [linearize(rewriter, loc, multiDim, shape)]: Horner's rule over the
    zipped tails. *)
Definition linearize (multiDim : list Value) (shape : list Z) : Value :=
  match multiDim with
  | [] => IndexConst 0
  | front :: rest => fold_left horner_step (zip rest (tail shape)) front
  end.

(** The un-permuting loop [multiDim[order[i]] = reorderedMultiDim[i]]. *)
Definition unpermute_step (acc : option (list Value)) (z : Z * Value)
  : option (list Value) :=
  multiDim ← acc; set_at multiDim (fst z) (snd z).

(** [delinearize(rewriter, loc, linear, shape, order)]. *)
Definition delinearize_order (linear : Value) (shape order : list Z)
  : option (list Value) :=
  let rank := length shape in
  if negb (Nat.eqb rank (length order)) then None else
  reordered ← mapM (at_ shape) order;
  reorderedMultiDim ← delinearize linear reordered;
  fold_left unpermute_step (zip order reorderedMultiDim)
            (Some (replicate rank Null)).

(** ** Layouts *)

Record BlockedEncodingAttr : Type := {
  sizePerThread : list Z;
  threadsPerWarp : list Z;
  warpsPerCTA : list Z;
  order : list Z
}.

#[global] Instance BlockedEncodingAttr_eq_dec : EqDecision BlockedEncodingAttr.
Proof. solve_decision. Defined.

Inductive Attribute : Type :=
| Blocked (b : BlockedEncodingAttr)
| Slice (dim : Z) (parent : Attribute)
| Mma
| Shared.

(** ** Per-lane base index and index enumeration of a Blocked layout *)

Definition laneId : Value := URem ThreadIdX (IndexConst 32).
Definition warpId : Value := UDiv ThreadIdX (IndexConst 32).

(** The body of the loop over [k] of [emitBaseIndexForBlockedLayout]. *)
Definition baseIndexAt (l : BlockedEncodingAttr) (shape : list Z)
    (multiDimWarpId multiDimThreadId : list Value) (k : Z) : option Value :=
  shape_k ← at_ shape k;
  spt_k ← at_ (sizePerThread l) k;
  tpw_k ← at_ (threadsPerWarp l) k;
  let maxWarps := ceil (u32 shape_k) (spt_k *u tpw_k) in
  let maxThreads := ceil (u32 shape_k) spt_k in
  w ← at_ multiDimWarpId k;
  t ← at_ multiDimThreadId k;
  let w' := URem w (IndexConst maxWarps) in
  let t' := URem t (IndexConst maxThreads) in
  Some (Mul (IndexConst spt_k) (Add t' (Mul w' (IndexConst tpw_k)))).

Definition emitBaseIndexForBlockedLayout (l : BlockedEncodingAttr)
    (shape : list Z) : option (list Value) :=
  let rank := Z.of_nat (length shape) in
  multiDimWarpId ← delinearize_order warpId (warpsPerCTA l) (order l);
  multiDimThreadId ← delinearize_order laneId (threadsPerWarp l) (order l);
  mapM (baseIndexAt l shape multiDimWarpId multiDimThreadId) (seqZ 0 rank).

(** The four nested loops filling [offset[k]]. *)
Definition offsetsOfDim (blocks spt tpw wpc : Z) : list Z :=
  blockOffset ← seqZ 0 blocks;
  warpOffset ← seqZ 0 wpc;
  threadOffset ← seqZ 0 tpw;
  elemOffset ← seqZ 0 spt;
  [blockOffset *u spt *u tpw *u wpc +u warpOffset *u spt *u tpw
     +u threadOffset *u spt +u elemOffset].

(** The per-dimension constants of step 2 of
    [emitIndicesForBlockedLayout]: [shapePerCTA[k]],
    [multiDimElemsPerThread[k]], [offset[k]] and [threadsPerDim[k]]. *)
Record DimGeometry : Type := {
  shapePerCTA_k : Z;
  multiDimElemsPerThread_k : Z;
  offset_k : list Z;
  threadsPerDim_k : Z
}.

Definition dimGeometry (l : BlockedEncodingAttr) (shape : list Z) (k : Z)
  : option DimGeometry :=
  shape_k ← at_ shape k;
  spt_k ← at_ (sizePerThread l) k;
  tpw_k ← at_ (threadsPerWarp l) k;
  wpc_k ← at_ (warpsPerCTA l) k;
  let spc := spt_k *u tpw_k *u wpc_k in
  let blocks := ceil (u32 shape_k) spc in
  Some {| shapePerCTA_k := spc;
          multiDimElemsPerThread_k := blocks *u spt_k;
          offset_k := offsetsOfDim blocks spt_k tpw_k wpc_k;
          threadsPerDim_k := ceil (u32 shape_k) spt_k |}.

(** The body of the innermost loop of step 3: the index of element [n]
    along dimension [k]. *)
Definition indexAt (l : BlockedEncodingAttr) (geo : list DimGeometry)
    (multiDimBase : list Value)
    (multiDimNanoTileId multiElemsInNanoTileId : list Z) (k : Z)
  : option Value :=
  tile_k ← at_ multiDimNanoTileId k;
  elem_k ← at_ multiElemsInNanoTileId k;
  spt_k ← at_ (sizePerThread l) k;
  tpw_k ← at_ (threadsPerWarp l) k;
  wpc_k ← at_ (warpsPerCTA l) k;
  let reorderedMultiDimId := tile_k *u (spt_k *u tpw_k *u wpc_k) +u elem_k in
  g ← at_ geo k;
  off ← at_ (offset_k g) reorderedMultiDimId;
  base_k ← at_ multiDimBase k;
  Some (Add base_k (IndexConst off)).

Definition emitIndicesForBlockedLayout (l : BlockedEncodingAttr)
    (shape : list Z) : option (list (list Value)) :=
  let rank := Z.of_nat (length shape) in
  multiDimBase ← emitBaseIndexForBlockedLayout l shape;
  geo ← mapM (dimGeometry l shape) (seqZ 0 rank);
  let elemsPerThread :=
    fold_left (fun acc g => acc *u multiDimElemsPerThread_k g) geo 1 in
  let accumSizePerThread := product (sizePerThread l) in
  let threadsPerDim := map threadsPerDim_k geo in
  mapM (fun n =>
          linearNanoTileId ← divT n accumSizePerThread;
          linearElemsInNanoTileId ← remT n accumSizePerThread;
          multiDimNanoTileId ←
            getMultiDimIndex u32 linearNanoTileId threadsPerDim;
          multiElemsInNanoTileId ←
            getMultiDimIndex u32 linearElemsInNanoTileId (sizePerThread l);
          mapM (indexAt l geo multiDimBase
                        multiDimNanoTileId multiElemsInNanoTileId)
               (seqZ 0 rank))
       (seqZ 0 elemsPerThread).

(** The indices a lane owns, as numbers: the emitted index values evaluated
    at its thread id. *)
Definition laneIndices (l : BlockedEncodingAttr) (shape : list Z) (tid : Z)
  : option (list (list Z)) :=
  idx ← emitIndicesForBlockedLayout l shape;
  mapM (mapM (eval tid)) idx.

(** ** Vectorized memory access: [LoadStoreConversionBase] *)

(** What the axis analysis knows of a value, per dimension. *)
Record AxisInfo : Type := {
  divisibility : list Z;
  contiguity : list Z
}.

Inductive ElemType : Type :=
| IntegerType (width : Z)
| FloatType (width : Z).

Definition getIntOrFloatBitWidth (ty : ElemType) : Z :=
  match ty with IntegerType w => w | FloatType w => w end.

Definition isInteger (ty : ElemType) (w : Z) : bool :=
  match ty with IntegerType w' => w' =? w | FloatType _ => false end.

(** [getAlignment(val, layout)]; [axisInfo] is the lattice element found
    for the value, dereferenced without a check. *)
Definition getAlignment (axisInfo : option AxisInfo)
    (layout : BlockedEncodingAttr) : option Z :=
  info ← axisInfo;
  order0 ← at_ (order layout) 0;
  maxMultiple ← at_ (divisibility info) order0;
  maxContig ← at_ (contiguity info) order0;
  Some (Z.min (u32 maxMultiple) (u32 maxContig)).

(** [getVectorizeSize(ptr, layout)], [shape] being the shape of [ptr]. *)
Definition getVectorizeSize (axisInfo : option AxisInfo) (shape : list Z)
    (layout : BlockedEncodingAttr) : option Z :=
  order0 ← at_ (order layout) 0;
  align ← getAlignment axisInfo layout;
  contigPerThread ← at_ (sizePerThread layout) order0;
  shape0 ← at_ shape order0;
  let vec := Z.min align (u32 contigPerThread) in
  Some (Z.min (u32 shape0) vec).

(** [dtsize * 8] with [dtsize = std::max<int>(1, bitWidth / 8)]. *)
Definition valueElemNbits (ty : ElemType) : Z :=
  Z.max 1 (getIntOrFloatBitWidth ty / 8) * 8.

(** The constants computed at the head of the loop body over the vector
    groups, up to the assertion that closes them. *)
Record VecGroup : Type := {
  totalWidth : Z;
  width : Z;
  nWords : Z;
  wordNElems : Z
}.

Definition vecGroup (elemNbits vec numVecs numElems : Z) : option VecGroup :=
  let maxWordWidth := Z.max 32 (i32 elemNbits) in
  let totalWidth := i32 (elemNbits * vec) in
  let width := Z.min totalWidth maxWordWidth in
  q ← divT totalWidth width;
  let nWords := Z.max 1 q in
  wordNElems ← divT width elemNbits;
  if u32 (wordNElems * nWords * numVecs) =? numElems
  then Some {| totalWidth := totalWidth; width := width;
               nWords := nWords; wordNElems := wordNElems |}
  else None.

(** The values of [vecStart] visited by
    [for (vecStart = 0; vecStart < numElems; vecStart += vec)]; the loop is
    entered only with [vec > 0], so [numElems] iterations are enough. *)
Fixpoint vecStarts (fuel : nat) (vecStart numElems vec : Z) : list Z :=
  match fuel with
  | O => []
  | S fuel' =>
      if vecStart <? numElems
      then vecStart :: vecStarts fuel' (vecStart + vec) numElems vec
      else []
  end.

Definition constraintOf (width : Z) : string :=
  if width =? 64 then "l" else if width =? 32 then "r" else "c".

Definition writeConstraintOf (width : Z) : string :=
  if width =? 64 then "=l" else if width =? 32 then "=r" else "=c".

(** The outcome of [matchAndRewrite]: the emitted operations, the local
    failure [failure()], or a violated assertion. *)
Inductive Rewrite (A : Type) : Type :=
| Rewritten (emitted : A)
| MatchFailure
| Aborted.

Arguments Rewritten {A} emitted.
Arguments MatchFailure {A}.
Arguments Aborted {A}.

Section MemoryAccess.

(** The type of the elements of the operand records: already lowered
    values. *)
Variable V : Type.

(** [BlockedEncodingAttr::getElemsPerThread], defined with the dialect and
    not among the sources. *)
Variable getElemsPerThread : BlockedEncodingAttr -> list Z -> Z.

(** Values created by the lowering of a load or a store: an element of an
    operand record, possibly sign-extended from [i1] to [i8]; the [i1]
    constant of [createLLVMIntegerConstant]; a vector of elements bitcast
    to an integer of [width] bits. *)
Inductive Elem : Type :=
| RecordElem (v : V)
| SExtI8 (v : V).

Inductive IRValue : Type :=
| Scalar (e : Elem)
| ConstI1 (b : Z)
| PackedWord (width : Z) (elems : list Elem).

(** Modelled from the spec: the builder of target assembly
    (triton/Conversion/TritonGPUToLLVM/PtxAsmFormat.h) is not among the
    sources.  Following section 4.4 of the specification, calling an
    instruction on its operands and predicating it adds one instruction to
    the assembly text of the inline-assembly operation; operands are bound
    values with a constraint, immediate constants, or result words. *)
Inductive PtxOperand : Type :=
| BoundOperand (v : IRValue) (constraint : string)
| ConstantOperand (c : Z)
| ResultOperand (wordIdx : Z) (constraint : string)
| AddrOperand (base : IRValue) (constraint : string) (offset : Z).

Inductive PtxInstr : Type :=
| PtxSt (width nWords : Z) (addr : PtxOperand) (args : list PtxOperand)
        (pred : IRValue)
| PtxLd (width nWords : Z) (dsts : list PtxOperand) (addr : PtxOperand)
        (pred : IRValue)
| PtxMov (width : Z) (dst : PtxOperand) (src : PtxOperand)
         (predNot : IRValue).

(** One [LLVM::InlineAsmOp]: its instructions in emission order;
    [has_side_effects] is always true. *)
Definition InlineAsmOp : Type := list PtxInstr.


(** A tensor operand together with its lowered record. *)
Record TensorOperand : Type := {
  shapeOf : list Z;
  recordOf : list V
}.

(** [getElementsFromStruct(loc, llvmStruct, elems, rewriter)]: the first
    [elems] fields of the record. *)
Definition getElementsFromStruct (llvmStruct : list V) (elems : Z)
  : option (list V) :=
  mapM (at_ llvmStruct) (seqZ 0 elems).

(** [getLLVMElems(value, llValue, layout, ...)]: empty for an absent
    operand. *)
Definition getLLVMElems (value : option TensorOperand)
    (layout : BlockedEncodingAttr) : option (list V) :=
  match value with
  | None => Some []
  | Some t =>
      getElementsFromStruct (recordOf t)
                            (u32 (getElemsPerThread layout (shapeOf t)))
  end.

(** The predicate of a vector group: its first mask element, or the
    constant true when there is no mask. *)
Definition groupPredicate (mask : option TensorOperand) (maskElems : list V)
    (vecStart : Z) : option IRValue :=
  match mask with
  | Some _ => m ← at_ maskElems vecStart; Some (Scalar (RecordElem m))
  | None => Some (ConstI1 1)
  end.

(** The mask record, asserted to be as long as the record it guards. *)
Definition getMaskElems (mask : option TensorOperand)
    (layout : BlockedEncodingAttr) (expected : nat) : option (list V) :=
  match mask with
  | None => Some []
  | Some _ =>
      maskElems ← getLLVMElems mask layout;
      guard (length maskElems = expected);;
      Some maskElems
  end.

(** *** [StoreOpConversion] *)

Record StoreOp : Type := {
  st_ptr : TensorOperand;
  st_ptrLayout : BlockedEncodingAttr;
  st_ptrAxisInfo : option AxisInfo;
  st_value : TensorOperand;
  st_valueElemTy : option ElemType;   (* none: the value is not a ranked tensor *)
  st_mask : option TensorOperand
}.

(** The packed word [wordIdx] of the group starting at [vecStart]. *)
Definition storeWord (valueElemTy : ElemType) (valueElems : list V)
    (g : VecGroup) (vecStart wordIdx : Z) : option PtxOperand :=
  elems ← mapM (fun elemIdx =>
                  let elemOffset := vecStart + wordIdx * wordNElems g + elemIdx in
                  elem ← at_ valueElems elemOffset;
                  Some (if isInteger valueElemTy 1
                        then SExtI8 elem else RecordElem elem))
               (seqZ 0 (wordNElems g));
  Some (BoundOperand (PackedWord (width g) elems) (constraintOf (width g))).

Definition storeGroup (op : StoreOp) (valueElemTy : ElemType)
    (ptrElems valueElems maskElems : list V) (vec numVecs numElems vecStart : Z)
  : option InlineAsmOp :=
  g ← vecGroup (valueElemNbits valueElemTy) vec numVecs numElems;
  asmArgList ← mapM (storeWord valueElemTy valueElems g vecStart)
                    (seqZ 0 (nWords g));
  maskVal ← groupPredicate (st_mask op) maskElems vecStart;
  addr ← at_ ptrElems vecStart;
  Some [PtxSt (width g) (nWords g)
              (AddrOperand (Scalar (RecordElem addr)) "l" 0)
              asmArgList maskVal].

Definition storeBody (op : StoreOp) (valueElemTy : ElemType)
  : option (list InlineAsmOp) :=
  let layout := st_ptrLayout op in
  let numElems := u32 (getElemsPerThread layout (shapeOf (st_ptr op))) in
  ptrElems ← getLLVMElems (Some (st_ptr op)) layout;
  valueElems ← getLLVMElems (Some (st_value op)) layout;
  guard (length ptrElems = length valueElems);;
  maskElems ← getMaskElems (st_mask op) layout (length valueElems);
  vec ← getVectorizeSize (st_ptrAxisInfo op) (shapeOf (st_ptr op)) layout;
  numVecs ← divT numElems vec;
  mapM (storeGroup op valueElemTy ptrElems valueElems maskElems
                   vec (i32 numVecs) numElems)
       (vecStarts (Z.to_nat numElems) 0 numElems vec).

Definition StoreOpConversion (op : StoreOp) : Rewrite (list InlineAsmOp) :=
  match st_valueElemTy op with
  | None => MatchFailure
  | Some valueElemTy =>
      match storeBody op valueElemTy with
      | Some asms => Rewritten asms
      | None => Aborted
      end
  end.

(** *** [LoadOpConversion] *)

(** The constant attribute matched by [m_Constant] on the fallback
    operand. *)
Record ConstantAttr : Type := {
  isSplat : bool;
  splatValue : Z
}.

Record LoadOp : Type := {
  ld_ptr : TensorOperand;
  ld_ptrLayout : BlockedEncodingAttr;
  ld_ptrAxisInfo : option AxisInfo;
  ld_resultElemTy : option ElemType;  (* none: the result is not a ranked tensor *)
  ld_mask : option TensorOperand;
  ld_other : option TensorOperand;
  ld_otherConstant : option ConstantAttr
}.

(** [otherIsSplatConstInt] with [splatVal]. *)
Definition otherSplatConstInt (op : LoadOp) (valueElemTy : ElemType)
  : option Z :=
  match valueElemTy, ld_otherConstant op with
  | IntegerType _, Some c => if isSplat c then Some (splatValue c) else None
  | _, _ => None
  end.

(** The move emitted for result word [ii] when there is a fallback
    operand. *)
Definition otherMov (op : LoadOp) (valueElemTy : ElemType)
    (otherElems : list V) (g : VecGroup) (pred : IRValue) (vecStart ii : Z)
  : option PtxInstr :=
  size ← divT (width g) (valueElemNbits valueElemTy);
  elems ← mapM (fun s => falseVal ← at_ otherElems (vecStart + ii * size + s);
                         Some (RecordElem falseVal))
               (seqZ 0 size);
  let v := PackedWord (width g) elems in
  let opr := match otherSplatConstInt op valueElemTy with
             | Some splatVal => ConstantOperand splatVal
             | None => BoundOperand v (constraintOf (width g))
             end in
  Some (PtxMov (width g)
               (ResultOperand ii (writeConstraintOf (width g)))
               opr pred).

Definition loadGroup (op : LoadOp) (valueElemTy : ElemType)
    (ptrElems maskElems otherElems : list V)
    (vec numVecs numElems vecStart : Z) : option InlineAsmOp :=
  g ← vecGroup (valueElemNbits valueElemTy) vec numVecs numElems;
  pred ← groupPredicate (ld_mask op) maskElems vecStart;
  let dstsOpr := (fun wordIdx =>
                    ResultOperand wordIdx (writeConstraintOf (width g)))
                 <$> seqZ 0 (nWords g) in
  addr ← at_ ptrElems vecStart;
  let ld := PtxLd (width g) (nWords g) dstsOpr
                  (AddrOperand (Scalar (RecordElem addr)) "l" 0) pred in
  movs ← match ld_other op with
         | Some _ => mapM (otherMov op valueElemTy otherElems g pred vecStart)
                          (seqZ 0 (nWords g))
         | None => Some []
         end;
  Some (ld :: movs).

Definition loadBody (op : LoadOp) (valueElemTy : ElemType)
  : option (list InlineAsmOp) :=
  let layout := ld_ptrLayout op in
  let numElems := u32 (getElemsPerThread layout (shapeOf (ld_ptr op))) in
  ptrElems ← getLLVMElems (Some (ld_ptr op)) layout;
  guard (Z.of_nat (length ptrElems) = numElems);;
  maskElems ← getMaskElems (ld_mask op) layout (length ptrElems);
  vec ← getVectorizeSize (ld_ptrAxisInfo op) (shapeOf (ld_ptr op)) layout;
  numVecs ← divT numElems vec;
  otherElems ← getLLVMElems (ld_other op) layout;
  mapM (loadGroup op valueElemTy ptrElems maskElems otherElems
                  vec (i32 numVecs) numElems)
       (vecStarts (Z.to_nat numElems) 0 numElems vec).

Definition LoadOpConversion (op : LoadOp) : Rewrite (list InlineAsmOp) :=
  match ld_resultElemTy op with
  | None => MatchFailure
  | Some valueElemTy =>
      match loadBody op valueElemTy with
      | Some asms => Rewritten asms
      | None => Aborted
      end
  end.

End MemoryAccess.

Arguments RecordElem {V} v.
Arguments SExtI8 {V} v.
Arguments Scalar {V} e.
Arguments ConstI1 {V} b.
Arguments PackedWord {V} width elems.
Arguments BoundOperand {V} v constraint.
Arguments ConstantOperand {V} c.
Arguments ResultOperand {V} wordIdx constraint.
Arguments AddrOperand {V} base constraint offset.
Arguments PtxSt {V} width nWords addr args pred.
Arguments PtxLd {V} width nWords dsts addr pred.
Arguments PtxMov {V} width dst src predNot.
Arguments Build_TensorOperand {V} shapeOf recordOf.
Arguments shapeOf {V} t.
Arguments recordOf {V} t.
Arguments st_ptr {V} s.
Arguments st_ptrLayout {V} s.
Arguments st_ptrAxisInfo {V} s.
Arguments st_value {V} s.
Arguments st_valueElemTy {V} s.
Arguments st_mask {V} s.
Arguments ld_ptr {V} l.
Arguments ld_ptrLayout {V} l.
Arguments ld_ptrAxisInfo {V} l.
Arguments ld_resultElemTy {V} l.
Arguments ld_mask {V} l.
Arguments ld_other {V} l.
Arguments ld_otherConstant {V} l.
Arguments getElementsFromStruct {V} llvmStruct elems.
Arguments getLLVMElems {V} getElemsPerThread value layout.
Arguments getMaskElems {V} getElemsPerThread mask layout expected.
Arguments groupPredicate {V} mask maskElems vecStart.
Arguments storeWord {V} valueElemTy valueElems g vecStart wordIdx.
Arguments storeGroup {V} op valueElemTy ptrElems valueElems maskElems
  vec numVecs numElems vecStart.
Arguments storeBody {V} getElemsPerThread op valueElemTy.
Arguments StoreOpConversion {V} getElemsPerThread op.
Arguments otherSplatConstInt {V} op valueElemTy.
Arguments otherMov {V} op valueElemTy otherElems g pred vecStart ii.
Arguments loadGroup {V} op valueElemTy ptrElems maskElems otherElems
  vec numVecs numElems vecStart.
Arguments loadBody {V} getElemsPerThread op valueElemTy.
Arguments LoadOpConversion {V} getElemsPerThread op.

(** Modelled from the spec: [getElemsPerThread] of a Blocked layout is not
    among the sources; section 4.1 of the specification gives it as the
    product over the dimensions of
    ceil(shape[k] / shapePerGroup[k]) * sizePerThread[k]. *)
Fixpoint elemsPerThreadOf (shape spt tpw wpc : list Z) : Z :=
  match shape, spt, tpw, wpc with
  | s :: shape', a :: spt', b :: tpw', c :: wpc' =>
      ceil s (a * b * c) * a * elemsPerThreadOf shape' spt' tpw' wpc'
  | _, _, _, _ => 1
  end.

Definition blockedElemsPerThread (l : BlockedEncodingAttr) (shape : list Z)
  : Z :=
  elemsPerThreadOf shape (sizePerThread l) (threadsPerWarp l) (warpsPerCTA l).

(** ** Broadcast: [BroadcastOpConversion] *)

(** The entries of [srcLogicalShape] and [resultLogicalShape] that the
    first loop computes for dimension [d]: the tile count at position [d]
    and the elements per tile at position [d + rank]. *)
Record LogicalDim : Type := {
  srcTiles : Z;
  srcElemsInTile : Z;
  resultTiles : Z;
  resultElemsInTile : Z;
  broadcasts : bool
}.

Definition logicalDim (layout : BlockedEncodingAttr)
    (srcShape resultShape : list Z) (d : Z) : option LogicalDim :=
  src_d ← at_ srcShape d;
  result_d ← at_ resultShape d;
  spt_d ← at_ (sizePerThread layout) d;
  tpw_d ← at_ (threadsPerWarp layout) d;
  wpc_d ← at_ (warpsPerCTA layout) d;
  let resultShapePerCTA := spt_d *u tpw_d *u wpc_d in
  let numCtas := ceil (u32 result_d) resultShapePerCTA in
  if negb (src_d =? result_d) then
    if src_d =? 1 then
      Some {| srcTiles := 1; srcElemsInTile := Z.max 1 spt_d;
              resultTiles := numCtas; resultElemsInTile := spt_d;
              broadcasts := true |}
    else None                                  (* assert(srcShape[d] == 1) *)
  else
    Some {| srcTiles := numCtas; srcElemsInTile := spt_d;
            resultTiles := numCtas; resultElemsInTile := spt_d;
            broadcasts := false |}.

Definition srcLogicalShapeOf (dims : list LogicalDim) : list Z :=
  map srcTiles dims ++ map srcElemsInTile dims.

Definition resultLogicalShapeOf (dims : list LogicalDim) : list Z :=
  map resultTiles dims ++ map resultElemsInTile dims.

(** [broadcastDims]: the dimensions pushed by the first loop, in order. *)
Fixpoint broadcastDimsFrom (d : Z) (dims : list LogicalDim) : list Z :=
  match dims with
  | [] => []
  | x :: dims' =>
      if broadcasts x then d :: broadcastDimsFrom (d + 1) dims'
      else broadcastDimsFrom (d + 1) dims'
  end.

(** The two quotients the second loop computes for one broadcast
    dimension. *)
Definition broadcastSizeOf (rank : Z) (srcLogicalShape resultLogicalShape : list Z)
    (bd : Z) : option (Z * Z) :=
  r1 ← at_ resultLogicalShape bd;
  s1 ← at_ srcLogicalShape bd;
  d1 ← divT r1 s1;
  r2 ← at_ resultLogicalShape (bd + rank);
  s2 ← at_ srcLogicalShape (bd + rank);
  d2 ← divT r2 s2;
  Some (d1, d2).

(** [broadcastSizes]: the first quotients, then the second ones. *)
Definition broadcastSizesOf (sizes : list (Z * Z)) : list Z :=
  map fst sizes ++ map snd sizes.

(** [duplicates], multiplied up in [int64_t]. *)
Definition duplicatesOf (sizes : list (Z * Z)) : Z :=
  fold_left (fun dup z => i64 (i64 (dup * fst z) * snd z)) sizes 1.

(** The innermost loop over the broadcast dimensions: the two additions to
    [resultMultiDim] for the broadcast dimension number [index]. *)
Definition addBroadcastOffset (rank nBroadcast : Z)
    (srcLogicalShape bcastMultiDim : list Z)
    (acc : option (list Z)) (z : Z * Z) : option (list Z) :=
  let '(index, value) := z in
  resultMultiDim ← acc;
  old1 ← at_ resultMultiDim value;
  b1 ← at_ bcastMultiDim index;
  resultMultiDim ← set_at resultMultiDim value (i64 (old1 + b1));
  old2 ← at_ resultMultiDim (value + rank);
  b2 ← at_ bcastMultiDim (index + nBroadcast);
  s2 ← at_ srcLogicalShape (index + nBroadcast);
  set_at resultMultiDim (value + rank) (i64 (old2 + i64 (b2 * s2))).

(** [resultLinearIndex] for source element [i] and duplicate [j]. *)
Definition resultLinearIndexOf (rank : Z)
    (srcLogicalShape resultLogicalShape broadcastDims broadcastSizes : list Z)
    (i j : Z) : option Z :=
  srcMultiDim ← getMultiDimIndex i64 i srcLogicalShape;
  bcastMultiDim ← getMultiDimIndex i64 j broadcastSizes;
  resultMultiDim ←
    fold_left (addBroadcastOffset rank (Z.of_nat (length broadcastDims))
                                  srcLogicalShape bcastMultiDim)
              (zip (seqZ 0 (Z.of_nat (length broadcastDims))) broadcastDims)
              (Some srcMultiDim);
  getLinearIndex i64 resultMultiDim resultLogicalShape.

Section Broadcast.

Variable V : Type.
Variable getElemsPerThread : BlockedEncodingAttr -> list Z -> Z.

(** The body of the loop over [j]: [resultVals[resultLinearIndex] =
    srcVals[i]]. *)
Definition broadcastWrite (target : Z -> Z -> option Z) (srcVals : list V)
    (i : Z) (acc : option (list (option V))) (j : Z)
  : option (list (option V)) :=
  resultVals ← acc;
  resultLinearIndex ← target i j;
  v ← at_ srcVals i;
  set_at resultVals resultLinearIndex (Some v).

Record BroadcastOp : Type := {
  bc_srcShape : list Z;
  bc_resultShape : list Z;
  bc_srcLayout : Attribute;
  bc_resultLayout : Attribute;
  bc_src : list V
}.

(** The rewrite once both layouts are the same Blocked layout; the result
    is the list of the values inserted into the result record, [None] being
    an entry that was never assigned. *)
Definition broadcastBody (op : BroadcastOp) (layout : BlockedEncodingAttr)
  : option (list (option V)) :=
  let srcShape := bc_srcShape op in
  let resultShape := bc_resultShape op in
  let rank := Z.of_nat (length srcShape) in
  guard (length srcShape = length resultShape);;
  dims ← mapM (logicalDim layout srcShape resultShape) (seqZ 0 rank);
  let srcLogicalShape := srcLogicalShapeOf dims in
  let resultLogicalShape := resultLogicalShapeOf dims in
  let broadcastDims := broadcastDimsFrom 0 dims in
  sizes ← mapM (broadcastSizeOf rank srcLogicalShape resultLogicalShape)
               broadcastDims;
  let broadcastSizes := broadcastSizesOf sizes in
  let duplicates := duplicatesOf sizes in
  let srcElems := u32 (getElemsPerThread layout srcShape) in
  srcVals ← mapM (at_ (bc_src op)) (seqZ 0 srcElems);
  let resultElems := u32 (getElemsPerThread layout resultShape) in
  fold_left (fun acc i =>
               fold_left (broadcastWrite
                            (resultLinearIndexOf rank srcLogicalShape
                               resultLogicalShape broadcastDims broadcastSizes)
                            srcVals i)
                         (seqZ 0 duplicates) acc)
            (seqZ 0 srcElems)
            (Some (replicate (Z.to_nat resultElems) None)).

(** [BroadcastOpConversion::matchAndRewrite]:
    [assert(srcLayout && (srcLayout == resultLayout))] comes first. *)
Definition BroadcastOpConversion (op : BroadcastOp)
  : Rewrite (list (option V)) :=
  match bc_srcLayout op, bc_resultLayout op with
  | Blocked srcLayout, Blocked resultLayout =>
      if decide (srcLayout = resultLayout) then
        match broadcastBody op resultLayout with
        | Some resultVals => Rewritten resultVals
        | None => Aborted
        end
      else Aborted
  | _, _ => Aborted
  end.

End Broadcast.

Arguments bc_srcShape {V} b.
Arguments bc_resultShape {V} b.
Arguments bc_srcLayout {V} b.
Arguments bc_resultLayout {V} b.
Arguments bc_src {V} b.
Arguments broadcastWrite {V} target srcVals i acc j.
Arguments broadcastBody {V} getElemsPerThread op layout.
Arguments BroadcastOpConversion {V} getElemsPerThread op.

(** ** Conversion between layouts: [ConvertLayoutOpConversion] *)

(** [shapePerCTA[d]] as [processReplicaBlocked] computes it. *)
Definition shapePerCTAOf (l : BlockedEncodingAttr) (d : Z) : option Z :=
  spt_d ← at_ (sizePerThread l) d;
  tpw_d ← at_ (threadsPerWarp l) d;
  wpc_d ← at_ (warpsPerCTA l) d;
  Some (spt_d *u tpw_d *u wpc_d).

(** Modelled from the spec: [getShapePerCTA] of the dialect is not among
    the sources; for a Blocked layout it is the region covered per pass of
    section 4.5, the tiling period
    sizePerThread[d] * threadsPerWarp[d] * warpsPerCTA[d]. *)
Definition getShapePerCTA (l : BlockedEncodingAttr) (d : Z) : option Z :=
  shapePerCTAOf l d.

(** [reorder<T>(input, order)]: [result[rank - 1 - order[i]] = input[i]],
    on a result of default-constructed entries. *)
Definition reorder_step {T} (rank : Z) (acc : option (list T)) (z : Z * T)
  : option (list T) :=
  result ← acc; set_at result (rank - 1 - fst z) (snd z).

Definition reorder {T} (default : T) (input : list T) (order : list Z)
  : option (list T) :=
  let rank := length order in
  if negb (Nat.eqb (length input) rank) then None else
  fold_left (reorder_step (Z.of_nat rank)) (zip order input)
            (Some (replicate rank default)).

(** The values of [elemId] visited by
    [for (elemId = 0; elemId < accumSizePerThread; elemId += vec)]; a loop
    that is still running when the fuel is spent has no result. *)
Fixpoint elemIdsFrom (fuel : nat) (elemId accumSizePerThread vec : Z)
  : option (list Z) :=
  if elemId <? accumSizePerThread then
    match fuel with
    | O => None
    | S fuel' =>
        rest ← elemIdsFrom fuel' (elemId +u vec) accumSizePerThread vec;
        Some (elemId :: rest)
    end
  else Some [].

Section ConvertLayout.

Variable V : Type.
Variable getElemsPerThread : BlockedEncodingAttr -> list Z -> Z.

(** The elements of the records involved: an element of the source record,
    lane [v] of the vector loaded from the staging buffer in the iteration
    [(multiDimRepId, ctaId, elemId)], or a default-constructed entry of
    [outVals]. *)
Inductive CvtValue : Type :=
| FromRecord (v : V)
| Extracted (multiDimRepId : list Z) (ctaId elemId : Z) (v : Z)
| NullValue.

(** The emitted operations that touch the staging buffer or synchronize,
    in emission order; [offset] is the element offset from [smemBase]. *)
Inductive SmemOp : Type :=
| Barrier
| SmemStore (offset : Value) (vec : Z) (valVec : list CvtValue)
| SmemLoad (offset : Value) (vec : Z).

(** Running the body [f] over [l] in order, threading the record [vals]
    and collecting the operations emitted. *)
Fixpoint emitLoop {A} (f : A -> list CvtValue -> option (list SmemOp * list CvtValue))
    (l : list A) (vals : list CvtValue)
  : option (list SmemOp * list CvtValue) :=
  match l with
  | [] => Some ([], vals)
  | a :: l' =>
      r1 ← f a vals;
      r2 ← emitLoop f l' (snd r1);
      Some (fst r1 ++ fst r2, snd r2)
  end.

(** The body of the loop over [elemId] of [processReplicaBlocked]. *)
Definition processElem (stNotRd : bool) (layout : BlockedEncodingAttr)
    (rank : Z) (shapePerCTA : list Z) (vec : Z)
    (paddedRepShape outOrd : list Z) (multiDimOffsetFirstElem : list Value)
    (multiDimRepId multiDimCTAInRepId : list Z)
    (ctaId linearCTAId accumSizePerThread : Z)
    (elemId : Z) (vals : list CvtValue)
  : option (list SmemOp * list CvtValue) :=
  multiDimElemId ← getMultiDimIndex u32 elemId (sizePerThread layout);
  multiDimOffset ←
    mapM (fun d =>
            first_d ← at_ multiDimOffsetFirstElem d;
            cta_d ← at_ multiDimCTAInRepId d;
            spc_d ← at_ shapePerCTA d;
            elem_d ← at_ multiDimElemId d;
            Some (Add first_d (IndexConst (cta_d *u spc_d +u elem_d))))
         (seqZ 0 rank);
  reorderedOffset ← reorder Null multiDimOffset outOrd;
  reorderedShape ← reorder 0 paddedRepShape outOrd;
  let offset := linearize reorderedOffset reorderedShape in
  let slot := fun v => elemId +u linearCTAId *u accumSizePerThread +u v in
  if stNotRd then
    valVec ← mapM (fun v => at_ vals (slot v)) (seqZ 0 vec);
    Some ([SmemStore offset vec valVec], vals)
  else
    vals' ← fold_left (fun acc v =>
                         vs ← acc;
                         set_at vs (slot v)
                                (Extracted multiDimRepId ctaId elemId v))
                      (seqZ 0 vec) (Some vals);
    Some ([SmemLoad offset vec], vals').

(** The body of the loop over [ctaId] of [processReplicaBlocked]. *)
Definition processCTA (stNotRd : bool) (layout : BlockedEncodingAttr)
    (rank : Z) (numCTAs shapePerCTA numCTAsEachRep multiDimRepId : list Z)
    (vec : Z) (paddedRepShape outOrd : list Z)
    (multiDimOffsetFirstElem : list Value) (accumSizePerThread : Z)
    (ctaId : Z) (vals : list CvtValue)
  : option (list SmemOp * list CvtValue) :=
  multiDimCTAInRepId ← getMultiDimIndex u32 ctaId numCTAsEachRep;
  multiDimCTAId ←
    fold_left (fun acc d =>
                 ids ← acc;
                 inRep_d ← at_ multiDimCTAInRepId d;
                 rep_d ← at_ multiDimRepId d;
                 each_d ← at_ numCTAsEachRep d;
                 set_at ids d (rep_d *u each_d +u inRep_d))
              (seqZ 0 (Z.of_nat (length multiDimCTAInRepId)))
              (Some (replicate (Z.to_nat rank) 0));
  linearCTAId ← getLinearIndex u32 multiDimCTAId numCTAs;
  elemIds ← elemIdsFrom (Z.to_nat accumSizePerThread) 0 accumSizePerThread vec;
  emitLoop (processElem stNotRd layout rank shapePerCTA vec paddedRepShape
                        outOrd multiDimOffsetFirstElem multiDimRepId
                        multiDimCTAInRepId ctaId linearCTAId
                        accumSizePerThread)
           elemIds vals.

(** [processReplicaBlocked]: the stores of the replica of a layout into the
    staging buffer ([stNotRd]) or its loads from it. *)
Definition processReplicaBlocked (stNotRd : bool)
    (layout : BlockedEncodingAttr) (shape : list Z)
    (numCTAsEachRep multiDimRepId : list Z) (vec : Z)
    (paddedRepShape outOrd : list Z) (vals : list CvtValue)
  : option (list SmemOp * list CvtValue) :=
  let accumNumCTAsEachRep := product numCTAsEachRep in
  let rank := Z.of_nat (length shape) in
  let accumSizePerThread := product (sizePerThread layout) in
  shapePerCTA ← mapM (shapePerCTAOf layout) (seqZ 0 rank);
  numCTAs ← mapM (fun d => shape_d ← at_ shape d;
                           spc_d ← at_ shapePerCTA d;
                           Some (ceil (u32 shape_d) spc_d))
                 (seqZ 0 rank);
  multiDimOffsetFirstElem ← emitBaseIndexForBlockedLayout layout shape;
  emitLoop (processCTA stNotRd layout rank numCTAs shapePerCTA numCTAsEachRep
                       multiDimRepId vec paddedRepShape outOrd
                       multiDimOffsetFirstElem accumSizePerThread)
           (seqZ 0 accumNumCTAsEachRep) vals.

(** What [getScratchConfigForCvtLayout] of the allocation analysis returns;
    the analysis is not among the sources and its answer is an input. *)
Record ScratchConfig : Type := {
  paddedRepShape : list Z;
  inVec : Z;
  outVec : Z
}.

(** The operation; source and result have the same shape. *)
Record ConvertLayoutOp : Type := {
  cvt_shape : list Z;
  cvt_srcLayout : Attribute;
  cvt_dstLayout : Attribute;
  cvt_src : list V;
  cvt_bufferOffset : option Z;         (* none: no buffer was allocated *)
  cvt_scratch : ScratchConfig
}.

(** The per-dimension replication plan. *)
Record ReplicationPlan : Type := {
  numReplicates_d : Z;
  inNumCTAsEachRep_d : Z;
  outNumCTAsEachRep_d : Z
}.

Definition replicationPlan (shape : list Z)
    (srcLayout dstLayout : BlockedEncodingAttr) (d : Z)
  : option ReplicationPlan :=
  shape_d ← at_ shape d;
  inShapePerCTA ← getShapePerCTA srcLayout d;
  outShapePerCTA ← getShapePerCTA dstLayout d;
  let inPerCTA := Z.min (u32 shape_d) inShapePerCTA in
  let outPerCTA := Z.min (u32 shape_d) outShapePerCTA in
  let maxPerCTA := Z.max inPerCTA outPerCTA in
  inEach ← divT maxPerCTA inPerCTA;
  outEach ← divT maxPerCTA outPerCTA;
  inRem ← remT maxPerCTA inPerCTA;
  outRem ← remT maxPerCTA outPerCTA;
  guard (inRem = 0 /\ outRem = 0);;
  Some {| numReplicates_d := ceil (u32 shape_d) maxPerCTA;
          inNumCTAsEachRep_d := inEach;
          outNumCTAsEachRep_d := outEach |}.

(** The body of the loop over [repId]: barrier, stores of the source
    replica, barrier, loads of the destination replica.  The state is the
    record [outVals]; the source record [vals] is only read. *)
Definition replicationRound (shape : list Z)
    (srcLayout dstLayout : BlockedEncodingAttr) (plan : list ReplicationPlan)
    (scratch : ScratchConfig) (vals : list CvtValue)
    (repId : Z) (outVals : list CvtValue)
  : option (list SmemOp * list CvtValue) :=
  let outOrd := order dstLayout in
  multiDimRepId ← getMultiDimIndex u32 repId (map numReplicates_d plan);
  st ← processReplicaBlocked true srcLayout shape
         (map inNumCTAsEachRep_d plan) multiDimRepId (inVec scratch)
         (paddedRepShape scratch) outOrd vals;
  ld ← processReplicaBlocked false dstLayout shape
         (map outNumCTAsEachRep_d plan) multiDimRepId (outVec scratch)
         (paddedRepShape scratch) outOrd outVals;
  Some (Barrier :: fst st ++ Barrier :: fst ld, snd ld).

Definition convertBlocked (op : ConvertLayoutOp)
    (srcLayout dstLayout : BlockedEncodingAttr)
  : option (list SmemOp * list CvtValue) :=
  _ ← cvt_bufferOffset op;
  let shape := cvt_shape op in
  let rank := Z.of_nat (length shape) in
  plan ← mapM (replicationPlan shape srcLayout dstLayout) (seqZ 0 rank);
  let accumNumReplicates := product (map numReplicates_d plan) in
  let elems := u32 (getElemsPerThread srcLayout shape) in
  vals ← mapM (at_ (cvt_src op)) (seqZ 0 elems);
  let outElems := u32 (getElemsPerThread dstLayout shape) in
  emitLoop (replicationRound shape srcLayout dstLayout plan (cvt_scratch op)
                             (FromRecord <$> vals))
           (seqZ 0 accumNumReplicates)
           (replicate (Z.to_nat outElems) NullValue).

(** [ConvertLayoutOpConversion::matchAndRewrite]: the operations emitted
    and the elements of the result record.  A layout that is not Blocked on
    either side stops at [assert(0 && "... not implemented")] before
    anything is emitted (a build without assertions reaches
    [return failure()] instead). *)
Definition ConvertLayoutOpConversion (op : ConvertLayoutOp)
  : Rewrite (list SmemOp * list CvtValue) :=
  match cvt_srcLayout op, cvt_dstLayout op with
  | Blocked srcLayout, Blocked dstLayout =>
      match convertBlocked op srcLayout dstLayout with
      | Some r => Rewritten r
      | None => Aborted
      end
  | _, _ => Aborted
  end.

(** The operations a rewrite leaves in the program. *)
Definition emittedOps (r : Rewrite (list SmemOp * list CvtValue))
  : list SmemOp :=
  match r with
  | Rewritten (ops, _) => ops
  | _ => []
  end.

Definition isBarrier (o : SmemOp) : bool :=
  match o with Barrier => true | _ => false end.

Definition isStore (o : SmemOp) : bool :=
  match o with SmemStore _ _ _ => true | _ => false end.

Definition isLoad (o : SmemOp) : bool :=
  match o with SmemLoad _ _ => true | _ => false end.

(** The kind of access one call of [processReplicaBlocked] emits. *)
Definition accessKind (stNotRd : bool) (o : SmemOp) : Prop :=
  if stNotRd then isStore o = true else isLoad o = true.

(** One round of the conversion as emitted: barrier, stores, barrier,
    loads. *)
Definition roundOps (r : list SmemOp * list SmemOp) : list SmemOp :=
  Barrier :: fst r ++ Barrier :: snd r.

End ConvertLayout.

Arguments FromRecord {V} v.
Arguments Extracted {V} multiDimRepId ctaId elemId v.
Arguments NullValue {V}.
Arguments Barrier {V}.
Arguments SmemStore {V} offset vec valVec.
Arguments SmemLoad {V} offset vec.
Arguments emitLoop {V A} f l vals.
Arguments processElem {V} stNotRd layout rank shapePerCTA vec paddedRepShape
  outOrd multiDimOffsetFirstElem multiDimRepId multiDimCTAInRepId ctaId
  linearCTAId accumSizePerThread elemId vals.
Arguments processCTA {V} stNotRd layout rank numCTAs shapePerCTA
  numCTAsEachRep multiDimRepId vec paddedRepShape outOrd
  multiDimOffsetFirstElem accumSizePerThread ctaId vals.
Arguments processReplicaBlocked {V} stNotRd layout shape numCTAsEachRep
  multiDimRepId vec paddedRepShape outOrd vals.
Arguments cvt_shape {V} c.
Arguments cvt_srcLayout {V} c.
Arguments cvt_dstLayout {V} c.
Arguments cvt_src {V} c.
Arguments cvt_bufferOffset {V} c.
Arguments cvt_scratch {V} c.
Arguments replicationRound {V} shape srcLayout dstLayout plan scratch vals
  repId outVals.
Arguments convertBlocked {V} getElemsPerThread op srcLayout dstLayout.
Arguments ConvertLayoutOpConversion {V} getElemsPerThread op.
Arguments emittedOps {V} r.
Arguments isBarrier {V} o.
Arguments isStore {V} o.
Arguments isLoad {V} o.
Arguments accessKind {V} stNotRd o.
Arguments roundOps {V} r.

(** ** Sample operations

    A one-dimensional tensor of 128 elements distributed four per lane over
    one warp, as in section 8 of the specification. *)

Definition exampleLayout : BlockedEncodingAttr :=
  {| sizePerThread := [4]; threadsPerWarp := [32];
     warpsPerCTA := [1]; order := [0] |}.

Definition exampleOperand (record : list Z) : TensorOperand Z :=
  {| shapeOf := [128]; recordOf := record |}.

(** Pointers divisible by 16 and contiguous over the whole tensor. *)
Definition exampleAxisInfo : option AxisInfo :=
  Some {| divisibility := [16]; contiguity := [128] |}.

(** A store of 32-bit floats without a mask. *)
Definition exampleStore : StoreOp Z :=
  {| st_ptr := exampleOperand [100; 101; 102; 103];
     st_ptrLayout := exampleLayout;
     st_ptrAxisInfo := exampleAxisInfo;
     st_value := exampleOperand [200; 201; 202; 203];
     st_valueElemTy := Some (FloatType 32);
     st_mask := None |}.

(** A store of booleans. *)
Definition exampleStoreI1 : StoreOp Z :=
  {| st_ptr := exampleOperand [100; 101; 102; 103];
     st_ptrLayout := exampleLayout;
     st_ptrAxisInfo := exampleAxisInfo;
     st_value := exampleOperand [200; 201; 202; 203];
     st_valueElemTy := Some (IntegerType 1);
     st_mask := None |}.

(** A masked load of 16-bit integers whose fallback is the splat
    constant 7. *)
Definition exampleLoad : LoadOp Z :=
  {| ld_ptr := exampleOperand [100; 101; 102; 103];
     ld_ptrLayout := exampleLayout;
     ld_ptrAxisInfo := exampleAxisInfo;
     ld_resultElemTy := Some (IntegerType 16);
     ld_mask := Some (exampleOperand [300; 301; 302; 303]);
     ld_other := Some (exampleOperand [400; 401; 402; 403]);
     ld_otherConstant := Some {| isSplat := true; splatValue := 7 |} |}.

(** A masked load of 16-bit floats with a fallback tensor. *)
Definition exampleLoadOther : LoadOp Z :=
  {| ld_ptr := exampleOperand [100; 101; 102; 103];
     ld_ptrLayout := exampleLayout;
     ld_ptrAxisInfo := exampleAxisInfo;
     ld_resultElemTy := Some (FloatType 16);
     ld_mask := Some (exampleOperand [300; 301; 302; 303]);
     ld_other := Some (exampleOperand [400; 401; 402; 403]);
     ld_otherConstant := None |}.

(** A conversion of the 128 elements from four per lane to one per lane,
    through a staging buffer of 128 elements, in one round. *)
Definition exampleConvert : ConvertLayoutOp Z :=
  {| cvt_shape := [128];
     cvt_srcLayout := Blocked exampleLayout;
     cvt_dstLayout :=
       Blocked {| sizePerThread := [1]; threadsPerWarp := [32];
                  warpsPerCTA := [1]; order := [0] |};
     cvt_src := [10; 11; 12; 13];
     cvt_bufferOffset := Some 0;
     cvt_scratch := {| paddedRepShape := [128]; inVec := 4; outVec := 1 |} |}.

(** The same conversion towards a layout kept in shared memory. *)
Definition exampleConvertToShared : ConvertLayoutOp Z :=
  {| cvt_shape := [128];
     cvt_srcLayout := Blocked exampleLayout;
     cvt_dstLayout := Shared;
     cvt_src := [10; 11; 12; 13];
     cvt_bufferOffset := Some 0;
     cvt_scratch := {| paddedRepShape := [128]; inVec := 4; outVec := 1 |} |}.

(** A two-dimensional layout with tiles of 2 x 2 elements, 64 lanes along
    dimension 0: two tiles per lane along each dimension of a [256, 4]
    tensor. *)
Definition exampleLayout2d : BlockedEncodingAttr :=
  {| sizePerThread := [2; 2]; threadsPerWarp := [32; 1];
     warpsPerCTA := [2; 1]; order := [1; 0] |}.


(** A load of 16-bit floats through pointers known to be divisible by 3
    only. *)
Definition exampleLoadDiv3 : LoadOp Z :=
  {| ld_ptr := exampleOperand [100; 101; 102; 103];
     ld_ptrLayout := exampleLayout;
     ld_ptrAxisInfo := Some {| divisibility := [3]; contiguity := [128] |};
     ld_resultElemTy := Some (FloatType 16);
     ld_mask := None;
     ld_other := None;
     ld_otherConstant := None |}.

(** A store of 32-bit floats through such pointers. *)
Definition exampleStoreDiv3 : StoreOp Z :=
  {| st_ptr := exampleOperand [100; 101; 102; 103];
     st_ptrLayout := exampleLayout;
     st_ptrAxisInfo := Some {| divisibility := [3]; contiguity := [128] |};
     st_value := exampleOperand [200; 201; 202; 203];
     st_valueElemTy := Some (FloatType 32);
     st_mask := None |}.

(** ** Index enumeration of any layout: [emitIndices] *)

(** [paddedShape] of [emitIndicesForSliceLayout]: the shape with an extent
    of 1 inserted at position [dim]. *)
Definition paddedShapeOf (shape : list Z) (dim : Z) : option (list Z) :=
  mapM (fun d => if d <? dim then at_ shape d
                 else if d =? dim then Some 1
                 else at_ shape (d - 1))
       (seqZ 0 (Z.of_nat (length shape) + 1)).

(** The inner loop filling [resultIndices[i]]: the coordinates of a padded
    index except the one at [dim], in order. *)
Definition dropDim (rank dim : Z) (paddedIndex : list Value)
  : option (list Value) :=
  fold_left (fun acc d =>
               resultIndex ← acc;
               if negb (d =? dim) then
                 v ← at_ paddedIndex d; Some (resultIndex ++ [v])
               else Some resultIndex)
            (seqZ 0 (rank + 1)) (Some []).

(** [emitIndicesForSliceLayout]; a parent that is not a Blocked layout
    stops at [assert(0 && "... not implemented yet")]. *)
Definition emitIndicesForSliceLayout (dim : Z) (parent : Attribute)
    (shape : list Z) : option (list (list Value)) :=
  match parent with
  | Blocked blockedParent =>
      let rank := Z.of_nat (length shape) in
      paddedShape ← paddedShapeOf shape dim;
      paddedIndices ← emitIndicesForBlockedLayout blockedParent paddedShape;
      mapM (dropDim rank dim) paddedIndices
  | _ => None
  end.

(** [emitIndices]: Blocked and Slice layouts only. *)
Definition emitIndices (layout : Attribute) (shape : list Z)
  : option (list (list Value)) :=
  match layout with
  | Blocked blocked => emitIndicesForBlockedLayout blocked shape
  | Slice dim parent => emitIndicesForSliceLayout dim parent shape
  | _ => None
  end.

(** ** [MakeRangeOpConversion] *)

Record MakeRangeOp : Type := {
  mr_shape : list Z;
  mr_layout : Attribute;
  mr_elemTy : ElemType;
  mr_start : Z
}.

(** The body of the loop over [idxs]: [idx[0] + start], the index being
    asserted to have one coordinate. *)
Definition rangeValue (start : Z) (multiDim : list Value) : option Value :=
  match multiDim with
  | [i] => Some (Add i (IndexConst start))
  | _ => None
  end.

(** [MakeRangeOpConversion::matchAndRewrite]: the elements of the result
    record. *)
Definition MakeRangeOpConversion (op : MakeRangeOp) : Rewrite (list Value) :=
  if negb (isInteger (mr_elemTy op) 32) then Aborted else
  match idxs ← emitIndices (mr_layout op) (mr_shape op);
        mapM (rangeValue (mr_start op)) idxs with
  | Some retVals => Rewritten retVals
  | None => Aborted
  end.

(** The one-dimensional Blocked layout over the 32 lanes of each of [wpc]
    warps, [spt] contiguous elements per lane and tile. *)
Definition blocked1d (spt wpc : Z) : BlockedEncodingAttr :=
  {| sizePerThread := [spt]; threadsPerWarp := [32];
     warpsPerCTA := [wpc]; order := [0] |}.

(** ** The elements a store packs and the elements a load unpacks *)

(** An element of the result record of a lowered load: lane [lane] of the
    result word [word] of the inline assembly emitted for the vector group
    that starts at [vecStart], the word being bitcast to a vector of
    elements. *)
Inductive LoadedVal : Type :=
| ExtractElement (vecStart word lane : Z).

(** The loop that closes the body of a vector group:
    [loaded = rets[ii / tmp][ii % tmp]] with
    [tmp = width / valueElemNbits], [rets] holding the [nWords] result
    words. *)
Definition loadedValsOfGroup (elemNbits vec : Z) (g : VecGroup)
    (vecStart : Z) : option (list LoadedVal) :=
  tmp ← divT (width g) elemNbits;
  mapM (fun ii =>
          q ← divT ii tmp;
          r ← remT ii tmp;
          word ← at_ (seqZ 0 (nWords g)) q;
          Some (ExtractElement vecStart word r))
       (seqZ 0 vec).

Section LoadResult.

Variable V : Type.
Variable getElemsPerThread : BlockedEncodingAttr -> list Z -> Z.

(** [loadedVals] once the loop over the vector groups has run. *)
Definition loadedVals (op : LoadOp V) (valueElemTy : ElemType)
  : option (list LoadedVal) :=
  let layout := ld_ptrLayout op in
  let numElems := u32 (getElemsPerThread layout (shapeOf (ld_ptr op))) in
  vec ← getVectorizeSize (ld_ptrAxisInfo op) (shapeOf (ld_ptr op)) layout;
  numVecs ← divT numElems vec;
  groups ← mapM (fun vecStart =>
                   g ← vecGroup (valueElemNbits valueElemTy) vec
                                (i32 numVecs) numElems;
                   loadedValsOfGroup (valueElemNbits valueElemTy) vec g
                                     vecStart)
                (vecStarts (Z.to_nat numElems) 0 numElems vec);
  Some (concat groups).

(** The elements of the record that replaces the load, when the lowering
    runs to completion. *)
Definition LoadOpResult (op : LoadOp V) : option (list LoadedVal) :=
  match ld_resultElemTy op, LoadOpConversion getElemsPerThread op with
  | Some valueElemTy, Rewritten _ => loadedVals op valueElemTy
  | _, _ => None
  end.

End LoadResult.

Arguments loadedVals {V} getElemsPerThread op valueElemTy.
Arguments LoadOpResult {V} getElemsPerThread op.

(** The shape of the access that one iteration of the loop over [elemId]
    of [processReplicaBlocked] emits: a store of a vector of [vec] values
    or a load of [vec] elements. *)
Definition accessOf {V} (stNotRd : bool) (vec : Z) (o : SmemOp V) : Prop :=
  if stNotRd
  then exists offset valVec,
         o = SmemStore offset vec valVec /\ length valVec = Z.to_nat vec
  else exists offset, o = SmemLoad offset vec.

(** ** Patterns that rebuild a record element by element *)

Section RecordPatterns.

(** The elements of the operand records. *)
Variable V : Type.

(** [getElemsPerThread(layout, shape)] of the dialect, on any layout
    attribute, and [BlockedEncodingAttr::getElemsPerThread]; neither is
    among the sources. *)
Variable getElemsPerThreadOf : Attribute -> list Z -> Z.
Variable getElemsPerThread : BlockedEncodingAttr -> list Z -> Z.

(** *** [ViewLikeOpConversion] *)

Record ViewLikeOp : Type := {
  vw_resultShape : list Z;
  vw_resultLayout : Attribute;
  vw_src : list V
}.

(** The fields of the source record are extracted and packed again; the
    result is the list of values handed to [getStructFromElements]. *)
Definition ViewLikeOpConversion (op : ViewLikeOp) : Rewrite (list V) :=
  let elems :=
    u32 (getElemsPerThreadOf (vw_resultLayout op) (vw_resultShape op)) in
  match getElementsFromStruct (vw_src op) elems with
  | Some vals => Rewritten vals
  | None => Aborted
  end.

(** *** [BinaryOpConversion] and [AddPtrOpConversion] *)

(** The operation created for one element: [DestOp(lhs, rhs)] of a binary
    pattern, or the [getelementptr] of a pointer and an offset. *)
Inductive ElementOp : Type :=
| DestOp (lhs rhs : V)
| GEPOp (ptr offset : V).

Record BinaryOp : Type := {
  (* none: the result is not a ranked tensor *)
  bin_resultTy : option (Attribute * list Z);
  bin_lhs : list V;
  bin_rhs : list V
}.

(** The loop [resultVals[i] = create(a[i], b[i])] over two records of
    which [elems] fields are extracted. *)
Definition elementwise (create : V -> V -> ElementOp) (a b : list V)
    (elems : Z) : option (list ElementOp) :=
  as_ ← getElementsFromStruct a elems;
  bs ← getElementsFromStruct b elems;
  mapM (fun i => x ← at_ as_ i; y ← at_ bs i; Some (create x y))
       (seqZ 0 elems).

(** [BinaryOpConversion::matchAndRewrite]: a scalar result is left to the
    arithmetic lowering; the layout of a tensor result is asserted to be
    Blocked. *)
Definition BinaryOpConversion (op : BinaryOp) : Rewrite (list ElementOp) :=
  match bin_resultTy op with
  | None => MatchFailure
  | Some (Blocked resultLayout, resultShape) =>
      let elems := u32 (getElemsPerThread resultLayout resultShape) in
      match elementwise DestOp (bin_lhs op) (bin_rhs op) elems with
      | Some resultVals => Rewritten resultVals
      | None => Aborted
      end
  | Some _ => Aborted
  end.

Record AddPtrOp : Type := {
  ap_resultLayout : Attribute;
  ap_resultShape : list Z;
  ap_ptr : list V;
  ap_offset : list V
}.

(** [AddPtrOpConversion::matchAndRewrite]. *)
Definition AddPtrOpConversion (op : AddPtrOp) : Rewrite (list ElementOp) :=
  match ap_resultLayout op with
  | Blocked resultLayout =>
      let elems := u32 (getElemsPerThread resultLayout (ap_resultShape op)) in
      match elementwise GEPOp (ap_ptr op) (ap_offset op) elems with
      | Some resultVals => Rewritten resultVals
      | None => Aborted
      end
  | _ => Aborted
  end.

End RecordPatterns.

Arguments vw_resultShape {V} v.
Arguments vw_resultLayout {V} v.
Arguments vw_src {V} v.
Arguments ViewLikeOpConversion {V} getElemsPerThreadOf op.
Arguments DestOp {V} lhs rhs.
Arguments GEPOp {V} ptr offset.
Arguments bin_resultTy {V} b.
Arguments bin_lhs {V} b.
Arguments bin_rhs {V} b.
Arguments elementwise {V} create a b elems.
Arguments BinaryOpConversion {V} getElemsPerThread op.
Arguments ap_resultLayout {V} a.
Arguments ap_resultShape {V} a.
Arguments ap_ptr {V} a.
Arguments ap_offset {V} a.
Arguments AddPtrOpConversion {V} getElemsPerThread op.
(** * Properties *)

(** ** Machine integers *)

Lemma u32_small x : 0 <= x < 2 ^ 32 -> u32 x = x.
Proof. intros H. unfold u32. apply Z.mod_small. exact H. Qed.

Lemma u32_range x : 0 <= u32 x < 2 ^ 32.
Proof. unfold u32. apply Z.mod_pos_bound. lia. Qed.

Lemma i64_small x : - 2 ^ 63 <= x < 2 ^ 63 -> i64 x = x.
Proof. intros H. unfold i64. rewrite Z.mod_small; lia. Qed.

Lemma i64_small_nonneg x : 0 <= x < 2 ^ 63 -> i64 x = x.
Proof. intros H. apply i64_small. lia. Qed.

Lemma i32_small x : - 2 ^ 31 <= x < 2 ^ 31 -> i32 x = x.
Proof. intros H. unfold i32. rewrite Z.mod_small; lia. Qed.

Lemma divT_pos a b : 0 <= a -> 0 < b -> divT a b = Some (a / b).
Proof.
  intros Ha Hb. unfold divT.
  destruct (Z.eqb_spec b 0) as [->|_]; [lia|].
  now rewrite Z.quot_div_nonneg by lia.
Qed.

Lemma remT_pos a b : 0 <= a -> 0 < b -> remT a b = Some (a mod b).
Proof.
  intros Ha Hb. unfold remT.
  destruct (Z.eqb_spec b 0) as [->|_]; [lia|].
  now rewrite Z.rem_mod_nonneg by lia.
Qed.

Lemma prodZ_pos l : Forall (fun s => 0 < s) l -> 0 < prodZ l.
Proof. induction 1; simpl; lia. Qed.

Lemma at_lt {A} (l : list A) i :
  0 <= i < Z.of_nat (length l) -> exists x, at_ l i = Some x.
Proof.
  intros H. unfold at_. destruct (Z.ltb_spec i 0); [lia|].
  destruct (lookup_lt_is_Some_2 l (Z.to_nat i)) as [x Hx]; [lia|eauto].
Qed.

Lemma at_Some_lt {A} (l : list A) i x :
  at_ l i = Some x -> 0 <= i < Z.of_nat (length l).
Proof.
  unfold at_. destruct (Z.ltb_spec i 0); [discriminate|].
  intros Hl%lookup_lt_Some. lia.
Qed.


(** ** Round trip of the compile-time index conversion *)

Section IndexArithmeticFacts.

Variable wrap : Z -> Z.
Variable M : Z.
Hypothesis wrap_small : forall x, 0 <= x < M -> wrap x = x.

Lemma fold_wrap_prodZ l : forall acc,
  Forall (fun s => 0 < s) l -> 0 < acc -> acc * prodZ l < M ->
  fold_left (fun a s => wrap (a * s)) l acc = acc * prodZ l.
Proof.
  induction l as [|s l IH]; intros acc Hpos Hacc Hlt; simpl in *.
  - lia.
  - inversion Hpos as [|? ? Hs Hl]; subst.
    pose proof (prodZ_pos l Hl) as Hp.
    rewrite wrap_small by nia.
    rewrite IH; [lia | assumption | nia | nia].
Qed.

Lemma acc_mul_init_prodZ shape :
  Forall (fun s => 0 < s) shape -> prodZ (tail shape) < M ->
  acc_mul_init wrap shape = prodZ (tail shape).
Proof.
  intros Hpos Hlt. unfold acc_mul_init.
  rewrite fold_wrap_prodZ; [lia | | lia | lia].
  destruct shape; simpl; [constructor | now inversion Hpos].
Qed.

Lemma acc_mul_next_prodZ rest :
  Forall (fun s => 0 < s) rest ->
  acc_mul_next (prodZ rest) rest = Some (prodZ (tail rest)).
Proof.
  intros Hpos. destruct rest as [|s rest']; simpl; [reflexivity|].
  inversion Hpos as [|? ? Hs Hl]; subst.
  pose proof (prodZ_pos rest' Hl) as Hp.
  rewrite divT_pos by nia. f_equal.
  rewrite Z.mul_comm. apply Z.div_mul. lia.
Qed.

(** The coordinates computed for a linear index below the number of
    elements are in range, and accumulating them gives the index back. *)
Lemma getMultiDimIndex_loop_spec dims : forall rem,
  Forall (fun s => 0 < s) dims -> 0 <= rem < prodZ dims ->
  exists md,
    getMultiDimIndex_loop dims (prodZ (tail dims)) rem = Some md /\
    Forall2 (fun m d => 0 <= m < d) md dims /\
    forall lin0, 0 <= lin0 -> lin0 + rem < M ->
      getLinearIndex_loop wrap md dims (prodZ (tail dims)) lin0
      = Some (lin0 + rem).
Proof.
  induction dims as [|d rest IH]; intros rem Hpos Hrem.
  - simpl in *. exists []. repeat split; [constructor|].
    intros lin0 _ _. f_equal. lia.
  - inversion Hpos as [|? ? Hd Hrest]; subst.
    pose proof (prodZ_pos rest Hrest) as Hp.
    change (prodZ (d :: rest)) with (d * prodZ rest) in Hrem.
    change (tail (d :: rest)) with rest.
    assert (Hq : 0 <= rem / prodZ rest < d).
    { split; [apply Z.div_pos; lia|]. apply Z.div_lt_upper_bound; lia. }
    assert (Hr : 0 <= rem mod prodZ rest < prodZ rest)
      by (apply Z.mod_pos_bound; lia).
    assert (Hsplit : rem = rem / prodZ rest * prodZ rest + rem mod prodZ rest).
    { rewrite (Z.div_mod rem (prodZ rest)) at 1 by lia. lia. }
    destruct (IH (rem mod prodZ rest) Hrest Hr) as (md & Hmd & Hin & Hlin).
    exists (rem / prodZ rest :: md).
    cbn [getMultiDimIndex_loop getLinearIndex_loop].
    rewrite divT_pos, remT_pos, acc_mul_next_prodZ by (assumption || lia).
    cbn [mbind option_bind]. rewrite Hmd. cbn [mbind option_bind].
    repeat split; [constructor; assumption|].
    intros lin0 Hlin0 Hlt.
    assert (Hmul : 0 <= rem / prodZ rest * prodZ rest) by nia.
    rewrite (wrap_small (rem / prodZ rest * prodZ rest)) by lia.
    rewrite wrap_small by lia.
    rewrite Hlin by lia. f_equal. lia.
Qed.

Lemma getMultiDimIndex_getLinearIndex shape i :
  Forall (fun s => 0 < s) shape -> prodZ shape < M ->
  0 <= i < prodZ shape ->
  exists md,
    getMultiDimIndex wrap i shape = Some md /\
    Forall2 (fun m d => 0 <= m < d) md shape /\
    getLinearIndex wrap md shape = Some i.
Proof.
  intros Hpos HM Hi.
  assert (Htl : prodZ (tail shape) < M).
  { destruct shape as [|d rest]; simpl in *; [lia|].
    inversion Hpos as [|? ? Hd Hrest]; subst.
    pose proof (prodZ_pos rest Hrest). nia. }
  unfold getMultiDimIndex, getLinearIndex.
  rewrite acc_mul_init_prodZ by assumption.
  destruct (getMultiDimIndex_loop_spec shape i Hpos Hi) as (md & Hmd & Hin & Hlin).
  exists md. repeat split; try assumption.
  rewrite (Hlin 0) by lia. reflexivity.
Qed.

Lemma linZ_range md dims :
  Forall2 (fun m d => 0 <= m < d) md dims -> 0 <= linZ md dims < prodZ dims.
Proof.
  induction 1 as [|m d ms rest Hm _ IH]; simpl; [lia|]. nia.
Qed.

Lemma Forall2_range_pos md dims :
  Forall2 (fun m d => 0 <= m < d) md dims -> Forall (fun s => 0 < s) dims.
Proof. induction 1; constructor; [lia|assumption]. Qed.

Lemma getLinearIndex_loop_linZ md dims :
  Forall2 (fun m d => 0 <= m < d) md dims ->
  forall lin0, 0 <= lin0 -> lin0 + prodZ dims <= M ->
  getLinearIndex_loop wrap md dims (prodZ (tail dims)) lin0
  = Some (lin0 + linZ md dims).
Proof.
  induction 1 as [|m d ms rest Hm HF IH]; intros lin0 Hlin0 HM.
  - simpl. f_equal. lia.
  - pose proof (Forall2_range_pos _ _ HF) as Hpos.
    pose proof (prodZ_pos rest Hpos) as Hp.
    pose proof (linZ_range _ _ HF) as Hr.
    change (prodZ (d :: rest)) with (d * prodZ rest) in HM.
    change (tail (d :: rest)) with rest.
    cbn [getLinearIndex_loop linZ].
    rewrite acc_mul_next_prodZ by assumption. cbn [mbind option_bind].
    assert (Hmul : 0 <= m * prodZ rest <= (d - 1) * prodZ rest) by nia.
    rewrite (wrap_small (m * prodZ rest)) by nia.
    rewrite wrap_small by nia.
    rewrite IH by nia. f_equal. lia.
Qed.

Lemma getMultiDimIndex_loop_linZ md dims :
  Forall2 (fun m d => 0 <= m < d) md dims ->
  getMultiDimIndex_loop dims (prodZ (tail dims)) (linZ md dims) = Some md.
Proof.
  induction 1 as [|m d ms rest Hm HF IH]; [reflexivity|].
  pose proof (Forall2_range_pos _ _ HF) as Hpos.
  pose proof (prodZ_pos rest Hpos) as Hp.
  pose proof (linZ_range _ _ HF) as Hr.
  change (tail (d :: rest)) with rest.
  cbn [getMultiDimIndex_loop linZ].
  rewrite divT_pos, remT_pos, acc_mul_next_prodZ by (assumption || nia).
  cbn [mbind option_bind].
  assert (Hq : (m * prodZ rest + linZ ms rest) / prodZ rest = m).
  { rewrite Z.add_comm, Z.div_add by lia. rewrite Z.div_small by lia. lia. }
  assert (Hm' : (m * prodZ rest + linZ ms rest) mod prodZ rest = linZ ms rest).
  { rewrite Z.add_comm, Z.mod_add by lia. apply Z.mod_small. lia. }
  rewrite Hq, Hm', IH. reflexivity.
Qed.

(** [getMultiDimIndex] and [getLinearIndex] in terms of [linZ]. *)
Lemma getLinearIndex_linZ md shape :
  Forall2 (fun m d => 0 <= m < d) md shape -> prodZ shape < M ->
  getLinearIndex wrap md shape = Some (linZ md shape).
Proof.
  intros HF HM. pose proof (Forall2_range_pos _ _ HF) as Hpos.
  unfold getLinearIndex. rewrite acc_mul_init_prodZ; [|assumption|].
  - rewrite (getLinearIndex_loop_linZ _ _ HF 0) by lia. reflexivity.
  - destruct shape as [|d rest]; simpl in *; [lia|].
    inversion Hpos as [|? ? Hd Hrest]; subst.
    pose proof (prodZ_pos rest Hrest). nia.
Qed.

Lemma getMultiDimIndex_linZ md shape :
  Forall2 (fun m d => 0 <= m < d) md shape -> prodZ shape < M ->
  getMultiDimIndex wrap (linZ md shape) shape = Some md.
Proof.
  intros HF HM. pose proof (Forall2_range_pos _ _ HF) as Hpos.
  unfold getMultiDimIndex. rewrite acc_mul_init_prodZ; [|assumption|].
  - apply getMultiDimIndex_loop_linZ. exact HF.
  - destruct shape as [|d rest]; simpl in *; [lia|].
    inversion Hpos as [|? ? Hd Hrest]; subst.
    pose proof (prodZ_pos rest Hrest). nia.
Qed.


Lemma linZ_inj md1 md2 dims :
  Forall2 (fun m d => 0 <= m < d) md1 dims ->
  Forall2 (fun m d => 0 <= m < d) md2 dims ->
  linZ md1 dims = linZ md2 dims -> md1 = md2.
Proof.
  intros H1 H2 E.
  pose proof (getMultiDimIndex_loop_linZ _ _ H1) as E1.
  pose proof (getMultiDimIndex_loop_linZ _ _ H2) as E2.
  rewrite E in E1. congruence.
Qed.

End IndexArithmeticFacts.

(** ** Round trip of the emitted index conversion *)

Lemma eval_range tid v x : eval tid v = Some x -> 0 <= x < 2 ^ 32.
Proof.
  revert x. induction v as [| |c|a IHa b IHb|a IHa b IHb|a IHa b IHb|a IHa b IHb];
    intros x H; simpl in H; try discriminate.
  - injection H as <-. apply u32_range.
  - injection H as <-. apply u32_range.
  - destruct (eval tid a) as [xa|]; [|discriminate].
    destruct (eval tid b) as [xb|]; [|discriminate]. simpl in H.
    destruct (Z.eqb_spec xb 0); [discriminate|]. injection H as <-.
    specialize (IHa _ eq_refl). specialize (IHb _ eq_refl).
    pose proof (Z.mod_pos_bound xa xb). lia.
  - destruct (eval tid a) as [xa|]; [|discriminate].
    destruct (eval tid b) as [xb|]; [|discriminate]. simpl in H.
    destruct (Z.eqb_spec xb 0); [discriminate|]. injection H as <-.
    specialize (IHa _ eq_refl). specialize (IHb _ eq_refl).
    split; [apply Z.div_pos; lia|].
    apply Z.div_lt_upper_bound; nia.
  - destruct (eval tid a) as [xa|]; [|discriminate].
    destruct (eval tid b) as [xb|]; [|discriminate]. simpl in H.
    injection H as <-. apply u32_range.
  - destruct (eval tid a) as [xa|]; [|discriminate].
    destruct (eval tid b) as [xb|]; [|discriminate]. simpl in H.
    injection H as <-. apply u32_range.
Qed.

Lemma delinearize_fold_acc l : forall acc v,
  fold_left delinearize_step l (acc, v)
  = (fst (fold_left delinearize_step l ([], v)) ++ acc,
     snd (fold_left delinearize_step l ([], v))).
Proof.
  induction l as [|s l IH]; intros acc v; simpl; [reflexivity|].
  rewrite IH. rewrite (IH [URem v (IndexConst s)]). simpl.
  now rewrite <- app_assoc.
Qed.

Lemma delinearize_fold_spec tid dims : forall linear x,
  Forall (fun s => 0 < s < 2 ^ 32) dims ->
  eval tid linear = Some x ->
  length (fst (fold_left delinearize_step (rev dims) ([], linear)))
    = length dims /\
  eval tid (fold_left horner_step
              (zip (fst (fold_left delinearize_step (rev dims) ([], linear)))
                   dims)
              (snd (fold_left delinearize_step (rev dims) ([], linear))))
    = Some x.
Proof.
  induction dims as [|s dims IH] using rev_ind; intros linear x Hdims Hx.
  - simpl. auto.
  - apply Forall_app in Hdims as [Hdims Hs].
    inversion Hs as [|? ? Hs' _]; subst.
    pose proof (eval_range _ _ _ Hx) as Hxr.
    rewrite rev_unit. cbn [fold_left delinearize_step].
    rewrite delinearize_fold_acc. cbn [fst snd].
    assert (Hdiv : eval tid (UDiv linear (IndexConst s)) = Some (x / s)).
    { simpl. rewrite Hx. simpl. rewrite u32_small by lia.
      destruct (Z.eqb_spec s 0); [lia|reflexivity]. }
    destruct (IH _ _ Hdims Hdiv) as [Hlen Hev].
    set (md := fst (fold_left delinearize_step (rev dims)
                      ([], UDiv linear (IndexConst s)))) in *.
    set (rem := snd (fold_left delinearize_step (rev dims)
                       ([], UDiv linear (IndexConst s)))) in *.
    split; [rewrite !length_app, Hlen; reflexivity|].
    rewrite zip_with_app by exact Hlen.
    rewrite fold_left_app. cbn [zip_with fold_left horner_step fst snd].
    unfold horner_step at 1. cbn [eval fst snd]. rewrite Hev, Hx. simpl.
    rewrite (u32_small s) by lia.
    destruct (Z.eqb_spec s 0); [lia|]. cbn [mbind option_bind]. f_equal.
    assert (Hq : 0 <= x / s) by (apply Z.div_pos; lia).
    assert (Hm : 0 <= x mod s < s) by (apply Z.mod_pos_bound; lia).
    assert (Hsplit : x = x / s * s + x mod s).
    { rewrite (Z.div_mod x s) at 1 by lia. lia. }
    rewrite (u32_small (x / s * s)) by lia.
    rewrite u32_small by lia. lia.
Qed.

Lemma linearize_horner front rest shape :
  linearize (front :: rest) shape
  = fold_left horner_step (zip rest (tail shape)) front.
Proof. reflexivity. Qed.

Lemma linearize_delinearize tid linear shape x :
  shape <> [] ->
  Forall (fun s => 0 < s < 2 ^ 32) (tail shape) ->
  eval tid linear = Some x ->
  exists multiDim,
    delinearize linear shape = Some multiDim /\
    length multiDim = length shape /\
    eval tid (linearize multiDim shape) = Some x.
Proof.
  intros Hne Htl Hx. destruct shape as [|d tl]; [congruence|].
  destruct tl as [|s tl'].
  - exists [linear]. simpl. auto.
  - change (tail (d :: s :: tl')) with (s :: tl') in *.
    destruct (delinearize_fold_spec tid (s :: tl') linear x Htl Hx) as [Hlen Hev].
    unfold delinearize.
    destruct (fold_left delinearize_step (rev (s :: tl')) ([], linear))
      as [multiDim remained] eqn:E.
    cbn [fst snd] in *. exists (remained :: multiDim).
    split; [reflexivity|]. split; [simpl in *; lia|].
    rewrite linearize_horner. exact Hev.
Qed.

Lemma prodZ_pos_inv l :
  Forall (fun s => 0 <= s) l -> 0 < prodZ l -> Forall (fun s => 0 < s) l.
Proof.
  induction 1 as [|s l Hs Hl IH]; intros Hp; [constructor|].
  simpl in Hp. assert (Hs' : s <> 0) by (intros ->; lia).
  assert (Hl' : 0 < prodZ l) by nia.
  constructor; [lia | auto].
Qed.

(** C2 (as amended): for a non-empty shape whose number of elements is
    representable in the unsigned index type, delinearizing a valid linear
    index and linearizing the result gives the index back, for
    [getMultiDimIndex] / [getLinearIndex] at [unsigned] and for the emitted
    [delinearize] / [linearize] on every lane. *)
Theorem linearize_delinearize_roundtrip (shape : list Z) (i : Z) :
  shape <> [] ->
  Forall (fun s => 0 <= s < 2 ^ 32) shape ->
  prodZ shape < 2 ^ 32 ->
  0 <= i < prodZ shape ->
  (exists md,
     getMultiDimIndex u32 i shape = Some md /\
     getLinearIndex u32 md shape = Some i) /\
  (forall tid linear,
     eval tid linear = Some i ->
     exists multiDim,
       delinearize linear shape = Some multiDim /\
       eval tid (linearize multiDim shape) = Some i).
Proof.
  intros Hne Hrange HM Hi.
  assert (Hpos : Forall (fun s => 0 < s) shape).
  { apply prodZ_pos_inv; [|lia].
    eapply Forall_impl; [exact Hrange|]. simpl. intros; lia. }
  split.
  - destruct (getMultiDimIndex_getLinearIndex u32 (2 ^ 32) u32_small
                shape i Hpos HM Hi) as (md & Hmd & _ & Hlin).
    eauto.
  - intros tid linear Hx.
    destruct (linearize_delinearize tid linear shape i Hne) as (multiDim & H1 & _ & H2);
      [|assumption|eauto].
    destruct shape as [|d tl]; [constructor|]. simpl.
    inversion Hrange as [|? ? _ Htl]; inversion Hpos as [|? ? _ Htl']; subst.
    clear -Htl Htl'. induction tl as [|s tl IH]; constructor.
    + inversion Htl; inversion Htl'; subst. lia.
    + inversion Htl; inversion Htl'; subst. auto.
Qed.

Lemma linearize_delinearize_roundtrip_witness :
  (exists md,
     getMultiDimIndex u32 7 [2; 2; 3] = Some md /\
     getLinearIndex u32 md [2; 2; 3] = Some 7) /\
  (forall tid linear,
     eval tid linear = Some 7 ->
     exists multiDim,
       delinearize linear [2; 2; 3] = Some multiDim /\
       eval tid (linearize multiDim [2; 2; 3]) = Some 7).
Proof.
  apply (linearize_delinearize_roundtrip [2; 2; 3] 7).
  - discriminate.
  - repeat constructor; lia.
  - vm_compute. reflexivity.
  - vm_compute. split; [discriminate | reflexivity].
Defined.

(** C2 as stated fails when the number of elements of the tail of the shape
    is not representable: [acc_mul] wraps to zero and the first division of
    [getMultiDimIndex] is by zero. *)
Lemma roundtrip_fails_on_overflow :
  [1; 65536; 65536] <> [] /\
  0 <= 0 < prodZ [1; 65536; 65536] /\
  ~ (exists md,
       getMultiDimIndex u32 0 [1; 65536; 65536] = Some md /\
       getLinearIndex u32 md [1; 65536; 65536] = Some 0).
Proof.
  split; [discriminate|]. split; [vm_compute; split; [discriminate|reflexivity]|].
  intros (md & Hmd & _). vm_compute in Hmd. discriminate.
Qed.

(** ** Loops over an index range *)

Lemma mapM_seqZ_total {B} (f : Z -> option B) n :
  (forall k, 0 <= k < n -> is_Some (f k)) ->
  exists l, mapM f (seqZ 0 n) = Some l.
Proof.
  intros H. apply mapM_is_Some_2, Forall_seqZ.
  intros k Hk. apply H. lia.
Qed.

Lemma mapM_seqZ_at {B} (f : Z -> option B) n l :
  mapM f (seqZ 0 n) = Some l ->
  length l = Z.to_nat n /\
  forall k, 0 <= k < n -> exists y, at_ l k = Some y /\ f k = Some y.
Proof.
  intros H. pose proof (length_mapM _ _ _ H) as Hlen.
  rewrite length_seqZ in Hlen. split; [congruence|].
  intros k Hk. apply mapM_Some_1 in H.
  assert (Hs : seqZ 0 n !! Z.to_nat k = Some k).
  { rewrite lookup_seqZ_lt by lia. f_equal. lia. }
  destruct (Forall2_lookup_l _ _ _ _ _ H Hs) as (y & Hy & Hf).
  exists y. split; [|exact Hf].
  unfold at_. destruct (Z.ltb_spec k 0); [lia|exact Hy].
Qed.

(** ** The per-lane base index *)

Lemma delinearize_total linear shape :
  shape <> [] ->
  exists multiDim,
    delinearize linear shape = Some multiDim /\
    length multiDim = length shape.
Proof.
  intros Hne. destruct shape as [|d [|s tl]]; [congruence| |].
  - exists [linear]. auto.
  - unfold delinearize.
    destruct (fold_left delinearize_step (rev (s :: tl)) ([], linear))
      as [multiDim remained] eqn:E.
    exists (remained :: multiDim). split; [reflexivity|].
    assert (Hlen : forall l acc v,
               length (fst (fold_left delinearize_step l (acc, v)))
               = (length l + length acc)%nat).
    { clear. induction l as [|x l IH]; intros acc v; simpl; [reflexivity|].
      rewrite IH. simpl. lia. }
    specialize (Hlen (rev (s :: tl)) [] linear). rewrite E in Hlen.
    rewrite length_rev in Hlen. simpl in *. lia.
Qed.

Lemma unpermute_total (zs : list (Z * Value)) : forall multiDim,
  Forall (fun z => 0 <= fst z < Z.of_nat (length multiDim)) zs ->
  exists multiDim',
    fold_left unpermute_step zs (Some multiDim) = Some multiDim' /\
    length multiDim' = length multiDim.
Proof.
  induction zs as [|[o v] zs IH]; intros multiDim Hzs; simpl.
  - eauto.
  - inversion Hzs as [|? ? Ho Hrest]; subst. simpl in Ho.
    unfold set_at.
    destruct (Z.leb_spec 0 o); [|lia].
    destruct (Z.ltb_spec o (Z.of_nat (length multiDim))); [|lia]. simpl.
    destruct (IH (<[Z.to_nat o:=v]> multiDim)) as (md' & Hmd' & Hlen).
    + rewrite length_insert. exact Hrest.
    + exists md'. rewrite length_insert in Hlen. auto.
Qed.

Lemma delinearize_order_total linear shape ord :
  shape <> [] ->
  length ord = length shape ->
  Forall (fun o => 0 <= o < Z.of_nat (length shape)) ord ->
  exists multiDim,
    delinearize_order linear shape ord = Some multiDim /\
    length multiDim = length shape.
Proof.
  intros Hne Hlen Hord. unfold delinearize_order.
  rewrite Hlen, Nat.eqb_refl. simpl.
  destruct (mapM_is_Some_2 (at_ shape) ord) as [reordered Hre].
  { eapply Forall_impl; [exact Hord|]. intros o Ho. simpl.
    destruct (at_lt shape o Ho) as [x ->]. eauto. }
  rewrite Hre. simpl.
  pose proof (length_mapM _ _ _ Hre) as Hlre.
  destruct (delinearize_total linear reordered) as (rmd & Hrmd & Hlrmd).
  { intros ->. destruct shape; [congruence|]. simpl in *. lia. }
  rewrite Hrmd. simpl.
  destruct (unpermute_total (zip ord rmd) (replicate (length shape) Null))
    as (md & Hmd & Hlmd).
  { rewrite length_replicate. apply Forall_forall. intros [o v] Hin.
    apply elem_of_zip_l in Hin. simpl.
    rewrite Forall_forall in Hord. apply Hord. exact Hin. }
  exists md. rewrite length_replicate in Hlmd. auto.
Qed.

(** The values emitted for the base index: for dimension k the product of
    [sizePerThread[k]] with the sum of the lane value and of the group
    value times [threadsPerWarp[k]], the two values being those that
    [delinearize] returned under the order of the layout, each under a
    [urem] by its constant. *)
Lemma emitBase_structure
    (l : BlockedEncodingAttr) (shape : list Z) :
  shape <> [] ->
  length (sizePerThread l) = length shape ->
  length (threadsPerWarp l) = length shape ->
  length (warpsPerCTA l) = length shape ->
  length (order l) = length shape ->
  Forall (fun o => 0 <= o < Z.of_nat (length shape)) (order l) ->
  exists laneCoord groupCoord multiDimBase,
    delinearize_order (URem ThreadIdX (IndexConst 32))
                      (threadsPerWarp l) (order l) = Some laneCoord /\
    delinearize_order (UDiv ThreadIdX (IndexConst 32))
                      (warpsPerCTA l) (order l) = Some groupCoord /\
    emitBaseIndexForBlockedLayout l shape = Some multiDimBase /\
    length multiDimBase = length shape /\
    forall k, 0 <= k < Z.of_nat (length shape) ->
      exists shape_k spt_k tpw_k lane_k group_k,
        at_ shape k = Some shape_k /\
        at_ (sizePerThread l) k = Some spt_k /\
        at_ (threadsPerWarp l) k = Some tpw_k /\
        at_ laneCoord k = Some lane_k /\
        at_ groupCoord k = Some group_k /\
        at_ multiDimBase k =
          Some (Mul (IndexConst spt_k)
                  (Add (URem lane_k (IndexConst (ceil (u32 shape_k) spt_k)))
                       (Mul (URem group_k
                               (IndexConst
                                  (ceil (u32 shape_k) (u32 (spt_k * tpw_k)))))
                            (IndexConst tpw_k)))).
Proof.
  intros Hne Hspt Htpw Hwpc Hord Hrange.
  destruct (delinearize_order_total laneId (threadsPerWarp l) (order l))
    as (laneCoord & Hlane & Hllane);
    [| congruence | rewrite Htpw; exact Hrange |].
  { intros E. rewrite E in Htpw. destruct shape; simpl in *; congruence. }
  destruct (delinearize_order_total warpId (warpsPerCTA l) (order l))
    as (groupCoord & Hgroup & Hlgroup);
    [| congruence | rewrite Hwpc; exact Hrange |].
  { intros E. rewrite E in Hwpc. destruct shape; simpl in *; congruence. }
  assert (Hat : forall k, 0 <= k < Z.of_nat (length shape) ->
            exists shape_k spt_k tpw_k lane_k group_k,
              at_ shape k = Some shape_k /\
              at_ (sizePerThread l) k = Some spt_k /\
              at_ (threadsPerWarp l) k = Some tpw_k /\
              at_ laneCoord k = Some lane_k /\
              at_ groupCoord k = Some group_k).
  { intros k Hk.
    destruct (at_lt shape k) as [a Ha]; [lia|].
    destruct (at_lt (sizePerThread l) k) as [b Hb]; [lia|].
    destruct (at_lt (threadsPerWarp l) k) as [c Hc]; [lia|].
    destruct (at_lt laneCoord k) as [d Hd]; [lia|].
    destruct (at_lt groupCoord k) as [e He]; [lia|].
    exists a, b, c, d, e. auto. }
  destruct (mapM_seqZ_total
              (baseIndexAt l shape groupCoord laneCoord)
              (Z.of_nat (length shape))) as [base Hbase].
  { intros k Hk.
    destruct (Hat k Hk) as (a & b & c & d & e & Ha & Hb & Hc & Hd & He).
    unfold baseIndexAt. rewrite Ha, Hb, Hc. simpl. rewrite He, Hd. simpl.
    eauto. }
  exists laneCoord, groupCoord, base.
  unfold emitBaseIndexForBlockedLayout.
  fold laneId warpId. rewrite Hlane, Hgroup. simpl. rewrite Hbase.
  destruct (mapM_seqZ_at _ _ _ Hbase) as [Hlen Hk].
  repeat split; [lia|].
  intros k Hkr.
  destruct (Hat k Hkr) as (a & b & c & d & e & Ha & Hb & Hc & Hd & He).
  exists a, b, c, d, e. repeat split; try assumption.
  destruct (Hk k Hkr) as (y & Hy & Hf). rewrite Hy. f_equal.
  unfold baseIndexAt in Hf. rewrite Ha, Hb, Hc in Hf. simpl in Hf.
  rewrite He, Hd in Hf. simpl in Hf. injection Hf as <-. reflexivity.
Qed.

(** ** Index enumeration of a Blocked layout *)

(** The example of the specification: shape [128] with sizePerThread [4],
    threadsPerWarp [32] and warpsPerCTA [1]: four elements per lane, and
    lane t owns the indices 4t, 4t+1, 4t+2 and 4t+3. *)
Lemma emitIndices_example_1d (t : Z) :
  0 <= t < 32 ->
  laneIndices {| sizePerThread := [4]; threadsPerWarp := [32];
                 warpsPerCTA := [1]; order := [0] |} [128] t
  = Some [[4 * t]; [4 * t + 1]; [4 * t + 2]; [4 * t + 3]].
Proof.
  intros Ht.
  assert (H : forallb (fun t =>
                bool_decide
                  (laneIndices {| sizePerThread := [4]; threadsPerWarp := [32];
                                  warpsPerCTA := [1]; order := [0] |} [128] t
                   = Some [[4 * t]; [4 * t + 1]; [4 * t + 2]; [4 * t + 3]]))
                (seqZ 0 32) = true) by (vm_compute; reflexivity).
  rewrite forallb_forall in H.
  eapply bool_decide_eq_true_1. apply (H t).
  apply list_elem_of_In, elem_of_seqZ. lia.
Qed.

(** C1 (the code departs from the claim): on a two-dimensional layout that
    tiles its shape exactly, with two tiles along dimension 0 and thirty-two
    lanes along dimension 1, the enumeration delinearizes the tile number
    over [threadsPerDim] = [2; 32] instead of the tile counts [2; 1]; tile 1
    becomes (0, 1) and the subscript of [offset[1]] is 32, past its 32
    entries.  No lane obtains an index list, so the lanes do not partition
    the index space. *)
Theorem emitIndices_two_dim_out_of_range :
  let l := {| sizePerThread := [1; 1]; threadsPerWarp := [1; 32];
              warpsPerCTA := [1; 1]; order := [1; 0] |} in
  let shape := [2; 32] in
  mapM (dimGeometry l shape) (seqZ 0 2)
    = Some [ {| shapePerCTA_k := 1; multiDimElemsPerThread_k := 2;
                offset_k := [0; 1]; threadsPerDim_k := 2 |};
             {| shapePerCTA_k := 32; multiDimElemsPerThread_k := 1;
                offset_k := seqZ 0 32; threadsPerDim_k := 32 |} ] /\
  getMultiDimIndex u32 1 [2; 32] = Some [0; 1] /\
  emitIndicesForBlockedLayout l shape = None /\
  forall tid, laneIndices l shape tid = None.
Proof.
  assert (H : emitIndicesForBlockedLayout
                {| sizePerThread := [1; 1]; threadsPerWarp := [1; 32];
                   warpsPerCTA := [1; 1]; order := [1; 0] |} [2; 32] = None)
    by (vm_compute; reflexivity).
  cbv zeta. split; [vm_compute; reflexivity|].
  split; [vm_compute; reflexivity|]. split; [exact H|].
  intros tid. unfold laneIndices. rewrite H. reflexivity.
Qed.

(** ** Vector groups of a load or a store *)

Lemma ceil_exact a b : 0 < b -> ceil (a * b) b = a.
Proof.
  intros Hb. unfold ceil.
  replace (a * b + b - 1) with ((b - 1) + a * b) by lia.
  rewrite Z.div_add by lia. rewrite Z.div_small by lia. lia.
Qed.

(** When the assertion closing the head of the loop body holds, the words
    tile the group and the groups tile the record. *)
Lemma vecGroup_exact (elemNbits vec numElems : Z) (g : VecGroup) :
  0 < elemNbits -> 0 < vec -> elemNbits * vec < 2 ^ 31 ->
  0 < numElems < 2 ^ 31 ->
  vecGroup elemNbits vec (i32 (Z.quot numElems vec)) numElems = Some g ->
  totalWidth g = elemNbits * vec /\
  width g = Z.min (Z.max 32 elemNbits) (elemNbits * vec) /\
  nWords g * width g = elemNbits * vec /\
  wordNElems g * nWords g = vec /\
  numElems mod vec = 0.
Proof.
  intros Hb Hv Htot Hn H. unfold vecGroup in H.
  assert (Hbs : elemNbits < 2 ^ 31) by nia.
  rewrite (i32_small elemNbits) in H by lia.
  rewrite (i32_small (elemNbits * vec)) in H by nia.
  rewrite Z.quot_div_nonneg in H by lia.
  assert (Hc : 0 <= numElems / vec <= numElems).
  { split; [apply Z.div_pos; lia|].
    apply Z.div_le_upper_bound; nia. }
  rewrite (i32_small (numElems / vec)) in H by lia.
  set (total := elemNbits * vec) in *.
  set (w := Z.min total (Z.max 32 elemNbits)) in *.
  assert (Hw : 0 < w <= total) by (unfold w, total; nia).
  assert (Hwb : elemNbits <= w) by (unfold w, total; nia).
  rewrite (divT_pos total w) in H by lia.
  rewrite (divT_pos w elemNbits) in H by lia.
  cbn [mbind option_bind] in H.
  set (a := w / elemNbits) in *.
  set (q := total / w) in *.
  set (c := numElems / vec) in *.
  assert (Hq : 1 <= q) by (apply Z.div_le_lower_bound; lia).
  rewrite (Z.max_r 1 q) in H by lia.
  assert (Ha : 1 <= a) by (apply Z.div_le_lower_bound; lia).
  assert (Haw : a * elemNbits <= w).
  { unfold a. rewrite Z.mul_comm. apply Z.mul_div_le. lia. }
  assert (Hqw : q * w <= total).
  { unfold q. rewrite Z.mul_comm. apply Z.mul_div_le. lia. }
  assert (Hcv : c * vec <= numElems).
  { unfold c. rewrite Z.mul_comm. apply Z.mul_div_le. lia. }
  assert (Hab : a * q <= vec).
  { assert (a * q * elemNbits <= elemNbits * vec) by (unfold total in *; nia).
    nia. }
  assert (Habc : 0 <= a * q * c <= numElems) by nia.
  rewrite u32_small in H by lia.
  destruct (Z.eqb_spec (a * q * c) numElems) as [Heq|]; [|discriminate].
  injection H as <-. cbn [totalWidth width nWords wordNElems].
  assert (Hc1 : 1 <= c) by nia.
  assert (Hab' : a * q = vec) by nia.
  assert (Hcv' : c * vec = numElems) by nia.
  assert (Hqw' : q * w = total).
  { assert (a * q * elemNbits = total) by (unfold total; nia). nia. }
  split; [reflexivity|]. split; [apply Z.min_comm|].
  split; [exact Hqw'|]. split; [exact Hab'|].
  rewrite <- Hcv'. apply Z.mod_mul. lia.
Qed.

Lemma valueElemNbits_pos ty : 8 <= valueElemNbits ty.
Proof. unfold valueElemNbits. lia. Qed.

Lemma vecStarts_lookup fuel : forall vecStart numElems vec (g : nat) x,
  vecStarts fuel vecStart numElems vec !! g = Some x ->
  x = vecStart + Z.of_nat g * vec /\ x < numElems.
Proof.
  induction fuel as [|fuel IH]; intros vecStart numElems vec g x H; simpl in H.
  - discriminate.
  - destruct (Z.ltb_spec vecStart numElems); [|discriminate].
    destruct g as [|g]; simpl in H.
    + injection H as <-. lia.
    + apply IH in H. lia.
Qed.

Lemma vecStarts_nonempty numElems vec :
  0 < numElems -> vecStarts (Z.to_nat numElems) 0 numElems vec <> [].
Proof.
  intros H. destruct (Z.to_nat numElems) eqn:E; [lia|]. simpl.
  destruct (Z.ltb_spec 0 numElems); [discriminate|lia].
Qed.

Lemma getElementsFromStruct_at {V} (llvmStruct : list V) elems l i x :
  getElementsFromStruct llvmStruct elems = Some l ->
  at_ l i = Some x -> at_ llvmStruct i = Some x.
Proof.
  unfold getElementsFromStruct. intros H Hx.
  pose proof (at_Some_lt _ _ _ Hx) as Hi.
  destruct (mapM_seqZ_at _ _ _ H) as [Hlen Hk].
  destruct (Hk i) as (y & Hy & Hf); [lia|]. congruence.
Qed.

Lemma divT_Some a b q : divT a b = Some q -> b <> 0 /\ q = Z.quot a b.
Proof.
  unfold divT. destruct (Z.eqb_spec b 0); [discriminate|].
  intros [= <-]. auto.
Qed.

Lemma mapM_lookup_r {A B} (f : A -> option B) l k (i : nat) y :
  mapM f l = Some k -> k !! i = Some y ->
  exists x, l !! i = Some x /\ f x = Some y.
Proof.
  intros H Hy. apply mapM_Some_1 in H.
  destruct (Forall2_lookup_r _ _ _ _ _ H Hy) as (x & Hx & Hf). eauto.
Qed.

Lemma mapM_elem_of {A B} (f : A -> option B) l k y :
  mapM f l = Some k -> y ∈ k -> exists x, x ∈ l /\ f x = Some y.
Proof.
  intros H Hy. apply list_elem_of_lookup in Hy as [i Hi].
  destruct (mapM_lookup_r _ _ _ _ _ H Hi) as (x & Hx & Hf).
  exists x. split; [|exact Hf]. apply list_elem_of_lookup. eauto.
Qed.

Lemma getVectorizeSize_inv axisInfo shape layout vec :
  getVectorizeSize axisInfo shape layout = Some vec ->
  exists info order0 maxMultiple maxContig contigPerThread shape0,
    axisInfo = Some info /\
    at_ (order layout) 0 = Some order0 /\
    at_ (divisibility info) order0 = Some maxMultiple /\
    at_ (contiguity info) order0 = Some maxContig /\
    at_ (sizePerThread layout) order0 = Some contigPerThread /\
    at_ shape order0 = Some shape0 /\
    getAlignment axisInfo layout
      = Some (Z.min (u32 maxMultiple) (u32 maxContig)) /\
    vec = Z.min (Z.min (u32 maxMultiple) (u32 maxContig))
                (Z.min (u32 contigPerThread) (u32 shape0)).
Proof.
  unfold getVectorizeSize. intros H.
  apply bind_Some in H as (order0 & Ho & H).
  apply bind_Some in H as (align & Ha & H).
  apply bind_Some in H as (contigPerThread & Hc & H).
  apply bind_Some in H as (shape0 & Hs & H).
  injection H as <-.
  pose proof Ha as Ha'. unfold getAlignment in Ha'.
  apply bind_Some in Ha' as (info & Hi & Ha').
  apply bind_Some in Ha' as (order0' & Ho' & Ha').
  apply bind_Some in Ha' as (maxMultiple & Hm & Ha').
  apply bind_Some in Ha' as (maxContig & Hk & Ha').
  injection Ha' as <-.
  assert (order0' = order0) by congruence. subst order0'.
  exists info, order0, maxMultiple, maxContig, contigPerThread, shape0.
  repeat split; try assumption. lia.
Qed.

Lemma getVectorizeSize_nonneg axisInfo shape layout vec :
  getVectorizeSize axisInfo shape layout = Some vec -> 0 <= vec.
Proof.
  intros H.
  destruct (getVectorizeSize_inv _ _ _ _ H)
    as (info & o & m & c & s & sh & _ & _ & _ & _ & _ & _ & _ & ->).
  pose proof (u32_range m). pose proof (u32_range c).
  pose proof (u32_range s). pose proof (u32_range sh). lia.
Qed.

Section MemoryAccessFacts.

Variable V : Type.
Variable getElemsPerThread : BlockedEncodingAttr -> list Z -> Z.



Lemma storeGroup_inv (op : StoreOp V) ty ptrElems valueElems maskElems
    vec numVecs numElems vecStart asm :
  storeGroup op ty ptrElems valueElems maskElems vec numVecs numElems vecStart
    = Some asm ->
  exists g args maskVal addr,
    vecGroup (valueElemNbits ty) vec numVecs numElems = Some g /\
    length args = Z.to_nat (nWords g) /\
    groupPredicate (st_mask op) maskElems vecStart = Some maskVal /\
    at_ ptrElems vecStart = Some addr /\
    asm = [PtxSt (width g) (nWords g)
                 (AddrOperand (Scalar (RecordElem addr)) "l" 0) args maskVal].
Proof.
  unfold storeGroup. intros H.
  apply bind_Some in H as (g & Hg & H).
  apply bind_Some in H as (args & Hargs & H).
  apply bind_Some in H as (maskVal & Hmask & H).
  apply bind_Some in H as (addr & Haddr & H).
  injection H as <-.
  exists g, args, maskVal, addr. repeat split; try assumption.
  apply length_mapM in Hargs. rewrite length_seqZ in Hargs. congruence.
Qed.

Lemma loadGroup_inv (op : LoadOp V) ty ptrElems maskElems otherElems
    vec numVecs numElems vecStart asm :
  loadGroup op ty ptrElems maskElems otherElems vec numVecs numElems vecStart
    = Some asm ->
  exists g pred addr movs,
    vecGroup (valueElemNbits ty) vec numVecs numElems = Some g /\
    groupPredicate (ld_mask op) maskElems vecStart = Some pred /\
    at_ ptrElems vecStart = Some addr /\
    match ld_other op with
    | Some _ => mapM (otherMov op ty otherElems g pred vecStart)
                     (seqZ 0 (nWords g)) = Some movs
    | None => movs = []
    end /\
    asm = PtxLd (width g) (nWords g)
                ((fun wordIdx => ResultOperand wordIdx (writeConstraintOf (width g)))
                 <$> seqZ 0 (nWords g))
                (AddrOperand (Scalar (RecordElem addr)) "l" 0) pred :: movs.
Proof.
  unfold loadGroup. intros H.
  apply bind_Some in H as (g & Hg & H).
  apply bind_Some in H as (pred & Hpred & H).
  apply bind_Some in H as (addr & Haddr & H).
  apply bind_Some in H as (movs & Hmovs & H).
  injection H as <-.
  exists g, pred, addr, movs. repeat split; try assumption.
  destruct (ld_other op); [exact Hmovs|]. now injection Hmovs as <-.
Qed.

(** What a completed store lowering went through. *)
Lemma StoreOpConversion_inv (op : StoreOp V) asms :
  StoreOpConversion getElemsPerThread op = Rewritten asms ->
  let layout := st_ptrLayout op in
  let numElems := u32 (getElemsPerThread layout (shapeOf (st_ptr op))) in
  exists ty ptrElems valueElems maskElems vec,
    st_valueElemTy op = Some ty /\
    getMaskElems getElemsPerThread (st_mask op) layout (length valueElems)
      = Some maskElems /\
    getVectorizeSize (st_ptrAxisInfo op) (shapeOf (st_ptr op)) layout
      = Some vec /\
    0 < vec /\
    mapM (storeGroup op ty ptrElems valueElems maskElems vec
                     (i32 (Z.quot numElems vec)) numElems)
         (vecStarts (Z.to_nat numElems) 0 numElems vec) = Some asms.
Proof.
  unfold StoreOpConversion. intros H. cbv zeta.
  destruct (st_valueElemTy op) as [ty|]; [|discriminate].
  destruct (storeBody getElemsPerThread op ty) as [asms'|] eqn:Hb;
    [|discriminate].
  injection H as ->. unfold storeBody in Hb.
  apply bind_Some in Hb as (ptrElems & Hptr & Hb).
  apply bind_Some in Hb as (valueElems & Hval & Hb).
  apply bind_Some in Hb as (Hlen & _ & Hb).
  apply bind_Some in Hb as (maskElems & Hmask & Hb).
  apply bind_Some in Hb as (vec & Hvec & Hb).
  apply bind_Some in Hb as (numVecs & Hnv & Hb).
  apply divT_Some in Hnv as [Hne ->].
  pose proof (getVectorizeSize_nonneg _ _ _ _ Hvec).
  exists ty, ptrElems, valueElems, maskElems, vec.
  repeat split; try assumption. lia.
Qed.

Lemma LoadOpConversion_inv (op : LoadOp V) asms :
  LoadOpConversion getElemsPerThread op = Rewritten asms ->
  let layout := ld_ptrLayout op in
  let numElems := u32 (getElemsPerThread layout (shapeOf (ld_ptr op))) in
  exists ty ptrElems maskElems otherElems vec,
    ld_resultElemTy op = Some ty /\
    getMaskElems getElemsPerThread (ld_mask op) layout (length ptrElems)
      = Some maskElems /\
    getVectorizeSize (ld_ptrAxisInfo op) (shapeOf (ld_ptr op)) layout
      = Some vec /\
    0 < vec /\
    mapM (loadGroup op ty ptrElems maskElems otherElems vec
                    (i32 (Z.quot numElems vec)) numElems)
         (vecStarts (Z.to_nat numElems) 0 numElems vec) = Some asms.
Proof.
  unfold LoadOpConversion. intros H. cbv zeta.
  destruct (ld_resultElemTy op) as [ty|]; [|discriminate].
  destruct (loadBody getElemsPerThread op ty) as [asms'|] eqn:Hb;
    [|discriminate].
  injection H as ->. unfold loadBody in Hb.
  apply bind_Some in Hb as (ptrElems & Hptr & Hb).
  apply bind_Some in Hb as (Hlen & _ & Hb).
  apply bind_Some in Hb as (maskElems & Hmask & Hb).
  apply bind_Some in Hb as (vec & Hvec & Hb).
  apply bind_Some in Hb as (numVecs & Hnv & Hb).
  apply bind_Some in Hb as (otherElems & Hother & Hb).
  apply divT_Some in Hnv as [Hne ->].
  pose proof (getVectorizeSize_nonneg _ _ _ _ Hvec).
  exists ty, ptrElems, maskElems, otherElems, vec.
  repeat split; try assumption. lia.
Qed.

(** Every group of a completed lowering passed the assertion of
    [vecGroup]; with at least one group, the vector width divides the
    record length. *)
Lemma groups_divisible {A} (f : Z -> option A) elemNbits vec numElems asms :
  0 < elemNbits -> 0 < vec -> elemNbits * vec < 2 ^ 31 ->
  0 <= numElems < 2 ^ 31 ->
  mapM f (vecStarts (Z.to_nat numElems) 0 numElems vec) = Some asms ->
  (forall vecStart asm, f vecStart = Some asm ->
     exists g, vecGroup elemNbits vec (i32 (Z.quot numElems vec)) numElems
               = Some g) ->
  numElems mod vec = 0.
Proof.
  intros Hb Hv Htot Hn Hmap Hf.
  destruct (Z.eq_dec numElems 0) as [->|Hne]; [apply Z.mod_0_l; lia|].
  destruct (vecStarts (Z.to_nat numElems) 0 numElems vec) as [|vs rest] eqn:E.
  { exfalso. eapply vecStarts_nonempty; [|exact E]. lia. }
  apply mapM_Some_1 in Hmap. inversion Hmap as [|? asm ? ? Hasm _]; subst.
  destruct (Hf _ _ Hasm) as [g Hg].
  eapply vecGroup_exact; [| | |split|exact Hg]; lia.
Qed.

End MemoryAccessFacts.

Section MemoryAccessClaims.

Variable V : Type.
Variable getElemsPerThread : BlockedEncodingAttr -> list Z -> Z.

(** X28: in every store and every load whose lowering runs to completion,
    the vector width is
    min(alignment, sizePerThread[order[0]], shape[order[0]]) with
    alignment = min(divisibility, contiguity) along order[0], all read as
    unsigned numbers; and, the record length and the bits of one group
    staying below 2^31, the per-lane element count is a multiple of that
    width, because the assertion [wordNElems * nWords * numVecs == numElems]
    of the first group held. *)
Theorem vectorize_size_bound_and_divisibility :
  (forall (op : StoreOp V) asms,
     StoreOpConversion getElemsPerThread op = Rewritten asms ->
     let numElems :=
       u32 (getElemsPerThread (st_ptrLayout op) (shapeOf (st_ptr op))) in
     exists ty info order0 maxMultiple maxContig contigPerThread shape0 vec,
       st_valueElemTy op = Some ty /\
       st_ptrAxisInfo op = Some info /\
       at_ (order (st_ptrLayout op)) 0 = Some order0 /\
       at_ (divisibility info) order0 = Some maxMultiple /\
       at_ (contiguity info) order0 = Some maxContig /\
       at_ (sizePerThread (st_ptrLayout op)) order0 = Some contigPerThread /\
       at_ (shapeOf (st_ptr op)) order0 = Some shape0 /\
       getAlignment (st_ptrAxisInfo op) (st_ptrLayout op)
         = Some (Z.min (u32 maxMultiple) (u32 maxContig)) /\
       getVectorizeSize (st_ptrAxisInfo op) (shapeOf (st_ptr op))
                        (st_ptrLayout op) = Some vec /\
       vec = Z.min (Z.min (u32 maxMultiple) (u32 maxContig))
                   (Z.min (u32 contigPerThread) (u32 shape0)) /\
       (numElems < 2 ^ 31 -> valueElemNbits ty * vec < 2 ^ 31 ->
        numElems mod vec = 0)) /\
  (forall (op : LoadOp V) asms,
     LoadOpConversion getElemsPerThread op = Rewritten asms ->
     let numElems :=
       u32 (getElemsPerThread (ld_ptrLayout op) (shapeOf (ld_ptr op))) in
     exists ty info order0 maxMultiple maxContig contigPerThread shape0 vec,
       ld_resultElemTy op = Some ty /\
       ld_ptrAxisInfo op = Some info /\
       at_ (order (ld_ptrLayout op)) 0 = Some order0 /\
       at_ (divisibility info) order0 = Some maxMultiple /\
       at_ (contiguity info) order0 = Some maxContig /\
       at_ (sizePerThread (ld_ptrLayout op)) order0 = Some contigPerThread /\
       at_ (shapeOf (ld_ptr op)) order0 = Some shape0 /\
       getAlignment (ld_ptrAxisInfo op) (ld_ptrLayout op)
         = Some (Z.min (u32 maxMultiple) (u32 maxContig)) /\
       getVectorizeSize (ld_ptrAxisInfo op) (shapeOf (ld_ptr op))
                        (ld_ptrLayout op) = Some vec /\
       vec = Z.min (Z.min (u32 maxMultiple) (u32 maxContig))
                   (Z.min (u32 contigPerThread) (u32 shape0)) /\
       (numElems < 2 ^ 31 -> valueElemNbits ty * vec < 2 ^ 31 ->
        numElems mod vec = 0)).
Proof.
  split.
  - intros op asms H. cbv zeta.
    destruct (StoreOpConversion_inv V getElemsPerThread op asms H)
      as (ty & ptrElems & valueElems & maskElems & vec & Hty & _ & Hvec & Hpos & Hmap).
    destruct (getVectorizeSize_inv _ _ _ _ Hvec)
      as (info & o & m & c & s & sh & Hi & Ho & Hm & Hc & Hs & Hsh & Hal & Hv).
    exists ty, info, o, m, c, s, sh, vec.
    repeat split; try assumption.
    intros Hn Htot.
    pose proof (valueElemNbits_pos ty).
    pose proof (u32_range (getElemsPerThread (st_ptrLayout op) (shapeOf (st_ptr op)))).
    eapply (groups_divisible _ (valueElemNbits ty)); [| | | |exact Hmap|];
      try lia.
    intros vecStart asm Hasm.
    destruct (storeGroup_inv V op _ _ _ _ _ _ _ _ _ Hasm) as (g & _ & _ & _ & Hg & _).
    eauto.
  - intros op asms H. cbv zeta.
    destruct (LoadOpConversion_inv V getElemsPerThread op asms H)
      as (ty & ptrElems & maskElems & otherElems & vec & Hty & _ & Hvec & Hpos & Hmap).
    destruct (getVectorizeSize_inv _ _ _ _ Hvec)
      as (info & o & m & c & s & sh & Hi & Ho & Hm & Hc & Hs & Hsh & Hal & Hv).
    exists ty, info, o, m, c, s, sh, vec.
    repeat split; try assumption.
    intros Hn Htot.
    pose proof (valueElemNbits_pos ty).
    pose proof (u32_range (getElemsPerThread (ld_ptrLayout op) (shapeOf (ld_ptr op)))).
    eapply (groups_divisible _ (valueElemNbits ty)); [| | | |exact Hmap|];
      try lia.
    intros vecStart asm Hasm.
    destruct (loadGroup_inv V op _ _ _ _ _ _ _ _ _ Hasm) as (g & _ & _ & _ & Hg & _).
    eauto.
Qed.

(** C8 (as amended): for every vector group emitted by a completed store
    or load lowering, with elementBits the element width rounded to whole
    bytes, [8 * max(1, bitWidth / 8)], the word width is
    min(max(32, elementBits), elementBits * vectorWidth) and the number of
    words is ceil(elementBits * vectorWidth / w); record length and group
    bits stay below 2^31. *)
Theorem machine_word_width_and_count :
  (forall (op : StoreOp V) asms,
     StoreOpConversion getElemsPerThread op = Rewritten asms ->
     exists ty vec,
       st_valueElemTy op = Some ty /\
       getVectorizeSize (st_ptrAxisInfo op) (shapeOf (st_ptr op))
                        (st_ptrLayout op) = Some vec /\
       let elementBits := 8 * Z.max 1 (getIntOrFloatBitWidth ty / 8) in
       (u32 (getElemsPerThread (st_ptrLayout op) (shapeOf (st_ptr op))) < 2 ^ 31 ->
        elementBits * vec < 2 ^ 31 ->
        forall asm, asm ∈ asms ->
          exists w n addr args pred,
            asm = [PtxSt w n addr args pred] /\
            w = Z.min (Z.max 32 elementBits) (elementBits * vec) /\
            n = ceil (elementBits * vec) w /\
            length args = Z.to_nat n)) /\
  (forall (op : LoadOp V) asms,
     LoadOpConversion getElemsPerThread op = Rewritten asms ->
     exists ty vec,
       ld_resultElemTy op = Some ty /\
       getVectorizeSize (ld_ptrAxisInfo op) (shapeOf (ld_ptr op))
                        (ld_ptrLayout op) = Some vec /\
       let elementBits := 8 * Z.max 1 (getIntOrFloatBitWidth ty / 8) in
       (u32 (getElemsPerThread (ld_ptrLayout op) (shapeOf (ld_ptr op))) < 2 ^ 31 ->
        elementBits * vec < 2 ^ 31 ->
        forall asm, asm ∈ asms ->
          exists w n dsts addr pred movs,
            asm = PtxLd w n dsts addr pred :: movs /\
            w = Z.min (Z.max 32 elementBits) (elementBits * vec) /\
            n = ceil (elementBits * vec) w /\
            length dsts = Z.to_nat n)).
Proof.
  assert (Hbits : forall ty,
            8 * Z.max 1 (getIntOrFloatBitWidth ty / 8) = valueElemNbits ty)
    by (intros ty; unfold valueElemNbits; lia).
  split.
  - intros op asms H.
    destruct (StoreOpConversion_inv V getElemsPerThread op asms H)
      as (ty & ptrElems & valueElems & maskElems & vec & Hty & _ & Hvec & Hpos & Hmap).
    exists ty, vec. split; [exact Hty|]. split; [exact Hvec|].
    cbv zeta. rewrite Hbits. intros Hn Htot asm Hin.
    destruct (mapM_elem_of _ _ _ _ Hmap Hin) as (vecStart & Hvs & Hasm).
    apply list_elem_of_lookup in Hvs as [i Hi].
    apply vecStarts_lookup in Hi as [Hvs Hlt].
    destruct (storeGroup_inv V op _ _ _ _ _ _ _ _ _ Hasm)
      as (g & args & maskVal & addr & Hg & Hlen & _ & _ & ->).
    pose proof (valueElemNbits_pos ty) as Hb.
    assert (Hb' : 0 < valueElemNbits ty) by lia.
    assert (Hn' : 0 < u32 (getElemsPerThread (st_ptrLayout op)
                            (shapeOf (st_ptr op))) < 2 ^ 31) by nia.
    destruct (vecGroup_exact _ _ _ _ Hb' Hpos Htot Hn' Hg)
      as (_ & Hw & Hnw & _ & _).
    exists (width g), (nWords g), (AddrOperand (Scalar (RecordElem addr)) "l" 0),
      args, maskVal.
    repeat split; try assumption.
    rewrite <- Hnw. symmetry. apply ceil_exact. rewrite Hw. lia.
  - intros op asms H.
    destruct (LoadOpConversion_inv V getElemsPerThread op asms H)
      as (ty & ptrElems & maskElems & otherElems & vec & Hty & _ & Hvec & Hpos & Hmap).
    exists ty, vec. split; [exact Hty|]. split; [exact Hvec|].
    cbv zeta. rewrite Hbits. intros Hn Htot asm Hin.
    destruct (mapM_elem_of _ _ _ _ Hmap Hin) as (vecStart & Hvs & Hasm).
    apply list_elem_of_lookup in Hvs as [i Hi].
    apply vecStarts_lookup in Hi as [Hvs Hlt].
    destruct (loadGroup_inv V op _ _ _ _ _ _ _ _ _ Hasm)
      as (g & pred & addr & movs & Hg & _ & _ & _ & ->).
    pose proof (valueElemNbits_pos ty) as Hb.
    assert (Hb' : 0 < valueElemNbits ty) by lia.
    assert (Hn' : 0 < u32 (getElemsPerThread (ld_ptrLayout op)
                            (shapeOf (ld_ptr op))) < 2 ^ 31) by nia.
    destruct (vecGroup_exact _ _ _ _ Hb' Hpos Htot Hn' Hg)
      as (_ & Hw & Hnw & _ & _).
    eexists (width g), (nWords g), _, _, pred, movs.
    split; [reflexivity|]. split; [exact Hw|]. split.
    + rewrite <- Hnw. symmetry. apply ceil_exact. rewrite Hw. lia.
    + rewrite length_fmap, length_seqZ. reflexivity.
Qed.


(** A completed load lowering, with the elements of the fallback operand
    it read. *)
Lemma LoadOpConversion_inv_other (op : LoadOp V) asms :
  LoadOpConversion getElemsPerThread op = Rewritten asms ->
  let layout := ld_ptrLayout op in
  let numElems := u32 (getElemsPerThread layout (shapeOf (ld_ptr op))) in
  exists ty otherElems vec,
    ld_resultElemTy op = Some ty /\
    getVectorizeSize (ld_ptrAxisInfo op) (shapeOf (ld_ptr op)) layout
      = Some vec /\
    getLLVMElems getElemsPerThread (ld_other op) layout = Some otherElems /\
    exists ptrElems maskElems,
      mapM (loadGroup op ty ptrElems maskElems otherElems vec
                      (i32 (Z.quot numElems vec)) numElems)
           (vecStarts (Z.to_nat numElems) 0 numElems vec) = Some asms.
Proof.
  unfold LoadOpConversion. intros H. cbv zeta.
  destruct (ld_resultElemTy op) as [ty|]; [|discriminate].
  destruct (loadBody getElemsPerThread op ty) as [asms'|] eqn:Hb;
    [|discriminate].
  injection H as ->. unfold loadBody in Hb.
  apply bind_Some in Hb as (ptrElems & Hptr & Hb).
  apply bind_Some in Hb as (Hlen & _ & Hb).
  apply bind_Some in Hb as (maskElems & Hmask & Hb).
  apply bind_Some in Hb as (vec & Hvec & Hb).
  apply bind_Some in Hb as (numVecs & Hnv & Hb).
  apply bind_Some in Hb as (otherElems & Hother & Hb).
  apply divT_Some in Hnv as [Hne ->].
  exists ty, otherElems, vec.
  split; [reflexivity|]. split; [exact Hvec|]. split; [exact Hother|].
  exists ptrElems, maskElems. exact Hb.
Qed.

Lemma otherMov_inv (op : LoadOp V) ty otherElems g pred vecStart ii mov :
  otherMov op ty otherElems g pred vecStart ii = Some mov ->
  exists size elems,
    divT (width g) (valueElemNbits ty) = Some size /\
    mapM (fun s => falseVal ← at_ otherElems (vecStart + ii * size + s);
                   Some (RecordElem falseVal)) (seqZ 0 size) = Some elems /\
    mov = PtxMov (width g) (ResultOperand ii (writeConstraintOf (width g)))
            (match otherSplatConstInt op ty with
             | Some splatVal => ConstantOperand splatVal
             | None => BoundOperand (PackedWord (width g) elems)
                                    (constraintOf (width g))
             end) pred.
Proof.
  unfold otherMov. intros H.
  apply bind_Some in H as (size & Hsize & H).
  apply bind_Some in H as (elems & Helems & H).
  injection H as <-. eauto.
Qed.

(** C7 (as amended): in a completed lowering of a load with a fallback
    operand, every vector group carries, after its load instruction, one
    move per machine word, writing result word [ii] and predicated on the
    negation of the predicate of the group.  Its source is the packed
    fallback word, bound as an operand: the [size = width / elementBits]
    elements of the fallback record from position
    [vecStart + ii * size] on, [vecStart = i * vec] being the first element
    of group [i] - unless the fallback is a splat integer constant: then
    the move is emitted all the same, with the splat value as an immediate
    constant for its source.  Without a fallback operand no move is
    emitted. *)
Theorem fallback_moves :
  forall (op : LoadOp V) asms,
    LoadOpConversion getElemsPerThread op = Rewritten asms ->
    exists ty vec,
      ld_resultElemTy op = Some ty /\
      getVectorizeSize (ld_ptrAxisInfo op) (shapeOf (ld_ptr op))
                       (ld_ptrLayout op) = Some vec /\
      forall (i : nat) asm, asms !! i = Some asm ->
        exists w n dsts addr pred movs,
          asm = PtxLd w n dsts addr pred :: movs /\
          match ld_other op with
          | None => movs = []
          | Some other =>
              length movs = Z.to_nat n /\
              forall ii, 0 <= ii < n ->
                exists src,
                  at_ movs ii
                    = Some (PtxMov w (ResultOperand ii (writeConstraintOf w))
                                   src pred) /\
                  match otherSplatConstInt op ty with
                  | Some splatVal => src = ConstantOperand splatVal
                  | None =>
                      exists size elems,
                        divT w (valueElemNbits ty) = Some size /\
                        src = BoundOperand (PackedWord w elems)
                                           (constraintOf w) /\
                        Z.of_nat (length elems) = Z.max 0 size /\
                        forall s, 0 <= s < size ->
                          exists falseVal,
                            at_ (recordOf other)
                                (Z.of_nat i * vec + ii * size + s)
                              = Some falseVal /\
                            at_ elems s = Some (RecordElem falseVal)
                  end
          end.
Proof.
  intros op asms H.
  destruct (LoadOpConversion_inv_other op asms H)
    as (ty & otherElems & vec & Hty & Hvec & Hother & ptrElems & maskElems
        & Hmap).
  exists ty, vec. split; [exact Hty|]. split; [exact Hvec|].
  intros i asm Hi.
  destruct (mapM_lookup_r _ _ _ _ _ Hmap Hi) as (vecStart & Hvs & Hasm).
  apply vecStarts_lookup in Hvs as [-> _]. rewrite Z.add_0_l in Hasm.
  destruct (loadGroup_inv V op _ _ _ _ _ _ _ _ _ Hasm)
    as (g & pred & addr & movs & _ & _ & _ & Hmovs & ->).
  eexists _, _, _, _, pred, movs. split; [reflexivity|].
  destruct (ld_other op) as [other|]; [|exact Hmovs].
  destruct (mapM_seqZ_at _ _ _ Hmovs) as [Hlen Hk].
  split; [exact Hlen|]. intros ii Hii.
  destruct (Hk ii Hii) as (mov & Hat & Hmov).
  destruct (otherMov_inv _ _ _ _ _ _ _ _ Hmov)
    as (size & elems & Hsize & Helems & ->).
  eexists. split; [exact Hat|].
  destruct (otherSplatConstInt op ty); [reflexivity|].
  exists size, elems. split; [exact Hsize|]. split; [reflexivity|].
  destruct (mapM_seqZ_at _ _ _ Helems) as [Hle Hs].
  split; [lia|]. intros s0 Hs0.
  destruct (Hs s0 Hs0) as (y & Hy & Hf).
  apply bind_Some in Hf as (falseVal & Hfv & Hf). injection Hf as <-.
  exists falseVal. split; [|exact Hy].
  cbn [getLLVMElems] in Hother.
  exact (getElementsFromStruct_at _ _ _ _ _ Hother Hfv).
Qed.

End MemoryAccessClaims.

(** ** The claims on the sample operations *)

Lemma vectorize_size_bound_and_divisibility_witness :
  exists vec,
    getVectorizeSize exampleAxisInfo [128] exampleLayout = Some vec /\
    vec = Z.min (Z.min (u32 16) (u32 128)) (Z.min (u32 4) (u32 128)) /\
    u32 (blockedElemsPerThread exampleLayout [128]) mod vec = 0.
Proof.
  assert (H : StoreOpConversion blockedElemsPerThread exampleStore
              = Rewritten
                  [[PtxSt 32 4 (AddrOperand (Scalar (RecordElem 100)) "l" 0)
                      [BoundOperand (PackedWord 32 [RecordElem 200]) "r";
                       BoundOperand (PackedWord 32 [RecordElem 201]) "r";
                       BoundOperand (PackedWord 32 [RecordElem 202]) "r";
                       BoundOperand (PackedWord 32 [RecordElem 203]) "r"]
                      (ConstI1 1)]])
    by (vm_compute; reflexivity).
  destruct (proj1 (vectorize_size_bound_and_divisibility Z blockedElemsPerThread)
              exampleStore _ H)
    as (ty & info & o & m & c & s & sh & vec
        & Hty & Hi & Ho & Hm & Hc & Hs & Hsh & _ & Hvec & Hv & Hdiv).
  vm_compute in Hty. injection Hty as <-.
  vm_compute in Hi. injection Hi as <-.
  vm_compute in Ho. injection Ho as <-.
  vm_compute in Hm. injection Hm as <-.
  vm_compute in Hc. injection Hc as <-.
  vm_compute in Hs. injection Hs as <-.
  vm_compute in Hsh. injection Hsh as <-.
  exists vec. split; [exact Hvec|]. split; [exact Hv|].
  apply Hdiv; subst vec; vm_compute; reflexivity.
Defined.

(** C5: the vector width is chosen without regard to the number of
    elements a lane owns.  With pointers divisible by 3 the width is
    min(min(3, 128), min(4, 128)) = 3, a lane owns four elements and
    [numVecs] is 4 / 3 = 1; the first vector group of a store of 32-bit
    floats has one element per word and three words, that of a load of
    16-bit floats two elements per word and one word, and the assertion
    [wordNElems * nWords * numVecs == numElems] compares 3, respectively 2,
    with 4: the lowering stops there, in the store and in the load. *)
Lemma vectorize_size_not_a_divisor :
  getVectorizeSize (st_ptrAxisInfo exampleStoreDiv3)
                   (shapeOf (st_ptr exampleStoreDiv3))
                   (st_ptrLayout exampleStoreDiv3) = Some 3 /\
  getVectorizeSize (ld_ptrAxisInfo exampleLoadDiv3)
                   (shapeOf (ld_ptr exampleLoadDiv3))
                   (ld_ptrLayout exampleLoadDiv3) = Some 3 /\
  3 = Z.min (Z.min 3 128) (Z.min 4 128) /\
  blockedElemsPerThread exampleLayout [128] = 4 /\
  4 mod 3 <> 0 /\
  vecGroup (valueElemNbits (FloatType 32)) 3 (i32 (Z.quot 4 3)) 4 = None /\
  vecGroup (valueElemNbits (FloatType 16)) 3 (i32 (Z.quot 4 3)) 4 = None /\
  StoreOpConversion blockedElemsPerThread exampleStoreDiv3 = Aborted /\
  LoadOpConversion blockedElemsPerThread exampleLoadDiv3 = Aborted.
Proof.
  repeat split; try (vm_compute; reflexivity). vm_compute. discriminate.
Qed.

Lemma machine_word_width_and_count_witness :
  exists w n addr args pred,
    [PtxSt 32 4 (AddrOperand (Scalar (RecordElem 100)) "l" 0)
       [BoundOperand (PackedWord 32 [RecordElem 200]) "r";
        BoundOperand (PackedWord 32 [RecordElem 201]) "r";
        BoundOperand (PackedWord 32 [RecordElem 202]) "r";
        BoundOperand (PackedWord 32 [RecordElem 203]) "r"]
       (ConstI1 1) : PtxInstr Z]
    = [PtxSt w n addr args pred] /\
    w = Z.min (Z.max 32 32) (32 * 4) /\
    n = ceil (32 * 4) w /\
    length args = Z.to_nat n.
Proof.
  assert (H : StoreOpConversion blockedElemsPerThread exampleStore
              = Rewritten
                  [[PtxSt 32 4 (AddrOperand (Scalar (RecordElem 100)) "l" 0)
                      [BoundOperand (PackedWord 32 [RecordElem 200]) "r";
                       BoundOperand (PackedWord 32 [RecordElem 201]) "r";
                       BoundOperand (PackedWord 32 [RecordElem 202]) "r";
                       BoundOperand (PackedWord 32 [RecordElem 203]) "r"]
                      (ConstI1 1)]])
    by (vm_compute; reflexivity).
  destruct (proj1 (machine_word_width_and_count Z blockedElemsPerThread)
              exampleStore _ H) as (ty & vec & Hty & Hvec & Hw).
  vm_compute in Hty. injection Hty as <-.
  vm_compute in Hvec. injection Hvec as <-.
  apply Hw; [vm_compute; reflexivity | vm_compute; reflexivity |].
  apply list_elem_of_here.
Defined.

(** C8 as stated fails for booleans: the element width is 1 bit, the
    lowering packs them as bytes, and four of them travel in one 32-bit
    word, not in a word of min(max(32, 1), 1 * 4) = 4 bits. *)
Lemma machine_word_width_of_i1 :
  st_valueElemTy exampleStoreI1 = Some (IntegerType 1) /\
  getIntOrFloatBitWidth (IntegerType 1) = 1 /\
  getVectorizeSize (st_ptrAxisInfo exampleStoreI1)
                   (shapeOf (st_ptr exampleStoreI1))
                   (st_ptrLayout exampleStoreI1) = Some 4 /\
  StoreOpConversion blockedElemsPerThread exampleStoreI1
    = Rewritten
        [[PtxSt 32 1 (AddrOperand (Scalar (RecordElem 100)) "l" 0)
            [BoundOperand
               (PackedWord 32 [SExtI8 200; SExtI8 201; SExtI8 202; SExtI8 203])
               "r"]
            (ConstI1 1)]] /\
  32 <> Z.min (Z.max 32 1) (1 * 4).
Proof. repeat split; try (vm_compute; reflexivity). vm_compute. discriminate. Qed.


Lemma fallback_moves_witness :
  exists asm movs elems falseVal,
    LoadOpConversion blockedElemsPerThread exampleLoadOther
      = Rewritten [asm] /\
    asm = PtxLd 32 2 [ResultOperand 0 "=r"; ResultOperand 1 "=r"]
            (AddrOperand (Scalar (RecordElem 100)) "l" 0)
            (Scalar (RecordElem 300)) :: movs /\
    at_ movs 1
      = Some (PtxMov 32 (ResultOperand 1 "=r")
                     (BoundOperand (PackedWord 32 elems) "r")
                     (Scalar (RecordElem 300))) /\
    at_ [400; 401; 402; 403] 3 = Some falseVal /\
    at_ elems 1 = Some (RecordElem falseVal).
Proof.
  assert (H : LoadOpConversion blockedElemsPerThread exampleLoadOther
              = Rewritten
                  [[PtxLd 32 2 [ResultOperand 0 "=r"; ResultOperand 1 "=r"]
                      (AddrOperand (Scalar (RecordElem 100)) "l" 0)
                      (Scalar (RecordElem 300));
                    PtxMov 32 (ResultOperand 0 "=r")
                      (BoundOperand
                         (PackedWord 32 [RecordElem 400; RecordElem 401]) "r")
                      (Scalar (RecordElem 300));
                    PtxMov 32 (ResultOperand 1 "=r")
                      (BoundOperand
                         (PackedWord 32 [RecordElem 402; RecordElem 403]) "r")
                      (Scalar (RecordElem 300))]])
    by (vm_compute; reflexivity).
  destruct (fallback_moves Z blockedElemsPerThread exampleLoadOther _ H)
    as (ty & vec & Hty & Hvec & Hm).
  vm_compute in Hty. injection Hty as <-.
  vm_compute in Hvec. injection Hvec as <-.
  destruct (Hm 0%nat _ eq_refl)
    as (w & n & dsts & addr & pred & movs & Heq & Hrest).
  injection Heq as <- <- <- <- <- <-.
  change (ld_other exampleLoadOther)
    with (Some (exampleOperand [400; 401; 402; 403])) in Hrest.
  destruct Hrest as [_ Hii].
  destruct (Hii 1 ltac:(lia)) as (src & Hat & Hsrc).
  change (otherSplatConstInt exampleLoadOther (FloatType 16))
    with (@None Z) in Hsrc.
  destruct Hsrc as (size & elems & Hsize & -> & _ & Hs).
  vm_compute in Hsize. injection Hsize as <-.
  destruct (Hs 1 ltac:(lia)) as (falseVal & Hfv & Hel).
  eexists _, _, elems, falseVal.
  split; [exact H|]. split; [reflexivity|].
  split; [exact Hat|]. split; [exact Hfv|exact Hel].
Defined.

(** C7 as stated fails: with a splat integer constant as fallback the move
    is still emitted, one per word, with the constant as its immediate
    source operand. *)
Lemma fallback_move_emitted_for_splat_constant :
  otherSplatConstInt exampleLoad (IntegerType 16) = Some 7 /\
  exists asm,
    LoadOpConversion blockedElemsPerThread exampleLoad = Rewritten [asm] /\
    In (PtxMov 32 (ResultOperand 0 "=r") (ConstantOperand 7)
               (Scalar (RecordElem 300))) asm /\
    In (PtxMov 32 (ResultOperand 1 "=r") (ConstantOperand 7)
               (Scalar (RecordElem 300))) asm.
Proof.
  split; [reflexivity|]. eexists. split; [vm_compute; reflexivity|].
  simpl. auto.
Qed.

(** ** Conversion between layouts *)

Section ConvertLayoutFacts.

Variable V : Type.
Variable getElemsPerThread : BlockedEncodingAttr -> list Z -> Z.

(** The operations of a loop are the concatenation, in order, of what each
    iteration emits. *)
Lemma emitLoop_chunks {A}
    (f : A -> list (CvtValue V) -> option (list (SmemOp V) * list (CvtValue V)))
    l : forall vals ops vals',
  emitLoop f l vals = Some (ops, vals') ->
  exists chunks,
    ops = concat chunks /\
    Forall2 (fun a chunk => exists v1 v2, f a v1 = Some (chunk, v2)) l chunks.
Proof.
  induction l as [|a l IH]; intros vals ops vals' H; simpl in H.
  - injection H as <- <-. exists []. split; [reflexivity|constructor].
  - apply bind_Some in H as ([ops1 vals1] & H1 & H).
    apply bind_Some in H as ([ops2 vals2] & H2 & H).
    simpl in *. injection H as <- <-.
    destruct (IH _ _ _ H2) as (chunks & -> & HF).
    exists (ops1 :: chunks). split; [reflexivity|].
    constructor; [eauto|exact HF].
Qed.

Lemma emitLoop_Forall {A} (P : SmemOp V -> Prop)
    (f : A -> list (CvtValue V) -> option (list (SmemOp V) * list (CvtValue V)))
    l vals r :
  (forall a v r', f a v = Some r' -> Forall P (fst r')) ->
  emitLoop f l vals = Some r -> Forall P (fst r).
Proof.
  intros Hf H. destruct r as [ops vals'].
  destruct (emitLoop_chunks f l _ _ _ H) as (chunks & -> & HF).
  simpl. apply Forall_concat.
  clear H. induction HF as [|a chunk l chunks (v1 & v2 & Hc) _ IH];
    constructor; [|exact IH].
  apply (Hf _ _ _ Hc).
Qed.

Lemma processElem_kind stNotRd layout rank shapePerCTA vec padded outOrd
    first rep inRep ctaId linearCTAId accum elemId
    (vals : list (CvtValue V)) r :
  processElem stNotRd layout rank shapePerCTA vec padded outOrd first rep
              inRep ctaId linearCTAId accum elemId vals = Some r ->
  Forall (accessKind stNotRd) (fst r).
Proof.
  unfold processElem. intros H.
  apply bind_Some in H as (mde & _ & H).
  apply bind_Some in H as (mdo & _ & H).
  apply bind_Some in H as (ro & _ & H).
  apply bind_Some in H as (rs & _ & H).
  destruct stNotRd.
  - apply bind_Some in H as (valVec & _ & H). injection H as <-.
    repeat constructor.
  - apply bind_Some in H as (vals' & _ & H). injection H as <-.
    repeat constructor.
Qed.

Lemma processReplicaBlocked_kind stNotRd layout shape each rep vec padded
    outOrd (vals : list (CvtValue V)) r :
  processReplicaBlocked stNotRd layout shape each rep vec padded outOrd vals
    = Some r ->
  Forall (accessKind stNotRd) (fst r).
Proof.
  unfold processReplicaBlocked. intros H.
  apply bind_Some in H as (spc & _ & H).
  apply bind_Some in H as (numCTAs & _ & H).
  apply bind_Some in H as (first & _ & H).
  eapply emitLoop_Forall; [|exact H].
  intros ctaId v r' Hc. unfold processCTA in Hc.
  apply bind_Some in Hc as (inRep & _ & Hc).
  apply bind_Some in Hc as (ids & _ & Hc).
  apply bind_Some in Hc as (lin & _ & Hc).
  apply bind_Some in Hc as (elemIds & _ & Hc).
  eapply emitLoop_Forall; [|exact Hc].
  intros elemId v' r'' He. eapply processElem_kind. exact He.
Qed.

Lemma filter_isBarrier_access stNotRd (ops : list (SmemOp V)) :
  Forall (accessKind stNotRd) ops -> filter (fun o => isBarrier o = true) ops = [].
Proof.
  induction 1 as [|o ops Ho _ IH]; [reflexivity|].
  rewrite filter_cons, IH.
  destruct o, stNotRd; simpl in *; try discriminate; reflexivity.
Qed.

Lemma replicationRound_inv shape srcLayout dstLayout plan scratch
    (vals : list (CvtValue V)) repId outVals chunk outVals' :
  replicationRound shape srcLayout dstLayout plan scratch vals repId outVals
    = Some (chunk, outVals') ->
  exists multiDimRepId st ld vals',
    getMultiDimIndex u32 repId (map numReplicates_d plan) = Some multiDimRepId /\
    processReplicaBlocked true srcLayout shape (map inNumCTAsEachRep_d plan)
      multiDimRepId (inVec scratch) (paddedRepShape scratch)
      (order dstLayout) vals = Some (st, vals') /\
    processReplicaBlocked false dstLayout shape (map outNumCTAsEachRep_d plan)
      multiDimRepId (outVec scratch) (paddedRepShape scratch)
      (order dstLayout) outVals = Some (ld, outVals') /\
    chunk = roundOps (st, ld).
Proof.
  unfold replicationRound. intros H.
  apply bind_Some in H as (rep & Hrep & H).
  apply bind_Some in H as ([st vals'] & Hst & H).
  apply bind_Some in H as ([ld out'] & Hld & H).
  simpl in H. injection H as <- <-.
  exists rep, st, ld, vals'. auto.
Qed.

Lemma rounds_of_chunks {A} (Q : A -> list (SmemOp V) * list (SmemOp V) -> Prop)
    (l : list A) (chunks : list (list (SmemOp V))) :
  Forall2 (fun a chunk => exists r, Q a r /\ chunk = roundOps r) l chunks ->
  exists rounds, chunks = roundOps <$> rounds /\ Forall2 Q l rounds.
Proof.
  induction 1 as [|a chunk l chunks (r & Hq & ->) _ (rounds & -> & HF)].
  - exists []. split; [reflexivity|constructor].
  - exists (r :: rounds). split; [reflexivity|]. constructor; assumption.
Qed.

Lemma barriers_of_rounds (rounds : list (list (SmemOp V) * list (SmemOp V))) :
  Forall (fun r => Forall (accessKind true) (fst r) /\
                   Forall (accessKind false) (snd r)) rounds ->
  length (filter (fun o => isBarrier o = true) (concat (roundOps <$> rounds)))
  = (2 * length rounds)%nat.
Proof.
  induction 1 as [|[st ld] rounds [Hst Hld] _ IH]; [reflexivity|].
  rewrite fmap_cons. cbn [concat roundOps fst snd] in *.
  rewrite filter_app, length_app, IH.
  unfold roundOps. cbn [fst snd].
  rewrite filter_cons. cbn [isBarrier]. rewrite decide_True by reflexivity.
  rewrite filter_app, filter_cons. cbn [isBarrier].
  rewrite decide_True by reflexivity.
  rewrite (filter_isBarrier_access true st Hst).
  rewrite (filter_isBarrier_access false ld Hld).
  simpl. lia.
Qed.

(** C4 (as amended): a completed Blocked-to-Blocked conversion emits, for
    the round numbers 0, 1, ... below the product of the replication
    counts, in this order, exactly: one barrier, the stores of the source
    replica of that round, one barrier, the loads of the destination
    replica of that round.  So there are two barriers per round, one before
    the stores and one between stores and loads; the loads of a round are
    followed by the leading barrier of the next round, and nothing is
    emitted after the loads of the last round. *)
Theorem convert_layout_barriers :
  forall (op : ConvertLayoutOp V) ops outVals,
    ConvertLayoutOpConversion getElemsPerThread op = Rewritten (ops, outVals) ->
    exists srcLayout dstLayout plan rounds,
      cvt_srcLayout op = Blocked srcLayout /\
      cvt_dstLayout op = Blocked dstLayout /\
      mapM (replicationPlan (cvt_shape op) srcLayout dstLayout)
           (seqZ 0 (Z.of_nat (length (cvt_shape op)))) = Some plan /\
      length rounds = Z.to_nat (product (map numReplicates_d plan)) /\
      ops = concat (roundOps <$> rounds) /\
      (forall (repId : nat) r, rounds !! repId = Some r ->
         Forall (fun o => isStore o = true) (fst r) /\
         Forall (fun o => isLoad o = true) (snd r) /\
         exists multiDimRepId vals vals' outVals1 outVals2,
           getMultiDimIndex u32 (Z.of_nat repId) (map numReplicates_d plan)
             = Some multiDimRepId /\
           processReplicaBlocked true srcLayout (cvt_shape op)
             (map inNumCTAsEachRep_d plan) multiDimRepId
             (inVec (cvt_scratch op)) (paddedRepShape (cvt_scratch op))
             (order dstLayout) vals = Some (fst r, vals') /\
           processReplicaBlocked false dstLayout (cvt_shape op)
             (map outNumCTAsEachRep_d plan) multiDimRepId
             (outVec (cvt_scratch op)) (paddedRepShape (cvt_scratch op))
             (order dstLayout) outVals1 = Some (snd r, outVals2)) /\
      length (filter (fun o => isBarrier o = true) ops)
        = (2 * length rounds)%nat.
Proof.
  intros op ops outVals H. unfold ConvertLayoutOpConversion in H.
  destruct (cvt_srcLayout op) as [srcLayout| | |] eqn:Es; try discriminate.
  destruct (cvt_dstLayout op) as [dstLayout| | |] eqn:Ed; try discriminate.
  destruct (convertBlocked getElemsPerThread op srcLayout dstLayout)
    as [r|] eqn:Hc; [|discriminate].
  injection H as ->. unfold convertBlocked in Hc.
  apply bind_Some in Hc as (off & _ & Hc).
  apply bind_Some in Hc as (plan & Hplan & Hc).
  apply bind_Some in Hc as (vals & _ & Hc).
  destruct (emitLoop_chunks _ _ _ _ _ Hc) as (chunks & -> & HF).
  destruct (rounds_of_chunks
              (fun repId r =>
                 exists multiDimRepId vals0 vals' outVals1 outVals2,
                   getMultiDimIndex u32 repId (map numReplicates_d plan)
                     = Some multiDimRepId /\
                   processReplicaBlocked true srcLayout (cvt_shape op)
                     (map inNumCTAsEachRep_d plan) multiDimRepId
                     (inVec (cvt_scratch op)) (paddedRepShape (cvt_scratch op))
                     (order dstLayout) vals0 = Some (fst r, vals') /\
                   processReplicaBlocked false dstLayout (cvt_shape op)
                     (map outNumCTAsEachRep_d plan) multiDimRepId
                     (outVec (cvt_scratch op)) (paddedRepShape (cvt_scratch op))
                     (order dstLayout) outVals1 = Some (snd r, outVals2))
              (seqZ 0 (product (map numReplicates_d plan))) chunks)
    as (rounds & -> & HR).
  { eapply Forall2_impl; [exact HF|].
    intros repId chunk (v1 & v2 & Hround).
    destruct (replicationRound_inv _ _ _ _ _ _ _ _ _ _ Hround)
      as (rep & st & ld & vals' & Hrep & Hst & Hld & ->).
    exists (st, ld). split; [|reflexivity].
    exists rep, (FromRecord <$> vals), vals', v1, v2. auto. }
  assert (Hkinds : forall (repId : nat) r, rounds !! repId = Some r ->
            Forall (accessKind true) (fst r) /\
            Forall (accessKind false) (snd r)).
  { intros repId r Hr.
    destruct (Forall2_lookup_r _ _ _ _ _ HR Hr)
      as (a & _ & rep & v0 & v' & o1 & o2 & _ & Hst & Hld).
    split.
    - apply (processReplicaBlocked_kind _ _ _ _ _ _ _ _ _ _ Hst).
    - apply (processReplicaBlocked_kind _ _ _ _ _ _ _ _ _ _ Hld). }
  exists srcLayout, dstLayout, plan, rounds.
  split; [reflexivity|]. split; [reflexivity|]. split; [exact Hplan|].
  split.
  { apply Forall2_length in HR. rewrite length_seqZ in HR. congruence. }
  split; [reflexivity|]. split.
  - intros repId r Hr. destruct (Hkinds repId r Hr) as [Hst Hld].
    split; [exact Hst|]. split; [exact Hld|].
    destruct (Forall2_lookup_r _ _ _ _ _ HR Hr) as (a & Ha & Hq).
    apply lookup_seqZ in Ha as [-> _]. rewrite Z.add_0_l in Hq. exact Hq.
  - apply barriers_of_rounds. apply Forall_lookup. exact Hkinds.
Qed.

(** C9: a conversion whose source layout or destination layout is not a
    Blocked layout stops at the assertion that reports the conversion as
    not implemented; nothing is emitted. *)
Theorem convert_layout_not_blocked :
  forall (op : ConvertLayoutOp V),
    (forall b, cvt_srcLayout op <> Blocked b) \/
    (forall b, cvt_dstLayout op <> Blocked b) ->
    ConvertLayoutOpConversion getElemsPerThread op = Aborted /\
    emittedOps (ConvertLayoutOpConversion getElemsPerThread op) = [].
Proof.
  intros op H.
  assert (Hab : ConvertLayoutOpConversion getElemsPerThread op = Aborted).
  { unfold ConvertLayoutOpConversion.
    destruct (cvt_srcLayout op) as [s| | |] eqn:Es;
      destruct (cvt_dstLayout op) as [d| | |] eqn:Ed; try reflexivity.
    destruct H as [H|H]; [destruct (H s)|destruct (H d)]; reflexivity. }
  rewrite Hab. split; reflexivity.
Qed.

End ConvertLayoutFacts.

Lemma convert_layout_barriers_witness :
  exists rounds : list (list (SmemOp Z) * list (SmemOp Z)),
    length rounds = 1%nat /\
    emittedOps (ConvertLayoutOpConversion blockedElemsPerThread exampleConvert)
      = concat (roundOps <$> rounds) /\
    length (filter (fun o => isBarrier o = true)
              (emittedOps (ConvertLayoutOpConversion blockedElemsPerThread
                                                     exampleConvert)))
      = 2%nat.
Proof.
  destruct (ConvertLayoutOpConversion blockedElemsPerThread exampleConvert)
    as [[ops outVals]| |] eqn:E; try (vm_compute in E; discriminate).
  destruct (convert_layout_barriers Z blockedElemsPerThread exampleConvert
              ops outVals E)
    as (s & d & plan & rounds & Hs & Hd & Hplan & Hlen & Hops & _ & Hbar).
  cbv [exampleConvert cvt_srcLayout cvt_dstLayout] in Hs, Hd.
  injection Hs as <-. injection Hd as <-.
  vm_compute in Hplan. injection Hplan as <-.
  exists rounds. split; [exact Hlen|]. split; [exact Hops|].
  simpl. rewrite Hbar. change (length rounds = 1%nat) in Hlen.
  rewrite Hlen. reflexivity.
Defined.

(** C4 as stated fails in its last clause: the loads of the last round are
    the last operations emitted, no barrier follows them. *)
Lemma no_barrier_after_last_round :
  exists ops outVals o,
    ConvertLayoutOpConversion blockedElemsPerThread exampleConvert
      = Rewritten (ops, outVals) /\
    last ops = Some o /\ isLoad o = true /\
    ~ (forall (i : nat) a, ops !! i = Some a -> isBarrier a = false ->
         exists j : nat, (i < j)%nat /\ ops !! j = Some Barrier).
Proof.
  destruct (ConvertLayoutOpConversion blockedElemsPerThread exampleConvert)
    as [[ops outVals]| |] eqn:E; try (vm_compute in E; discriminate).
  vm_compute in E. injection E as <- <-.
  eexists _, _, _. split; [reflexivity|]. split; [reflexivity|].
  split; [reflexivity|].
  intros H. destruct (H 6%nat _ eq_refl eq_refl) as (j & Hj & Hb).
  do 7 (destruct j as [|j]; [lia|]). simpl in Hb. discriminate.
Qed.

Lemma convert_layout_not_blocked_witness :
  ConvertLayoutOpConversion blockedElemsPerThread exampleConvertToShared
    = Aborted /\
  emittedOps (ConvertLayoutOpConversion blockedElemsPerThread
                                        exampleConvertToShared) = [].
Proof.
  apply (convert_layout_not_blocked Z blockedElemsPerThread
           exampleConvertToShared).
  right. intros b. discriminate.
Defined.

(** ** Broadcast *)

Lemma ceil_bounds m n : 1 <= m -> 1 <= n -> 1 <= ceil m n <= m.
Proof.
  intros Hm Hn. unfold ceil. split.
  - apply Z.div_le_lower_bound; lia.
  - apply Z.div_le_upper_bound; [lia|]. nia.
Qed.


Lemma set_at_Some {A} (l : list A) i x l' :
  set_at l i x = Some l' ->
  0 <= i < Z.of_nat (length l) /\ l' = <[Z.to_nat i := x]> l.
Proof.
  unfold set_at. destruct (Z.leb_spec 0 i); [|discriminate].
  destruct (Z.ltb_spec i (Z.of_nat (length l))); [|discriminate].
  simpl. intros [= <-]. split; [lia|reflexivity].
Qed.

Lemma set_at_in_range {A} (l : list A) i x :
  0 <= i < Z.of_nat (length l) -> set_at l i x = Some (<[Z.to_nat i := x]> l).
Proof.
  intros H. unfold set_at. destruct (Z.leb_spec 0 i); [|lia].
  destruct (Z.ltb_spec i (Z.of_nat (length l))); [|lia]. reflexivity.
Qed.

Lemma at_insert_eq {A} (l : list A) i x :
  0 <= i < Z.of_nat (length l) -> at_ (<[Z.to_nat i := x]> l) i = Some x.
Proof.
  intros H. unfold at_. destruct (Z.ltb_spec i 0); [lia|].
  apply list_lookup_insert_eq. lia.
Qed.

Lemma at_insert_ne {A} (l : list A) i j x :
  0 <= i -> i <> j -> at_ (<[Z.to_nat i := x]> l) j = at_ l j.
Proof.
  intros Hi Hne. unfold at_. destruct (Z.ltb_spec j 0); [reflexivity|].
  apply list_lookup_insert_ne. lia.
Qed.

(** A loop of subscripted assignments: every slot that is assigned, and
    only ever with one value, holds that value in the end; the others are
    untouched. *)
Lemma fold_writes {P A} (stepf : option (list A) -> P -> option (list A))
    (key : P -> Z) (val : P -> A) (ps : list P) : forall arr,
  (forall p a, p ∈ ps -> stepf (Some a) p = set_at a (key p) (val p)) ->
  Forall (fun p => 0 <= key p < Z.of_nat (length arr)) ps ->
  exists arr',
    fold_left stepf ps (Some arr) = Some arr' /\
    length arr' = length arr /\
    (forall n, (forall p, p ∈ ps -> key p <> n) -> at_ arr' n = at_ arr n) /\
    (forall n x, (exists p, p ∈ ps /\ key p = n) ->
                 (forall p, p ∈ ps -> key p = n -> val p = x) ->
                 at_ arr' n = Some x).
Proof.
  induction ps as [|p ps IH]; intros arr Hstep Hrange.
  - exists arr. split; [reflexivity|]. split; [reflexivity|].
    split; [reflexivity|].
    intros n x (p & Hp & _). inversion Hp.
  - inversion Hrange as [|? ? Hp Hps]; subst.
    cbn [fold_left]. rewrite Hstep by apply list_elem_of_here.
    rewrite set_at_in_range by exact Hp.
    destruct (IH (<[Z.to_nat (key p) := val p]> arr)) as (arr' & Hf & Hl & Hother & Hsame).
    { intros q a Hq. apply Hstep. now apply list_elem_of_further. }
    { rewrite length_insert. exact Hps. }
    exists arr'. split; [exact Hf|]. rewrite length_insert in Hl.
    split; [exact Hl|]. split.
    + intros n Hn. rewrite Hother.
      * apply at_insert_ne; [lia|]. apply Hn, list_elem_of_here.
      * intros q Hq. apply Hn. now apply list_elem_of_further.
    + intros n x (q & Hq & Hk) Hall.
      destruct (decide (Exists (fun q' => key q' = n) ps)) as [Hex|Hnex].
      * apply Exists_exists in Hex as (q' & Hq' & Hk').
        apply Hsame; [eauto|].
        intros r Hr. apply Hall. now apply list_elem_of_further.
      * rewrite Hother.
        -- apply elem_of_cons in Hq as [->|Hq].
           ++ rewrite <- (Hall p (list_elem_of_here _ _) Hk), <- Hk.
              apply at_insert_eq. exact Hp.
           ++ exfalso. apply Hnex. apply Exists_exists. eauto.
        -- intros r Hr Hkr. apply Hnex. apply Exists_exists. eauto.
Qed.


Lemma at_0 {A} (x : A) l : at_ (x :: l) 0 = Some x.
Proof. reflexivity. Qed.

Lemma at_1 {A} (x y : A) l : at_ (x :: y :: l) 1 = Some y.
Proof. reflexivity. Qed.

Lemma at_2 {A} (x y z : A) l : at_ (x :: y :: z :: l) 2 = Some z.
Proof. reflexivity. Qed.

Lemma at_3 {A} (x y z w : A) l : at_ (x :: y :: z :: w :: l) 3 = Some w.
Proof. reflexivity. Qed.

Lemma set_at_1_of_4 {A} (a b c d x : A) :
  set_at [a; b; c; d] 1 x = Some [a; x; c; d].
Proof. reflexivity. Qed.

Lemma set_at_3_of_4 {A} (a b c d x : A) :
  set_at [a; b; c; d] 3 x = Some [a; b; c; x].
Proof. reflexivity. Qed.

Create Rewrite HintDb subscripts.

#[local] Hint Rewrite @at_0 @at_1 @at_2 @at_3 @set_at_1_of_4 @set_at_3_of_4
  : subscripts.

Ltac subscripts :=
  repeat (autorewrite with subscripts; cbn [mbind option_bind]).





Lemma mapM_at {A B} (f : A -> option B) l k n a :
  mapM f l = Some k -> at_ l n = Some a ->
  exists b, at_ k n = Some b /\ f a = Some b.
Proof.
  intros H Ha. apply mapM_Some_1 in H. unfold at_ in *.
  destruct (n <? 0); [discriminate|].
  destruct (Forall2_lookup_l _ _ _ _ _ H Ha) as (b & Hb & Hf). eauto.
Qed.

(** *** Broadcasting [256, 1] to [256, 4] under one two-dimensional layout *)

Section BroadcastRows.

Variable V : Type.
Variables spt0 spt1 tpw0 tpw1 wpc0 wpc1 : Z.
Variable ord : list Z.
Variable src : list V.

Hypothesis spt0_pos : 0 < spt0.
Hypothesis spt1_pos : 0 < spt1.
Hypothesis tpw0_pos : 0 < tpw0.
Hypothesis tpw1_pos : 0 < tpw1.
Hypothesis wpc0_pos : 0 < wpc0.
Hypothesis wpc1_pos : 0 < wpc1.
Hypothesis period0_fits : spt0 * tpw0 * wpc0 < 2 ^ 20.
Hypothesis period1_fits : spt1 * tpw1 * wpc1 < 2 ^ 20.
Hypothesis tile_fits : spt0 * spt1 < 2 ^ 20.

Let layout : BlockedEncodingAttr :=
  {| sizePerThread := [spt0; spt1]; threadsPerWarp := [tpw0; tpw1];
     warpsPerCTA := [wpc0; wpc1]; order := ord |}.

(** The tile counts of the result along the two dimensions. *)
Let B0 : Z := ceil 256 (spt0 * tpw0 * wpc0).
Let B1 : Z := ceil 4 (spt1 * tpw1 * wpc1).

Let srcLogical : list Z := [B0; 1; spt0; spt1].
Let resultLogical : list Z := [B0; B1; spt0; spt1].

Hypothesis src_long_enough : B0 * spt0 * spt1 <= Z.of_nat (length src).












Let op : BroadcastOp V :=
  {| bc_srcShape := [256; 1]; bc_resultShape := [256; 4];
     bc_srcLayout := Blocked layout; bc_resultLayout := Blocked layout;
     bc_src := src |}.

Let target : Z -> Z -> option Z :=
  resultLinearIndexOf 2 srcLogical resultLogical [1] [B1; 1].



(** **** The coordinates of the slots

    The index enumeration of the layout over a shape [256, s1]. *)











End BroadcastRows.


(** * Further properties of the lowering *)

(** ** Compile-time index conversion beyond the round trip *)

(** X1: [getLinearIndex] followed by [getMultiDimIndex] is the identity on
    the multi-indices of a shape: for coordinates within the extents of a
    shape of fewer than 2^32 elements, the linear index is below the number
    of elements and converts back to the same coordinates. *)
Theorem getMultiDimIndex_of_getLinearIndex (md shape : list Z) :
  Forall2 (fun m d => 0 <= m < d) md shape ->
  prodZ shape < 2 ^ 32 ->
  exists i,
    getLinearIndex u32 md shape = Some i /\
    0 <= i < prodZ shape /\
    getMultiDimIndex u32 i shape = Some md.
Proof.
  intros HF HM. exists (linZ md shape).
  split; [exact (getLinearIndex_linZ u32 (2 ^ 32) u32_small md shape HF HM)|].
  split; [exact (linZ_range md shape HF)|].
  exact (getMultiDimIndex_linZ u32 (2 ^ 32) u32_small md shape HF HM).
Qed.

Lemma getMultiDimIndex_of_getLinearIndex_witness :
  exists i,
    getLinearIndex u32 [1; 0; 2] [2; 2; 3] = Some i /\
    0 <= i < prodZ [2; 2; 3] /\
    getMultiDimIndex u32 i [2; 2; 3] = Some [1; 0; 2].
Proof.
  apply (getMultiDimIndex_of_getLinearIndex [1; 0; 2] [2; 2; 3]).
  - repeat constructor; lia.
  - vm_compute. reflexivity.
Defined.

Lemma acc_mul_init_tail s0 tl :
  Forall (fun s => 0 < s) tl -> prodZ tl < 2 ^ 32 ->
  acc_mul_init u32 (s0 :: tl) = prodZ tl.
Proof.
  intros Hpos Hlt. unfold acc_mul_init. simpl tail.
  rewrite (fold_wrap_prodZ u32 (2 ^ 32) u32_small); [lia|assumption|lia|lia].
Qed.

(** X2: the first extent of the shape is never read and the linear index is
    not checked against the number of elements: for every index below 2^32
    the first coordinate is the index divided by the number of elements of
    the trailing dimensions, the other coordinates are within their
    extents, and [getLinearIndex] gives the index back. *)
Theorem getMultiDimIndex_overflows_into_first (s0 : Z) (tl : list Z) (i : Z) :
  Forall (fun s => 0 < s) tl ->
  prodZ tl < 2 ^ 32 ->
  0 <= i < 2 ^ 32 ->
  exists md,
    getMultiDimIndex u32 i (s0 :: tl) = Some (i / prodZ tl :: md) /\
    Forall2 (fun m d => 0 <= m < d) md tl /\
    getLinearIndex u32 (i / prodZ tl :: md) (s0 :: tl) = Some i.
Proof.
  intros Hpos HM Hi.
  pose proof (prodZ_pos tl Hpos) as Hp.
  assert (Hr : 0 <= i mod prodZ tl < prodZ tl) by (apply Z.mod_pos_bound; lia).
  assert (Hq : 0 <= i / prodZ tl) by (apply Z.div_pos; lia).
  assert (Hsplit : i = i / prodZ tl * prodZ tl + i mod prodZ tl).
  { rewrite (Z.div_mod i (prodZ tl)) at 1 by lia. lia. }
  destruct (getMultiDimIndex_loop_spec u32 (2 ^ 32) u32_small tl
              (i mod prodZ tl) Hpos Hr) as (md & Hmd & HF & Hlin).
  exists md. unfold getMultiDimIndex, getLinearIndex.
  rewrite acc_mul_init_tail by assumption.
  cbn [getMultiDimIndex_loop getLinearIndex_loop].
  rewrite divT_pos, remT_pos by lia.
  rewrite (acc_mul_next_prodZ tl Hpos).
  cbn [mbind option_bind]. rewrite Hmd. cbn [mbind option_bind].
  split; [reflexivity|]. split; [exact HF|].
  rewrite (u32_small (i / prodZ tl * prodZ tl)) by nia.
  rewrite u32_small by nia.
  rewrite Hlin by nia. f_equal. lia.
Qed.

Lemma getMultiDimIndex_overflows_into_first_witness :
  exists md,
    getMultiDimIndex u32 29 [2; 2; 3] = Some (29 / prodZ [2; 3] :: md) /\
    Forall2 (fun m d => 0 <= m < d) md [2; 3] /\
    getLinearIndex u32 (29 / prodZ [2; 3] :: md) [2; 2; 3] = Some 29.
Proof.
  apply (getMultiDimIndex_overflows_into_first 2 [2; 3] 29).
  - repeat constructor; lia.
  - vm_compute. reflexivity.
  - lia.
Defined.

Lemma acc_mul_zero l : forall acc,
  In 0 l -> fold_left (fun a s => u32 (a * s)) l acc = 0.
Proof.
  assert (Hz : forall l, fold_left (fun a s => u32 (a * s)) l 0 = 0).
  { intros l'. induction l' as [|s l' IH]; simpl; [reflexivity|exact IH]. }
  induction l as [|s l IH]; intros acc Hin; simpl in *; [contradiction|].
  destruct Hin as [->|Hin].
  - rewrite Z.mul_0_r. change (u32 0) with 0. apply Hz.
  - apply IH. exact Hin.
Qed.

Lemma getLinearIndex_loop_zero dims : forall md lin,
  In 0 (tail dims) -> getLinearIndex_loop u32 md dims 0 lin = None.
Proof.
  induction dims as [|d rest IH]; intros md lin Hin; [contradiction|].
  simpl in Hin. destruct md as [|m ms]; [reflexivity|].
  cbn [getLinearIndex_loop]. destruct rest as [|s rest']; [contradiction|].
  cbn [acc_mul_next]. unfold divT.
  destruct (Z.eqb_spec s 0) as [->|Hs]; [reflexivity|].
  cbn [mbind option_bind]. rewrite Z.quot_0_l by exact Hs.
  apply IH. simpl. destruct Hin as [E|Hin]; [congruence|exact Hin].
Qed.

(** X3: an extent of zero after the first dimension leaves both
    conversions without a result, whatever the index or the coordinates:
    [getMultiDimIndex] divides by the running product, which is zero, and
    [getLinearIndex] divides by the zero extent, unless it has been given
    the wrong number of coordinates and stops at its assertion. *)
Theorem index_conversion_zero_extent (shape md : list Z) (i : Z) :
  In 0 (tail shape) ->
  getMultiDimIndex u32 i shape = None /\
  getLinearIndex u32 md shape = None.
Proof.
  intros Hin.
  assert (Hacc : acc_mul_init u32 shape = 0)
    by (unfold acc_mul_init; apply acc_mul_zero; exact Hin).
  unfold getMultiDimIndex, getLinearIndex. rewrite Hacc. split.
  - destruct shape as [|d rest]; [contradiction|]. reflexivity.
  - apply getLinearIndex_loop_zero. exact Hin.
Qed.

Lemma index_conversion_zero_extent_witness :
  getMultiDimIndex u32 0 [4; 0; 2] = None /\
  getLinearIndex u32 [0; 0; 0] [4; 0; 2] = None.
Proof.
  apply (index_conversion_zero_extent [4; 0; 2] [0; 0; 0] 0).
  simpl. auto.
Defined.

Lemma getLinearIndex_loop_mismatch (wrap : Z -> Z) md : forall dims acc lin,
  length md <> length dims ->
  getLinearIndex_loop wrap md dims acc lin = None.
Proof.
  induction md as [|m ms IH]; intros dims acc lin Hlen.
  - destruct dims; [simpl in Hlen; congruence|reflexivity].
  - destruct dims as [|d rest]; [reflexivity|].
    cbn [getLinearIndex_loop].
    destruct (acc_mul_next acc rest) as [acc'|]; [|reflexivity].
    cbn [mbind option_bind]. apply IH. simpl in Hlen. congruence.
Qed.

(** X4: [getLinearIndex] stops at its assertion when the number of
    coordinates differs from the rank of the shape, in either integer
    type. *)
Theorem getLinearIndex_rank_mismatch (wrap : Z -> Z) (md shape : list Z) :
  length md <> length shape ->
  getLinearIndex wrap md shape = None.
Proof.
  intros Hlen. unfold getLinearIndex.
  apply getLinearIndex_loop_mismatch. exact Hlen.
Qed.

Lemma getLinearIndex_rank_mismatch_witness :
  getLinearIndex u32 [1; 2] [4; 4; 4] = None.
Proof.
  apply (getLinearIndex_rank_mismatch u32 [1; 2] [4; 4; 4]).
  simpl. lia.
Defined.

(** ** Emitted index conversion: coordinates and the converse round trip *)

Lemma prodZ_app l1 l2 : prodZ (l1 ++ l2) = prodZ l1 * prodZ l2.
Proof. induction l1 as [|a l1 IH]; simpl; [lia|]. rewrite IH. lia. Qed.

Lemma linZ_app md1 dims1 : forall md2 dims2,
  length md1 = length dims1 ->
  linZ (md1 ++ md2) (dims1 ++ dims2)
  = linZ md1 dims1 * prodZ dims2 + linZ md2 dims2.
Proof.
  revert dims1. induction md1 as [|m md1 IH]; intros dims1 md2 dims2 Hlen.
  - destruct dims1; [simpl; lia|discriminate].
  - destruct dims1 as [|d dims1]; [discriminate|]. simpl in *.
    rewrite IH by lia. rewrite prodZ_app. lia.
Qed.

Lemma mapM_eval_app tid l1 l2 v1 v2 :
  mapM (eval tid) l1 = Some v1 -> mapM (eval tid) l2 = Some v2 ->
  mapM (eval tid) (l1 ++ l2) = Some (v1 ++ v2).
Proof.
  intros H1 H2. apply mapM_Some. apply mapM_Some_1 in H1, H2.
  apply Forall2_app; assumption.
Qed.

(** The remainders collected by the loop of [delinearize] are the digits of
    the linear index in the mixed radix of the dimensions it runs over, and
    what remains is the quotient. *)
Lemma delinearize_fold_radix tid dims : forall linear x,
  Forall (fun s => 0 < s < 2 ^ 32) dims ->
  eval tid linear = Some x ->
  exists vals,
    mapM (eval tid) (fst (fold_left delinearize_step (rev dims) ([], linear)))
      = Some vals /\
    Forall2 (fun m d => 0 <= m < d) vals dims /\
    eval tid (snd (fold_left delinearize_step (rev dims) ([], linear)))
      = Some (x / prodZ dims) /\
    x = x / prodZ dims * prodZ dims + linZ vals dims.
Proof.
  induction dims as [|s dims IH] using rev_ind; intros linear x Hdims Hx.
  - exists []. simpl. rewrite Z.div_1_r. repeat split; [constructor|exact Hx|lia].
  - apply Forall_app in Hdims as [Hdims Hs].
    inversion Hs as [|? ? Hs' _]; subst.
    pose proof (eval_range _ _ _ Hx) as Hxr.
    rewrite rev_unit. cbn [fold_left delinearize_step].
    rewrite delinearize_fold_acc. cbn [fst snd].
    assert (Hdiv : eval tid (UDiv linear (IndexConst s)) = Some (x / s)).
    { simpl. rewrite Hx. simpl. rewrite u32_small by lia.
      destruct (Z.eqb_spec s 0); [lia|reflexivity]. }
    assert (Hrem : eval tid (URem linear (IndexConst s)) = Some (x mod s)).
    { simpl. rewrite Hx. simpl. rewrite u32_small by lia.
      destruct (Z.eqb_spec s 0); [lia|reflexivity]. }
    destruct (IH _ _ Hdims Hdiv) as (vals & Hvals & HF & Hq & Hsplit).
    assert (Hp : 0 < prodZ dims).
    { apply prodZ_pos. eapply Forall_impl; [exact Hdims|]. simpl. intros; lia. }
    assert (Hm : 0 <= x mod s < s) by (apply Z.mod_pos_bound; lia).
    exists (vals ++ [x mod s]).
    split; [apply mapM_eval_app; [exact Hvals|];
            apply mapM_Some; repeat constructor; exact Hrem|].
    split; [apply Forall2_app; [exact HF|]; repeat constructor; lia|].
    rewrite prodZ_app. simpl prodZ. rewrite Z.mul_1_r.
    assert (Hdd : x / s / prodZ dims = x / (prodZ dims * s)).
    { rewrite Z.div_div by lia. f_equal. lia. }
    split; [rewrite Hq, Hdd; reflexivity|].
    rewrite linZ_app by (apply Forall2_length in HF; exact HF).
    simpl linZ. simpl prodZ. rewrite <- Hdd.
    pose proof (Z.div_mod x s ltac:(lia)). nia.
Qed.

Lemma delinearize_digits (tid : Z) (linear : Value) (shape : list Z) (x : Z) :
  shape <> [] ->
  Forall (fun s => 0 < s < 2 ^ 32) (tail shape) ->
  eval tid linear = Some x ->
  exists multiDim vals,
    delinearize linear shape = Some multiDim /\
    mapM (eval tid) multiDim = Some (x / prodZ (tail shape) :: vals) /\
    Forall2 (fun m d => 0 <= m < d) vals (tail shape) /\
    linZ (x / prodZ (tail shape) :: vals) shape = x.
Proof.
  intros Hne Htl Hx. destruct shape as [|d tl]; [congruence|].
  simpl tail in *. destruct tl as [|s tl'].
  - exists [linear], []. simpl. rewrite Hx, Z.div_1_r. simpl.
    repeat split; [constructor|lia].
  - destruct (delinearize_fold_radix tid (s :: tl') linear x Htl Hx)
      as (vals & Hvals & HF & Hq & Hsplit).
    unfold delinearize.
    destruct (fold_left delinearize_step (rev (s :: tl')) ([], linear))
      as [multiDim remained] eqn:E.
    cbn [fst snd] in *. exists (remained :: multiDim), vals.
    split; [reflexivity|].
    split; [simpl; rewrite Hq; simpl; rewrite Hvals; reflexivity|].
    split; [exact HF|].
    cbn [linZ]. lia.
Qed.

(** X5: [delinearize] emits the mixed-radix digits of the linear index:
    on every lane its components evaluate, those after the first are below
    their extents, and weighting them row-major gives the linear index back
    as a number; the first component is the quotient by the number of
    elements of the trailing dimensions, whatever the first extent. *)
Theorem delinearize_mixed_radix (tid : Z) (linear : Value) (shape : list Z) (x : Z) :
  shape <> [] ->
  Forall (fun s => 0 < s < 2 ^ 32) (tail shape) ->
  eval tid linear = Some x ->
  exists multiDim vals,
    delinearize linear shape = Some multiDim /\
    mapM (eval tid) multiDim = Some (x / prodZ (tail shape) :: vals) /\
    Forall2 (fun m d => 0 <= m < d) vals (tail shape) /\
    linZ (x / prodZ (tail shape) :: vals) shape = x.
Proof. exact (delinearize_digits tid linear shape x). Qed.

Lemma delinearize_mixed_radix_witness :
  exists multiDim vals,
    delinearize ThreadIdX [2; 2; 3] = Some multiDim /\
    mapM (eval 11) multiDim = Some (11 / prodZ [2; 3] :: vals) /\
    Forall2 (fun m d => 0 <= m < d) vals [2; 3] /\
    linZ (11 / prodZ [2; 3] :: vals) [2; 2; 3] = 11.
Proof.
  apply (delinearize_mixed_radix 11 ThreadIdX [2; 2; 3] 11).
  - discriminate.
  - repeat constructor; lia.
  - reflexivity.
Defined.

Lemma prodZ_bound_each l b :
  Forall (fun s => 0 < s) l -> prodZ l < b -> Forall (fun s => 0 < s < b) l.
Proof.
  induction 1 as [|s l Hs Hl IH]; intros Hb; constructor.
  - change (prodZ (s :: l)) with (s * prodZ l) in Hb.
    pose proof (prodZ_pos l Hl). nia.
  - apply IH. change (prodZ (s :: l)) with (s * prodZ l) in Hb.
    pose proof (prodZ_pos l Hl). nia.
Qed.

(** Horner's rule of [linearize] computes the row-major number of the
    coordinates as long as it stays representable. *)
Lemma horner_eval tid : forall rest vs dims front v0,
  mapM (eval tid) rest = Some vs ->
  Forall2 (fun m d => 0 <= m < d) vs dims ->
  Forall (fun s => 0 < s < 2 ^ 32) dims ->
  eval tid front = Some v0 ->
  0 <= v0 -> v0 * prodZ dims + linZ vs dims < 2 ^ 32 ->
  eval tid (fold_left horner_step (zip rest dims) front)
  = Some (v0 * prodZ dims + linZ vs dims).
Proof.
  induction rest as [|r rest IH]; intros vs dims front v0 Hvs HF Hb Hf Hv0 Hlt.
  - simpl in Hvs. injection Hvs as <-. inversion HF; subst. simpl.
    rewrite Hf. f_equal. lia.
  - simpl in Hvs.
    destruct (eval tid r) as [vr|] eqn:Er; [|discriminate]. simpl in Hvs.
    destruct (mapM (eval tid) rest) as [vs'|] eqn:Ers; [|discriminate].
    simpl in Hvs. injection Hvs as <-.
    inversion HF as [|? d ? dims' Hvr HF']; subst.
    pose proof (linZ_range _ _ HF') as Hr.
    pose proof (prodZ_pos dims' (Forall2_range_pos _ _ HF')) as Hp.
    cbn [zip_with fold_left]. cbn [linZ] in Hlt.
    change (prodZ (d :: dims')) with (d * prodZ dims') in Hlt |- *.
    inversion Hb as [|? ? Hd Hb']; subst.
    assert (H1 : 0 <= v0 * d) by nia.
    assert (H2 : (v0 * d + vr) * 1 <= (v0 * d + vr) * prodZ dims')
      by (apply Z.mul_le_mono_nonneg_l; lia).
    assert (H3 : (v0 * d + vr) * prodZ dims' + linZ vs' dims' < 2 ^ 32) by lia.
    rewrite (IH vs' dims' _ (v0 * d + vr)); try assumption; try reflexivity.
    + f_equal. cbn [linZ]. lia.
    + unfold horner_step. cbn [eval fst snd]. rewrite Hf, Er. simpl.
      rewrite (u32_small d) by lia. rewrite (u32_small (v0 * d)) by lia.
      rewrite u32_small by lia. reflexivity.
    + lia.
Qed.

(** X6: the converse round trip of the emitted conversion: for coordinates
    that evaluate within the extents of a shape of fewer than 2^32
    elements, the value emitted by [linearize] evaluates to their row-major
    number, and delinearizing it gives values that evaluate to the same
    coordinates. *)
Theorem delinearize_linearize (tid : Z) (multiDim : list Value)
    (vals shape : list Z) :
  shape <> [] ->
  mapM (eval tid) multiDim = Some vals ->
  Forall2 (fun m d => 0 <= m < d) vals shape ->
  prodZ shape < 2 ^ 32 ->
  eval tid (linearize multiDim shape) = Some (linZ vals shape) /\
  exists multiDim',
    delinearize (linearize multiDim shape) shape = Some multiDim' /\
    mapM (eval tid) multiDim' = Some vals.
Proof.
  intros Hne Hvals HF HM.
  destruct shape as [|d tl]; [congruence|].
  inversion HF as [|v0 ? vs ? Hv0 HFtl]; subst.
  destruct multiDim as [|front rest]; [discriminate|].
  simpl in Hvals.
  destruct (eval tid front) as [v0'|] eqn:Ef; [|discriminate]. simpl in Hvals.
  destruct (mapM (eval tid) rest) as [vs'|] eqn:Ers; [|discriminate].
  simpl in Hvals. injection Hvals as -> ->.
  pose proof (linZ_range _ _ HFtl) as Hr.
  pose proof (Forall2_range_pos _ _ HFtl) as Hpos.
  pose proof (prodZ_pos tl Hpos) as Hp.
  change (prodZ (d :: tl)) with (d * prodZ tl) in HM.
  assert (Hb : prodZ tl < 2 ^ 32) by nia.
  assert (Htl : Forall (fun s => 0 < s < 2 ^ 32) tl)
    by (apply prodZ_bound_each; assumption).
  assert (Hlin : eval tid (linearize (front :: rest) (d :: tl))
                 = Some (v0 * prodZ tl + linZ vs tl)).
  { rewrite linearize_horner. simpl tail.
    apply horner_eval; try assumption; [lia|nia]. }
  destruct (delinearize_digits tid _ (d :: tl) _ Hne Htl Hlin)
    as (multiDim' & vals' & Hmd & Hev & HF' & Hsum).
  simpl tail in *. split; [exact Hlin|].
  exists multiDim'. split; [exact Hmd|].
  rewrite Hev.
  assert (Hq : (v0 * prodZ tl + linZ vs tl) / prodZ tl = v0).
  { rewrite Z.add_comm, Z.div_add by lia. rewrite Z.div_small by lia. lia. }
  rewrite Hq in *. cbn [linZ] in Hsum.
  assert (E : vals' = vs).
  { apply (linZ_inj vals' vs tl); [assumption|assumption|lia]. }
  rewrite E. reflexivity.
Qed.

Lemma delinearize_linearize_witness :
  eval 0 (linearize [IndexConst 1; IndexConst 0; IndexConst 2] [2; 2; 3])
  = Some 8 /\
  exists multiDim',
    delinearize (linearize [IndexConst 1; IndexConst 0; IndexConst 2] [2; 2; 3])
                [2; 2; 3] = Some multiDim' /\
    mapM (eval 0) multiDim' = Some [1; 0; 2].
Proof.
  apply (delinearize_linearize 0 [IndexConst 1; IndexConst 0; IndexConst 2]
           [1; 0; 2] [2; 2; 3]).
  - discriminate.
  - reflexivity.
  - repeat constructor; lia.
  - vm_compute. reflexivity.
Defined.

(** ** Delinearization under an order of the dimensions *)

Lemma delinearize_order_lookup (linear : Value) (shape ord : list Z) :
  shape <> [] ->
  length ord = length shape ->
  Forall (fun o => 0 <= o < Z.of_nat (length shape)) ord ->
  NoDup ord ->
  exists reordered reorderedMultiDim multiDim,
    mapM (at_ shape) ord = Some reordered /\
    delinearize linear reordered = Some reorderedMultiDim /\
    delinearize_order linear shape ord = Some multiDim /\
    length multiDim = length shape /\
    forall (i : nat) o, ord !! i = Some o ->
      exists v, reorderedMultiDim !! i = Some v /\ at_ multiDim o = Some v.
Proof.
  intros Hne Hlen Hord Hnd. unfold delinearize_order.
  rewrite Hlen, Nat.eqb_refl. simpl.
  destruct (mapM_is_Some_2 (at_ shape) ord) as [reordered Hre].
  { eapply Forall_impl; [exact Hord|]. intros o Ho. simpl.
    destruct (at_lt shape o Ho) as [x ->]. eauto. }
  rewrite Hre. simpl.
  pose proof (length_mapM _ _ _ Hre) as Hlre.
  destruct (delinearize_total linear reordered) as (rmd & Hrmd & Hlrmd).
  { intros ->. destruct shape; [congruence|]. simpl in *. lia. }
  rewrite Hrmd. simpl.
  destruct (fold_writes unpermute_step fst snd (zip ord rmd)
              (replicate (length shape) Null))
    as (md & Hmd & Hlmd & _ & Hset).
  { intros p a _. reflexivity. }
  { rewrite length_replicate. apply Forall_forall. intros [o v] Hin.
    apply elem_of_zip_l in Hin. simpl.
    rewrite Forall_forall in Hord. apply Hord. exact Hin. }
  rewrite length_replicate in Hlmd.
  exists reordered, rmd, md. repeat split; try assumption.
  intros i o Hi.
  destruct (lookup_lt_is_Some_2 rmd i) as [v Hv].
  { apply lookup_lt_Some in Hi. lia. }
  exists v. split; [exact Hv|]. apply Hset.
  - exists (o, v). split; [|reflexivity].
    apply list_elem_of_lookup. exists i.
    apply lookup_zip_with_Some. eauto.
  - intros [o' v'] Hin Ho'. simpl in *. subst o'.
    apply list_elem_of_lookup in Hin as [j Hj].
    apply lookup_zip_with_Some in Hj as (x & y & E & Hx & Hy).
    injection E as <- <-.
    assert (j = i) by (eapply NoDup_lookup; eauto). subst j. congruence.
Qed.

(** X7: under an order that names every dimension once,
    [delinearize(linear, shape, order)] delinearizes over the shape taken
    in that order and stores component [i] at position [order[i]]; no
    component is lost or overwritten. *)
Theorem delinearize_order_permutes (linear : Value) (shape ord : list Z) :
  shape <> [] ->
  length ord = length shape ->
  Forall (fun o => 0 <= o < Z.of_nat (length shape)) ord ->
  NoDup ord ->
  exists reordered reorderedMultiDim multiDim,
    mapM (at_ shape) ord = Some reordered /\
    delinearize linear reordered = Some reorderedMultiDim /\
    delinearize_order linear shape ord = Some multiDim /\
    length multiDim = length shape /\
    forall (i : nat) o, ord !! i = Some o ->
      exists v, reorderedMultiDim !! i = Some v /\ at_ multiDim o = Some v.
Proof. exact (delinearize_order_lookup linear shape ord). Qed.

Lemma delinearize_order_permutes_witness :
  exists reordered reorderedMultiDim multiDim,
    mapM (at_ [4; 8]) [1; 0] = Some reordered /\
    delinearize ThreadIdX reordered = Some reorderedMultiDim /\
    delinearize_order ThreadIdX [4; 8] [1; 0] = Some multiDim /\
    length multiDim = 2%nat /\
    forall (i : nat) o, [1; 0] !! i = Some o ->
      exists v, reorderedMultiDim !! i = Some v /\ at_ multiDim o = Some v.
Proof.
  apply (delinearize_order_permutes ThreadIdX [4; 8] [1; 0]).
  - discriminate.
  - reflexivity.
  - repeat constructor; simpl; lia.
  - apply (bool_decide_eq_true_1 (NoDup [1; 0])). vm_compute. reflexivity.
Defined.

Lemma delinearize_last_component (linear : Value) (d s : Z) (mid : list Z)
    (multiDim : list Value) :
  delinearize linear (d :: mid ++ [s]) = Some multiDim ->
  last multiDim = Some (URem linear (IndexConst s)).
Proof.
  unfold delinearize.
  assert (E : exists a l, mid ++ [s] = a :: l).
  { destruct mid; simpl; eauto. }
  destruct E as (a & l & E). rewrite E. rewrite <- E. clear E a l.
  rewrite rev_unit. cbn [fold_left delinearize_step].
  rewrite delinearize_fold_acc. cbn [fst snd].
  intros H. injection H as <-.
  rewrite app_comm_cons. apply last_snoc.
Qed.

(** X8: the last dimension named by the order varies fastest: for a rank
    of at least two the component stored at position [order[rank - 1]] is
    the remainder of the linear value by the extent of that dimension. *)
Theorem delinearize_order_fastest (linear : Value) (shape ord : list Z)
    (front : list Z) (o s : Z) :
  length ord = length shape ->
  Forall (fun o => 0 <= o < Z.of_nat (length shape)) ord ->
  NoDup ord ->
  ord = front ++ [o] -> front <> [] ->
  at_ shape o = Some s ->
  exists multiDim,
    delinearize_order linear shape ord = Some multiDim /\
    at_ multiDim o = Some (URem linear (IndexConst s)).
Proof.
  intros Hlen Hord Hnd Eord Hfront Hs.
  assert (Hne : shape <> []).
  { intros ->. subst ord. rewrite length_app in Hlen. simpl in Hlen. lia. }
  destruct (delinearize_order_lookup linear shape ord Hne Hlen Hord Hnd)
    as (reordered & rmd & md & Hre & Hrmd & Hmd & Hlmd & Hat).
  exists md. split; [exact Hmd|].
  assert (Hi : ord !! length front = Some o).
  { subst ord. rewrite lookup_app_r by lia. now rewrite Nat.sub_diag. }
  destruct (Hat _ _ Hi) as (v & Hv & Hmo). rewrite Hmo. f_equal.
  subst ord. apply mapM_Some_1 in Hre.
  apply Forall2_app_inv_l in Hre as (rfront & k2 & Hf1 & Hf2 & ->).
  inversion Hf2 as [|? s' ? k2' Hs' Hnil]; subst. inversion Hnil; subst.
  assert (s' = s) by congruence. subst s'.
  pose proof (Forall2_length _ _ _ Hf1) as Hlf.
  destruct rfront as [|d mid]; [destruct front; [congruence|discriminate]|].
  pose proof (delinearize_last_component linear d s mid rmd Hrmd) as Hlast.
  pose proof (delinearize_total linear ((d :: mid) ++ [s])) as Htot.
  destruct Htot as (rmd' & Hrmd' & Hl'); [destruct mid; discriminate|].
  rewrite Hrmd in Hrmd'. injection Hrmd' as <-.
  rewrite last_lookup in Hlast.
  rewrite Hl' in Hlast. rewrite length_app in Hlast. simpl in Hlast.
  simpl in Hlast, Hlf.
  replace (length mid + 1)%nat with (length front) in Hlast by lia.
  congruence.
Qed.

Lemma delinearize_order_fastest_witness :
  exists multiDim,
    delinearize_order ThreadIdX [4; 8] [1; 0] = Some multiDim /\
    at_ multiDim 0 = Some (URem ThreadIdX (IndexConst 4)).
Proof.
  apply (delinearize_order_fastest ThreadIdX [4; 8] [1; 0] [1] 0 4).
  - reflexivity.
  - repeat constructor; simpl; lia.
  - apply (bool_decide_eq_true_1 (NoDup [1; 0])). vm_compute. reflexivity.
  - reflexivity.
  - discriminate.
  - reflexivity.
Defined.

(** ** The offset table of a dimension *)

Lemma bind_ext_in {A B} (f g : A -> list B) (l : list A) :
  (forall x, x ∈ l -> f x = g x) -> l ≫= f = l ≫= g.
Proof.
  induction l as [|a l IH]; intros H; [reflexivity|].
  rewrite !bind_cons. rewrite (H a) by apply list_elem_of_here.
  rewrite IH; [reflexivity|]. intros x Hx. apply H.
  apply list_elem_of_further. exact Hx.
Qed.

Lemma bind_seqZ_singleton a k :
  (i ← seqZ 0 k; [a + i]) = seqZ a k.
Proof.
  replace (seqZ a k) with (Z.add a <$> seqZ 0 k)
    by (rewrite fmap_add_seqZ; f_equal; lia).
  induction (seqZ 0 k) as [|x l IH]; [reflexivity|].
  rewrite bind_cons, fmap_cons, IH. reflexivity.
Qed.

Lemma bind_seqZ_blocks k : 0 <= k -> forall n, 0 <= n -> forall a,
  (i ← seqZ 0 n; seqZ (a + i * k) k) = seqZ a (n * k).
Proof.
  intros Hk n Hn. pattern n. apply natlike_ind; [| |exact Hn].
  - intros a. reflexivity.
  - clear n Hn. intros n Hn IH a. unfold Z.succ.
    rewrite (seqZ_app 0 n 1) by lia. rewrite bind_app, IH.
    change (seqZ (0 + n) 1) with [0 + n]. rewrite bind_cons.
    change (@nil Z ≫= (fun i => seqZ (a + i * k) k)) with (@nil Z).
    rewrite app_nil_r.
    rewrite Z.add_0_l. rewrite Z.mul_add_distr_r, Z.mul_1_l.
    rewrite (seqZ_app a (n * k) k) by nia. reflexivity.
Qed.

(** The four loops enumerate the offsets in increasing order: entry [p] of
    the table is [p]. *)
Lemma offsetsOfDim_seqZ blocks spt tpw wpc :
  0 <= blocks -> 0 < spt -> 0 < tpw -> 0 < wpc ->
  blocks * (wpc * (tpw * spt)) < 2 ^ 32 ->
  offsetsOfDim blocks spt tpw wpc = seqZ 0 (blocks * (wpc * (tpw * spt))).
Proof.
  intros Hb Hs Ht Hw Hlt. unfold offsetsOfDim.
  rewrite <- (bind_seqZ_blocks (wpc * (tpw * spt)) ltac:(nia) blocks Hb 0).
  apply bind_ext_in. intros b Hbi. apply elem_of_seqZ in Hbi.
  rewrite <- (bind_seqZ_blocks (tpw * spt) ltac:(nia) wpc ltac:(lia)).
  apply bind_ext_in. intros w Hwi. apply elem_of_seqZ in Hwi.
  rewrite <- (bind_seqZ_blocks spt ltac:(lia) tpw ltac:(lia)).
  apply bind_ext_in. intros t Hti. apply elem_of_seqZ in Hti.
  etransitivity; [|apply bind_seqZ_singleton].
  apply bind_ext_in. intros e Hei. apply elem_of_seqZ in Hei.
  f_equal. unfold umul, uadd.
  assert (H1 : 0 <= b * spt <= blocks * spt) by nia.
  assert (H2 : 0 <= b * spt * tpw) by nia.
  assert (H3 : 0 <= b * spt * tpw * wpc) by nia.
  assert (H4 : b * spt * tpw * wpc + w * spt * tpw + t * spt + e
               < blocks * (wpc * (tpw * spt))).
  { assert (t * spt + e < tpw * spt) by nia.
    assert (w * (tpw * spt) + (t * spt + e) < wpc * (tpw * spt)) by nia.
    assert (b * (wpc * (tpw * spt)) + (w * (tpw * spt) + (t * spt + e))
            < blocks * (wpc * (tpw * spt))) by nia.
    lia. }
  assert (H5 : 0 <= w * spt) by nia.
  assert (H6 : 0 <= w * spt * tpw) by nia.
  assert (H7 : 0 <= t * spt) by nia.
  assert (H8 : b * spt <= b * spt * tpw) by nia.
  assert (H9 : b * spt * tpw <= b * spt * tpw * wpc) by nia.
  assert (H10 : w * spt <= w * spt * tpw) by nia.
  rewrite (u32_small (b * spt)) by lia.
  rewrite (u32_small (b * spt * tpw)) by lia.
  rewrite (u32_small (b * spt * tpw * wpc)) by lia.
  rewrite (u32_small (w * spt)) by lia.
  rewrite (u32_small (w * spt * tpw)) by lia.
  rewrite (u32_small (b * spt * tpw * wpc + w * spt * tpw)) by lia.
  rewrite (u32_small (t * spt)) by lia.
  rewrite (u32_small (b * spt * tpw * wpc + w * spt * tpw + t * spt)) by lia.
  rewrite u32_small by lia. lia.
Qed.

Lemma at_seqZ n p : 0 <= p < n -> at_ (seqZ 0 n) p = Some p.
Proof.
  intros Hp. unfold at_. destruct (Z.ltb_spec p 0); [lia|].
  rewrite lookup_seqZ_lt by lia. f_equal. lia.
Qed.

Lemma mapM_fmap_Some {A B} (f : A -> option B) (g : A -> B) (l : list A) :
  (forall x, x ∈ l -> f x = Some (g x)) -> mapM f l = Some (g <$> l).
Proof.
  intros H. apply mapM_Some. induction l as [|a l IH]; [constructor|].
  rewrite fmap_cons. constructor.
  - apply H, list_elem_of_here.
  - apply IH. intros x Hx. apply H, list_elem_of_further, Hx.
Qed.

Lemma getMultiDimIndex_one x T : 0 <= x -> getMultiDimIndex u32 x [T] = Some [x].
Proof.
  intros Hx. unfold getMultiDimIndex, acc_mul_init.
  cbn [tail fold_left getMultiDimIndex_loop acc_mul_next].
  rewrite divT_pos, remT_pos by lia. simpl. now rewrite Z.div_1_r.
Qed.

Lemma delinearize_order_rank1 v a : delinearize_order v [a] [0] = Some [v].
Proof. reflexivity. Qed.

(** Evaluation of the emitted arithmetic when nothing wraps. *)
Lemma eval_const tid c : 0 <= c < 2 ^ 32 -> eval tid (IndexConst c) = Some c.
Proof. intros H. simpl. now rewrite u32_small. Qed.

Lemma eval_urem tid a b x y :
  eval tid a = Some x -> eval tid b = Some y -> y <> 0 ->
  eval tid (URem a b) = Some (x mod y).
Proof.
  intros Ha Hb Hy. cbn [eval]. rewrite Ha, Hb. cbn [mbind option_bind].
  destruct (Z.eqb_spec y 0); [contradiction|reflexivity].
Qed.

Lemma eval_udiv tid a b x y :
  eval tid a = Some x -> eval tid b = Some y -> y <> 0 ->
  eval tid (UDiv a b) = Some (x / y).
Proof.
  intros Ha Hb Hy. cbn [eval]. rewrite Ha, Hb. cbn [mbind option_bind].
  destruct (Z.eqb_spec y 0); [contradiction|reflexivity].
Qed.

Lemma eval_add tid a b x y :
  eval tid a = Some x -> eval tid b = Some y -> 0 <= x + y < 2 ^ 32 ->
  eval tid (Add a b) = Some (x + y).
Proof.
  intros Ha Hb Hr. cbn [eval]. rewrite Ha, Hb. cbn [mbind option_bind].
  now rewrite u32_small.
Qed.

Lemma eval_mul tid a b x y :
  eval tid a = Some x -> eval tid b = Some y -> 0 <= x * y < 2 ^ 32 ->
  eval tid (Mul a b) = Some (x * y).
Proof.
  intros Ha Hb Hr. cbn [eval]. rewrite Ha, Hb. cbn [mbind option_bind].
  now rewrite u32_small.
Qed.

Lemma eval_laneId tid : 0 <= tid < 2 ^ 32 -> eval tid laneId = Some (tid mod 32).
Proof.
  intros H. unfold laneId.
  apply eval_urem; [simpl; now rewrite u32_small|apply eval_const; lia|lia].
Qed.

Lemma eval_warpId tid : 0 <= tid < 2 ^ 32 -> eval tid warpId = Some (tid / 32).
Proof.
  intros H. unfold warpId.
  apply eval_udiv; [simpl; now rewrite u32_small|apply eval_const; lia|lia].
Qed.

Section Blocked1d.

Variables spt wpc m : Z.
Hypothesis spt_pos : 0 < spt.
Hypothesis wpc_pos : 0 < wpc.
Hypothesis m_pos : 0 < m.
Hypothesis N_small : m * (spt * 32 * wpc) < 2 ^ 32.

Let P : Z := spt * 32 * wpc.
Let N : Z := m * (spt * 32 * wpc).

Let base : Value :=
  Mul (IndexConst spt)
      (Add (URem laneId (IndexConst (m * 32 * wpc)))
           (Mul (URem warpId (IndexConst (m * wpc))) (IndexConst 32))).

Lemma N_u32 : u32 N = N.
Proof. apply u32_small. unfold N. nia. Qed.

Lemma N_per_thread : ceil N spt = m * 32 * wpc.
Proof.
  unfold N. replace (m * (spt * 32 * wpc)) with (m * 32 * wpc * spt) by lia.
  apply ceil_exact. lia.
Qed.

Lemma N_per_warp : ceil N (spt * 32) = m * wpc.
Proof.
  unfold N. replace (m * (spt * 32 * wpc)) with (m * wpc * (spt * 32)) by lia.
  apply ceil_exact. lia.
Qed.

Lemma N_per_period : ceil N (spt * 32 * wpc) = m.
Proof. unfold N. apply ceil_exact. lia. Qed.

Lemma emitBase_1d :
  emitBaseIndexForBlockedLayout (blocked1d spt wpc) [N] = Some [base].
Proof.
  unfold emitBaseIndexForBlockedLayout, blocked1d.
  cbn [warpsPerCTA threadsPerWarp order].
  rewrite !delinearize_order_rank1. cbn [mbind option_bind].
  change (seqZ 0 (Z.of_nat (length [N]))) with [0].
  apply mapM_Some. constructor; [|constructor].
  unfold baseIndexAt. cbn [sizePerThread threadsPerWarp].
  subscripts. cbn [mbind option_bind]. subscripts. cbn [mbind option_bind].
  rewrite N_u32. unfold umul. rewrite (u32_small (spt * 32)) by nia.
  rewrite N_per_thread, N_per_warp. reflexivity.
Qed.

Lemma eval_base_1d tid :
  0 <= tid < 32 * wpc -> eval tid base = Some (spt * tid).
Proof.
  intros Ht. unfold base.
  assert (Hl : 0 <= tid mod 32 < 32) by (apply Z.mod_pos_bound; lia).
  assert (Hw : 0 <= tid / 32 < wpc).
  { split; [apply Z.div_pos; lia|apply Z.div_lt_upper_bound; lia]. }
  assert (Hsplit : tid = 32 * (tid / 32) + tid mod 32)
    by (apply Z.div_mod; lia).
  assert (Hmw : wpc <= m * wpc) by nia.
  assert (Hb : spt * (32 * wpc) <= m * (spt * 32 * wpc)) by nia.
  replace (spt * tid) with (spt * (tid mod 32 + tid / 32 * 32)) by lia.
  apply eval_mul; [apply eval_const; nia| |nia].
  apply eval_add; [| |nia].
  - rewrite <- (Z.mod_small (tid mod 32) (m * 32 * wpc)) by nia.
    apply eval_urem; [apply eval_laneId; nia|apply eval_const; nia|nia].
  - apply eval_mul; [|apply eval_const; lia|nia].
    rewrite <- (Z.mod_small (tid / 32) (m * wpc)) by nia.
    apply eval_urem; [apply eval_warpId; nia|apply eval_const; nia|nia].
Qed.

Lemma emitIndices_1d :
  emitIndicesForBlockedLayout (blocked1d spt wpc) [N]
  = Some ((fun n => [Add base (IndexConst (n / spt * P + n mod spt))])
            <$> seqZ 0 (m * spt)).
Proof.
  unfold emitIndicesForBlockedLayout. rewrite emitBase_1d.
  cbn [mbind option_bind].
  change (seqZ 0 (Z.of_nat (length [N]))) with [0].
  assert (Hgeo : mapM (dimGeometry (blocked1d spt wpc) [N]) [0]
                 = Some [ {| shapePerCTA_k := P;
                             multiDimElemsPerThread_k := m * spt;
                             offset_k := seqZ 0 N;
                             threadsPerDim_k := m * 32 * wpc |} ]).
  { apply mapM_Some. constructor; [|constructor].
    unfold dimGeometry, blocked1d.
    cbn [sizePerThread threadsPerWarp warpsPerCTA].
    subscripts. cbn [mbind option_bind]. subscripts. cbn [mbind option_bind].
    rewrite N_u32. unfold umul. rewrite (u32_small (spt * 32)) by nia.
    rewrite (u32_small (spt * 32 * wpc)) by nia.
    rewrite N_per_period, N_per_thread.
    rewrite (u32_small (m * spt)) by nia.
    rewrite offsetsOfDim_seqZ by (lia || nia).
    do 3 f_equal. f_equal. unfold N. lia. }
  rewrite Hgeo. cbn [mbind option_bind fold_left map
                     multiDimElemsPerThread_k threadsPerDim_k].
  unfold umul at 1. rewrite (u32_small (1 * (m * spt))) by nia.
  rewrite Z.mul_1_l.
  assert (Hacc : product (sizePerThread (blocked1d spt wpc)) = spt).
  { unfold product, blocked1d. cbn [sizePerThread fold_left].
    rewrite Z.mul_1_l. apply u32_small. nia. }
  rewrite Hacc. apply mapM_fmap_Some. intros n Hn.
  apply elem_of_seqZ in Hn.
  assert (Hq : 0 <= n / spt < m).
  { split; [apply Z.div_pos; lia|apply Z.div_lt_upper_bound; lia]. }
  assert (Hr : 0 <= n mod spt < spt) by (apply Z.mod_pos_bound; lia).
  rewrite divT_pos, remT_pos by lia. cbn [mbind option_bind].
  rewrite getMultiDimIndex_one by lia. cbn [mbind option_bind].
  change (sizePerThread (blocked1d spt wpc)) with [spt].
  rewrite getMultiDimIndex_one by lia. cbn [mbind option_bind].
  apply mapM_Some. constructor; [|constructor].
  unfold indexAt, blocked1d. cbn [sizePerThread threadsPerWarp warpsPerCTA].
  subscripts. cbn [mbind option_bind]. subscripts.
  cbn [mbind option_bind offset_k].
  unfold umul, uadd. rewrite (u32_small (spt * 32)) by nia.
  rewrite (u32_small (spt * 32 * wpc)) by nia.
  assert (Hoff : 0 <= n / spt * (spt * 32 * wpc) + n mod spt < N).
  { unfold N. nia. }
  assert (Hmul : 0 <= n / spt * (spt * 32 * wpc)) by nia.
  rewrite (u32_small (n / spt * (spt * 32 * wpc))) by (unfold N in Hoff; nia).
  rewrite u32_small by (unfold N in Hoff; nia).
  rewrite at_seqZ by exact Hoff. reflexivity.
Qed.

Lemma laneIndices_1d tid :
  0 <= tid < 32 * wpc ->
  laneIndices (blocked1d spt wpc) [N] tid
  = Some ((fun n => [spt * tid + (n / spt * P + n mod spt)])
            <$> seqZ 0 (m * spt)).
Proof.
  intros Ht. unfold laneIndices. rewrite emitIndices_1d.
  cbn [mbind option_bind]. apply mapM_Some, Forall2_fmap, Forall_Forall2_diag.
  apply Forall_forall. intros n Hn. apply elem_of_seqZ in Hn.
  assert (Hq : 0 <= n / spt < m).
  { split; [apply Z.div_pos; lia|apply Z.div_lt_upper_bound; lia]. }
  assert (Hr : 0 <= n mod spt < spt) by (apply Z.mod_pos_bound; lia).
  assert (Hoff : 0 <= n / spt * P + n mod spt
                 /\ spt * tid + (n / spt * P + n mod spt) < N).
  { unfold N, P. nia. }
  apply mapM_Some. constructor; [|constructor].
  apply eval_add; [apply eval_base_1d; exact Ht|apply eval_const|];
    unfold N in Hoff; nia.
Qed.

End Blocked1d.

Lemma at_fmap_seqZ {B} (f : Z -> B) K n y :
  at_ (f <$> seqZ 0 K) n = Some y <-> 0 <= n < K /\ y = f n.
Proof.
  unfold at_. destruct (Z.ltb_spec n 0).
  - split; [discriminate|lia].
  - rewrite list_lookup_fmap. split.
    + intros H'. destruct (seqZ 0 K !! Z.to_nat n) as [z|] eqn:E; [|discriminate].
      apply lookup_seqZ in E. simpl in H'. injection H' as <-.
      split; [lia|]. f_equal. lia.
    + intros [Hn ->]. rewrite lookup_seqZ_lt by lia. simpl. do 2 f_equal. lia.
Qed.

(** X9: in one dimension the enumeration is a partition.  For the Blocked
    layout with [spt] elements per lane and tile, 32 lanes per warp and
    [wpc] warps, over a shape of [m] tiling periods, every lane owns
    [m * spt] indices, and every index of the shape is owned by exactly one
    lane at exactly one position of its list. *)
Theorem blocked_1d_lanes_partition (spt wpc m : Z) :
  0 < spt -> 0 < wpc -> 0 < m -> m * (spt * 32 * wpc) < 2 ^ 32 ->
  let l := blocked1d spt wpc in
  let N := m * (spt * 32 * wpc) in
  (forall tid, 0 <= tid < 32 * wpc ->
     exists idx, laneIndices l [N] tid = Some idx /\
                 Z.of_nat (length idx) = m * spt) /\
  forall x, 0 <= x < N ->
    exists tid n,
      0 <= tid < 32 * wpc /\
      (exists idx, laneIndices l [N] tid = Some idx /\ at_ idx n = Some [x]) /\
      forall tid' n' idx',
        0 <= tid' < 32 * wpc ->
        laneIndices l [N] tid' = Some idx' ->
        at_ idx' n' = Some [x] ->
        tid' = tid /\ n' = n.
Proof.
  intros Hs Hw Hm HN l N.
  pose proof (laneIndices_1d spt wpc m Hs Hw Hm HN) as Hlane.
  cbv zeta in Hlane. fold l N in Hlane.
  set (P := spt * 32 * wpc) in *.
  assert (HP : 0 < P) by (unfold P; nia).
  split.
  - intros tid Ht. eexists. split; [apply Hlane; exact Ht|].
    rewrite length_fmap, length_seqZ. nia.
  - intros x Hx.
    assert (Hq : 0 <= x / P < m).
    { split; [apply Z.div_pos; lia|apply Z.div_lt_upper_bound; unfold N in Hx; lia]. }
    assert (Hr : 0 <= x mod P < P) by (apply Z.mod_pos_bound; lia).
    assert (Hx' : x = P * (x / P) + x mod P) by (apply Z.div_mod; lia).
    set (q := x / P) in *. set (r := x mod P) in *.
    assert (Ht : 0 <= r / spt < 32 * wpc).
    { split; [apply Z.div_pos; lia|apply Z.div_lt_upper_bound; unfold P in Hr; lia]. }
    assert (He : 0 <= r mod spt < spt) by (apply Z.mod_pos_bound; lia).
    assert (Hr' : r = spt * (r / spt) + r mod spt) by (apply Z.div_mod; lia).
    set (t := r / spt) in *. set (e := r mod spt) in *.
    assert (Hnq : (q * spt + e) / spt = q).
    { symmetry. apply (Z.div_unique _ _ _ e); lia. }
    assert (Hne : (q * spt + e) mod spt = e).
    { symmetry. apply (Z.mod_unique _ _ q); lia. }
    exists t, (q * spt + e). split; [exact Ht|]. split.
    + eexists. split; [apply Hlane; exact Ht|].
      apply at_fmap_seqZ. split; [nia|]. rewrite Hnq, Hne. do 2 f_equal. lia.
    + intros tid' n' idx' Ht' Hidx' Hat.
      rewrite (Hlane tid' Ht') in Hidx'. injection Hidx' as <-.
      apply at_fmap_seqZ in Hat as [Hn' E]. injection E as E.
      assert (Hq' : 0 <= n' / spt < m).
      { split; [apply Z.div_pos; lia|apply Z.div_lt_upper_bound; lia]. }
      assert (He' : 0 <= n' mod spt < spt) by (apply Z.mod_pos_bound; lia).
      assert (Hn'' : n' = spt * (n' / spt) + n' mod spt) by (apply Z.div_mod; lia).
      set (q' := n' / spt) in *. set (e' := n' mod spt) in *.
      assert (Hr2 : 0 <= spt * tid' + e' < P) by (unfold P; nia).
      assert (Eq : q' = q).
      { unfold q. apply (Z.div_unique _ _ _ (spt * tid' + e')); lia. }
      assert (Er : spt * tid' + e' = r).
      { unfold r. apply (Z.mod_unique _ _ q'); lia. }
      assert (Et : tid' = t).
      { unfold t. apply (Z.div_unique _ _ _ e'); lia. }
      assert (Ee : e' = e).
      { unfold e. apply (Z.mod_unique _ _ tid'); lia. }
      split; [exact Et|]. lia.
Qed.

Lemma blocked_1d_lanes_partition_witness :
  (forall tid, 0 <= tid < 32 * 2 ->
     exists idx, laneIndices (blocked1d 4 2) [3 * (4 * 32 * 2)] tid = Some idx /\
                 Z.of_nat (length idx) = 3 * 4) /\
  forall x, 0 <= x < 3 * (4 * 32 * 2) ->
    exists tid n,
      0 <= tid < 32 * 2 /\
      (exists idx, laneIndices (blocked1d 4 2) [3 * (4 * 32 * 2)] tid = Some idx /\
                   at_ idx n = Some [x]) /\
      forall tid' n' idx',
        0 <= tid' < 32 * 2 ->
        laneIndices (blocked1d 4 2) [3 * (4 * 32 * 2)] tid' = Some idx' ->
        at_ idx' n' = Some [x] ->
        tid' = tid /\ n' = n.
Proof.
  apply (blocked_1d_lanes_partition 4 2 3); lia.
Defined.

(** ** [MakeRangeOpConversion] *)

Lemma emitIndices_blocked_rank l shape idx :
  emitIndicesForBlockedLayout l shape = Some idx ->
  Forall (fun t => length t = length shape) idx.
Proof.
  unfold emitIndicesForBlockedLayout. intros H.
  apply bind_Some in H as (base & _ & H).
  apply bind_Some in H as (geo & _ & H).
  apply Forall_forall. intros t Ht.
  destruct (mapM_elem_of _ _ _ _ H Ht) as (n & _ & Hn).
  apply bind_Some in Hn as (q & _ & Hn).
  apply bind_Some in Hn as (r & _ & Hn).
  apply bind_Some in Hn as (tile & _ & Hn).
  apply bind_Some in Hn as (e & _ & Hn).
  apply length_mapM in Hn. rewrite length_seqZ in Hn. lia.
Qed.

Lemma laneIndices_eval l shape tid idxs idx n x :
  emitIndicesForBlockedLayout l shape = Some idxs ->
  laneIndices l shape tid = Some idx ->
  at_ idx n = Some [x] ->
  exists i, at_ idxs n = Some [i] /\ eval tid i = Some x.
Proof.
  intros Hidxs Hlane Hat. unfold laneIndices in Hlane.
  rewrite Hidxs in Hlane. cbn [mbind option_bind] in Hlane.
  unfold at_ in *. destruct (Z.ltb_spec n 0); [discriminate|].
  destruct (mapM_lookup_r _ _ _ _ _ Hlane Hat) as (t & Ht & Hev).
  apply mapM_Some_1 in Hev.
  inversion Hev as [|i ? ? rest Hi Hrest]; subst. inversion Hrest; subst.
  exists i. auto.
Qed.

(** X10: [make_range] over the one-dimensional layout: the lowering
    completes, the record has one element per owned index, and on every
    lane the element at the position of an owned index [x] evaluates to
    [start + x] in 32-bit arithmetic. *)
Theorem make_range_1d (spt wpc m start : Z) :
  0 < spt -> 0 < wpc -> 0 < m -> m * (spt * 32 * wpc) < 2 ^ 32 ->
  let N := m * (spt * 32 * wpc) in
  exists retVals,
    MakeRangeOpConversion
      {| mr_shape := [N]; mr_layout := Blocked (blocked1d spt wpc);
         mr_elemTy := IntegerType 32; mr_start := start |}
      = Rewritten retVals /\
    Z.of_nat (length retVals) = m * spt /\
    forall tid idx n x,
      laneIndices (blocked1d spt wpc) [N] tid = Some idx ->
      at_ idx n = Some [x] ->
      exists v, at_ retVals n = Some v /\
                eval tid v = Some (u32 (x + u32 start)).
Proof.
  intros Hs Hw Hm HN N.
  pose proof (emitIndices_1d spt wpc m Hs Hw Hm HN) as Hidx.
  cbv zeta in Hidx. fold N in Hidx.
  unfold MakeRangeOpConversion.
  cbn [mr_elemTy mr_layout mr_shape mr_start isInteger emitIndices].
  rewrite Z.eqb_refl. cbn [negb]. rewrite Hidx. cbn [mbind option_bind].
  match goal with
  | |- context [mapM (rangeValue start) (?f <$> ?l)] =>
      assert (Hrv : mapM (rangeValue start) (f <$> l)
                    = Some ((fun t => Add (hd Null t) (IndexConst start))
                              <$> (f <$> l)))
  end.
  { apply mapM_fmap_Some. intros t Ht.
    apply list_elem_of_fmap in Ht as (n & -> & _). reflexivity. }
  rewrite Hrv.
  eexists. split; [reflexivity|].
  split; [rewrite !length_fmap, length_seqZ; nia|].
  intros tid idx n x Hlane Hat.
  destruct (laneIndices_eval _ _ _ _ _ _ _ Hidx Hlane Hat) as (i & Hi & Hev).
  exists (Add i (IndexConst start)). split.
  - unfold at_ in *. destruct (Z.ltb_spec n 0); [discriminate|].
    rewrite list_lookup_fmap, Hi. reflexivity.
  - cbn [eval]. rewrite Hev. reflexivity.
Qed.

Lemma make_range_1d_witness :
  exists retVals,
    MakeRangeOpConversion
      {| mr_shape := [3 * (4 * 32 * 2)]; mr_layout := Blocked (blocked1d 4 2);
         mr_elemTy := IntegerType 32; mr_start := 1000 |}
      = Rewritten retVals /\
    Z.of_nat (length retVals) = 3 * 4 /\
    forall tid idx n x,
      laneIndices (blocked1d 4 2) [3 * (4 * 32 * 2)] tid = Some idx ->
      at_ idx n = Some [x] ->
      exists v, at_ retVals n = Some v /\
                eval tid v = Some (u32 (x + u32 1000)).
Proof.
  apply (make_range_1d 4 2 3 1000); lia.
Defined.

(** X11: [make_range] stops at an assertion when the element type is not
    a 32-bit integer, when the layout is neither Blocked nor Slice, and
    under a Blocked layout over a shape that is not one-dimensional
    unless no index is enumerated at all. *)
Theorem make_range_rejects (op : MakeRangeOp) :
  (isInteger (mr_elemTy op) 32 = false -> MakeRangeOpConversion op = Aborted) /\
  (mr_layout op = Mma \/ mr_layout op = Shared ->
   MakeRangeOpConversion op = Aborted) /\
  (forall l, mr_layout op = Blocked l -> length (mr_shape op) <> 1%nat ->
     MakeRangeOpConversion op = Aborted \/
     MakeRangeOpConversion op = Rewritten []).
Proof.
  unfold MakeRangeOpConversion. split; [|split].
  - intros ->. reflexivity.
  - destruct (negb (isInteger (mr_elemTy op) 32)); [reflexivity|].
    intros [-> | ->]; reflexivity.
  - intros l Hl Hrank.
    destruct (negb (isInteger (mr_elemTy op) 32)); [left; reflexivity|].
    rewrite Hl. cbn [emitIndices].
    destruct (emitIndicesForBlockedLayout l (mr_shape op)) as [idxs|] eqn:E;
      [|left; reflexivity].
    cbn [mbind option_bind].
    pose proof (emitIndices_blocked_rank _ _ _ E) as Hlen.
    destruct idxs as [|t idxs]; [right; reflexivity|].
    left. inversion Hlen as [|? ? Ht _]; subst.
    destruct t as [|i [|j t']]; try reflexivity.
    simpl in Ht. congruence.
Qed.

Lemma make_range_rejects_witness :
  MakeRangeOpConversion
    {| mr_shape := [128]; mr_layout := Blocked exampleLayout;
       mr_elemTy := IntegerType 64; mr_start := 0 |} = Aborted.
Proof.
  apply (proj1 (make_range_rejects
                  {| mr_shape := [128]; mr_layout := Blocked exampleLayout;
                     mr_elemTy := IntegerType 64; mr_start := 0 |})).
  reflexivity.
Defined.

(** ** Index enumeration of a Slice layout *)

Lemma mapM_at_seqZ {A} (t : list A) a n :
  0 <= a -> 0 <= n -> a + n <= Z.of_nat (length t) ->
  mapM (at_ t) (seqZ a n) = Some (take (Z.to_nat n) (drop (Z.to_nat a) t)).
Proof.
  intros Ha Hn Hlen. apply mapM_Some.
  apply Forall2_same_length_lookup_2.
  - rewrite length_seqZ, length_take, length_drop. lia.
  - intros i x y Hx Hy. apply lookup_seqZ in Hx as [-> Hi].
    rewrite lookup_take_Some in Hy. destruct Hy as [Hy _].
    rewrite lookup_drop in Hy. unfold at_.
    destruct (Z.ltb_spec (a + Z.of_nat i) 0); [lia|].
    rewrite <- Hy. f_equal. lia.
Qed.

Lemma paddedShapeOf_spec shape dim :
  0 <= dim <= Z.of_nat (length shape) ->
  paddedShapeOf shape dim
  = Some (take (Z.to_nat dim) shape ++ 1 :: drop (Z.to_nat dim) shape).
Proof.
  intros Hdim. unfold paddedShapeOf. apply mapM_Some.
  apply Forall2_same_length_lookup_2.
  - rewrite length_seqZ, length_app, length_take. simpl.
    rewrite length_drop. lia.
  - intros i x y Hx Hy. apply lookup_seqZ in Hx as [-> Hi].
    rewrite Z.add_0_l.
    destruct (Z.ltb_spec (Z.of_nat i) dim) as [Hlt|Hge].
    + rewrite lookup_app_l in Hy by (rewrite length_take; lia).
      rewrite lookup_take_Some in Hy. destruct Hy as [Hy _].
      unfold at_. destruct (Z.ltb_spec (Z.of_nat i) 0); [lia|].
      now rewrite Nat2Z.id.
    + rewrite lookup_app_r in Hy by (rewrite length_take; lia).
      rewrite length_take in Hy.
      replace (i - Z.to_nat dim `min` length shape)%nat
        with (i - Z.to_nat dim)%nat in Hy by lia.
      destruct (Z.eqb_spec (Z.of_nat i) dim) as [E|NE].
      * replace (i - Z.to_nat dim)%nat with 0%nat in Hy by lia.
        simpl in Hy. congruence.
      * destruct (i - Z.to_nat dim)%nat as [|j] eqn:Ej; [lia|].
        simpl in Hy. rewrite lookup_drop in Hy.
        unfold at_. destruct (Z.ltb_spec (Z.of_nat i - 1) 0); [lia|].
        rewrite <- Hy. f_equal. lia.
Qed.

Lemma dropDim_keep dim (t : list Value) l : forall r0,
  Forall (fun d => d <> dim) l ->
  fold_left (fun acc d =>
               resultIndex ← acc;
               if negb (d =? dim) then
                 v ← at_ t d; Some (resultIndex ++ [v])
               else Some resultIndex) l r0
  = (r ← r0; vs ← mapM (at_ t) l; Some (r ++ vs)).
Proof.
  induction l as [|d l IH]; intros r0 Hl.
  - destruct r0 as [r|]; simpl; [now rewrite app_nil_r|reflexivity].
  - inversion Hl as [|? ? Hd Hl']; subst. cbn [fold_left].
    rewrite IH by exact Hl'.
    destruct r0 as [r|]; [|reflexivity]. cbn [mbind option_bind].
    destruct (Z.eqb_spec d dim); [contradiction|]. cbn [negb].
    cbn [mapM]. destruct (at_ t d) as [v|]; [|reflexivity].
    cbn [mbind option_bind]. destruct (mapM (at_ t) l) as [vs|]; [|reflexivity].
    cbn [mbind option_bind mret option_ret]. now rewrite <- app_assoc.
Qed.

Lemma dropDim_delete rank dim (t : list Value) :
  0 <= dim <= rank -> Z.of_nat (length t) = rank + 1 ->
  dropDim rank dim t = Some (delete (Z.to_nat dim) t).
Proof.
  intros Hdim Hlen. unfold dropDim.
  replace (rank + 1) with (dim + (1 + (rank - dim))) by lia.
  rewrite (seqZ_app 0 dim) by lia. rewrite (seqZ_app (0 + dim) 1) by lia.
  rewrite !fold_left_app. rewrite Z.add_0_l.
  rewrite (dropDim_keep dim t (seqZ 0 dim))
    by (apply Forall_forall; intros d Hd; apply elem_of_seqZ in Hd; lia).
  cbn [mbind option_bind].
  rewrite mapM_at_seqZ by lia. cbn [mbind option_bind].
  change (seqZ dim 1) with [dim]. cbn [fold_left mbind option_bind].
  rewrite Z.eqb_refl. cbn [negb].
  rewrite (dropDim_keep dim t (seqZ (dim + 1) (rank - dim)))
    by (apply Forall_forall; intros d Hd; apply elem_of_seqZ in Hd; lia).
  cbn [mbind option_bind].
  rewrite mapM_at_seqZ by lia. cbn [mbind option_bind].
  f_equal. rewrite delete_take_drop. rewrite drop_0. simpl app.
  f_equal. replace (Z.to_nat (dim + 1)) with (S (Z.to_nat dim)) by lia.
  apply take_ge. rewrite length_drop. lia.
Qed.

(** X12: the indices of a Slice of a Blocked parent are the indices of the
    parent over the shape padded with an extent of 1 at the sliced
    dimension, with the coordinate of that dimension deleted; the
    enumeration fails exactly when the enumeration of the parent fails. *)
Theorem emitIndices_slice (dim : Z) (p : BlockedEncodingAttr) (shape : list Z) :
  0 <= dim <= Z.of_nat (length shape) ->
  emitIndices (Slice dim (Blocked p)) shape
  = option_map (map (fun t : list Value => delete (Z.to_nat dim) t))
      (emitIndicesForBlockedLayout p
         (take (Z.to_nat dim) shape ++ 1 :: drop (Z.to_nat dim) shape)).
Proof.
  intros Hdim. cbn [emitIndices emitIndicesForSliceLayout].
  rewrite paddedShapeOf_spec by exact Hdim. cbn [mbind option_bind].
  set (padded := take (Z.to_nat dim) shape ++ 1 :: drop (Z.to_nat dim) shape).
  destruct (emitIndicesForBlockedLayout p padded) as [idx|] eqn:E;
    [|reflexivity].
  cbn [mbind option_bind option_map].
  apply (mapM_fmap_Some _ (fun t : list Value => delete (Z.to_nat dim) t)).
  intros t Ht.
  pose proof (emitIndices_blocked_rank _ _ _ E) as Hlen.
  rewrite Forall_forall in Hlen. specialize (Hlen t Ht).
  apply dropDim_delete; [exact Hdim|]. rewrite Hlen. unfold padded.
  rewrite length_app, length_take. simpl. rewrite length_drop. lia.
Qed.

Lemma emitIndices_slice_witness :
  emitIndices (Slice 1 (Blocked exampleLayout2d)) [256]
  = option_map (map (fun t : list Value => delete (Z.to_nat 1) t))
      (emitIndicesForBlockedLayout exampleLayout2d
         (take (Z.to_nat 1) [256] ++ 1 :: drop (Z.to_nat 1) [256])).
Proof.
  apply (emitIndices_slice 1 exampleLayout2d [256]). simpl. lia.
Defined.

(** X13: a Slice whose parent is not a Blocked layout, a Slice along a
    dimension beyond the rank of the padded shape, and the layouts of
    matrix-multiply operands and of shared memory have no index
    enumeration: [emitIndices] stops at an assertion. *)
Theorem emitIndices_not_implemented (shape : list Z) :
  emitIndices Mma shape = None /\
  emitIndices Shared shape = None /\
  (forall dim parent, (forall b, parent <> Blocked b) ->
     emitIndices (Slice dim parent) shape = None) /\
  (forall dim b, Z.of_nat (length shape) < dim ->
     emitIndices (Slice dim (Blocked b)) shape = None).
Proof.
  split; [reflexivity|]. split; [reflexivity|]. split.
  - intros dim parent Hp. cbn [emitIndices emitIndicesForSliceLayout].
    destruct parent as [b| | |]; try reflexivity. destruct (Hp b eq_refl).
  - intros dim b Hdim. cbn [emitIndices emitIndicesForSliceLayout].
    destruct (paddedShapeOf shape dim) as [padded|] eqn:E; [|reflexivity].
    exfalso. unfold paddedShapeOf in E.
    destruct (mapM_seqZ_at _ _ _ E) as [_ Hat].
    destruct (Hat (Z.of_nat (length shape)) ltac:(lia)) as (y & _ & Hy).
    destruct (Z.ltb_spec (Z.of_nat (length shape)) dim); [|lia].
    apply at_Some_lt in Hy. lia.
Qed.

Lemma emitIndices_not_implemented_witness :
  emitIndices (Slice 0 Shared) [128] = None /\
  emitIndices (Slice 2 (Blocked (blocked1d 1 4))) [128] = None.
Proof.
  destruct (emitIndices_not_implemented [128]) as (_ & _ & Hparent & Hdim).
  split.
  - apply Hparent. intros b Hb. discriminate Hb.
  - apply Hdim. simpl. lia.
Defined.

(** ** Vectorized memory access: groups, addresses and element positions *)

Lemma ceil_step x vec : 0 < vec -> ceil x vec = ceil (x - vec) vec + 1.
Proof.
  intros Hv. unfold ceil.
  replace (x + vec - 1) with (x - vec + vec - 1 + 1 * vec) by lia.
  now rewrite Z.div_add by lia.
Qed.

Lemma vecStarts_length fuel : forall s numElems vec,
  0 < vec -> (Z.to_nat (numElems - s) <= fuel)%nat ->
  length (vecStarts fuel s numElems vec)
  = Z.to_nat (ceil (numElems - s) vec).
Proof.
  induction fuel as [|fuel IH]; intros s numElems vec Hv Hf; simpl.
  - assert (Hle : numElems - s <= 0) by lia.
    assert (Hc : ceil (numElems - s) vec < 1).
    { unfold ceil. apply Z.div_lt_upper_bound; lia. }
    lia.
  - destruct (Z.ltb_spec s numElems) as [Hlt|Hge].
    + simpl. rewrite IH by lia. rewrite (ceil_step (numElems - s) vec Hv).
      replace (numElems - (s + vec)) with (numElems - s - vec) by lia.
      assert (Hc : 0 <= ceil (numElems - s - vec) vec).
      { unfold ceil. apply Z.div_pos; lia. }
      lia.
    + assert (Hc : ceil (numElems - s) vec < 1).
      { unfold ceil. apply Z.div_lt_upper_bound; lia. }
      simpl. lia.
Qed.

(** When the width divides the number of elements, the loop over the
    vector groups visits the multiples of the width. *)
Lemma vecStarts_multiples k vec :
  0 <= k -> 0 < vec ->
  length (vecStarts (Z.to_nat (k * vec)) 0 (k * vec) vec) = Z.to_nat k /\
  forall g, 0 <= g < k ->
    at_ (vecStarts (Z.to_nat (k * vec)) 0 (k * vec) vec) g = Some (g * vec).
Proof.
  intros Hk Hv.
  assert (Hlen : length (vecStarts (Z.to_nat (k * vec)) 0 (k * vec) vec)
                 = Z.to_nat k).
  { rewrite vecStarts_length by lia. rewrite Z.sub_0_r, ceil_exact by lia.
    reflexivity. }
  split; [exact Hlen|]. intros g Hg. unfold at_.
  destruct (Z.ltb_spec g 0); [lia|].
  destruct (lookup_lt_is_Some_2
              (vecStarts (Z.to_nat (k * vec)) 0 (k * vec) vec) (Z.to_nat g))
    as [x Hx]; [lia|].
  rewrite Hx. f_equal. apply vecStarts_lookup in Hx as [-> _]. lia.
Qed.

Lemma getElementsFromStruct_length {V} (llvmStruct : list V) elems l :
  0 <= elems ->
  getElementsFromStruct llvmStruct elems = Some l ->
  Z.of_nat (length l) = elems.
Proof.
  intros He H. apply length_mapM in H. rewrite length_seqZ in H. lia.
Qed.

Lemma vecGroup_wordNElems elemNbits vec numVecs numElems g :
  vecGroup elemNbits vec numVecs numElems = Some g ->
  divT (width g) elemNbits = Some (wordNElems g).
Proof.
  unfold vecGroup. intros H.
  apply bind_Some in H as (q & Hq & H).
  apply bind_Some in H as (w & Hw & H).
  destruct (_ =? _); [|discriminate]. injection H as <-. exact Hw.
Qed.

Lemma concat_lookup_uniform {A} (n : nat) (ls : list (list A)) :
  Forall (fun l => length l = n) ls ->
  forall (i r : nat), (r < n)%nat ->
    concat ls !! (i * n + r)%nat = ls !! i ≫= (fun l => l !! r).
Proof.
  induction 1 as [|l ls Hl _ IH]; intros i r Hr.
  - simpl. now rewrite !lookup_nil.
  - destruct i as [|i]; simpl.
    + rewrite lookup_app_l by lia. reflexivity.
    + rewrite lookup_app_r by lia.
      replace (n + i * n + r - length l)%nat with (i * n + r)%nat by lia.
      apply IH. exact Hr.
Qed.

Lemma concat_length_uniform {A} (n : nat) (ls : list (list A)) :
  Forall (fun l => length l = n) ls ->
  length (concat ls) = (length ls * n)%nat.
Proof.
  induction 1 as [|l ls Hl _ IH]; simpl; [reflexivity|].
  rewrite length_app, IH. lia.
Qed.

Section MemoryAccessPositions.

Variable V : Type.
Variable getElemsPerThread : BlockedEncodingAttr -> list Z -> Z.

Lemma storeBody_inv (op : StoreOp V) ty asms :
  storeBody getElemsPerThread op ty = Some asms ->
  let layout := st_ptrLayout op in
  let numElems := u32 (getElemsPerThread layout (shapeOf (st_ptr op))) in
  exists ptrElems valueElems maskElems vec,
    getElementsFromStruct (recordOf (st_ptr op)) numElems = Some ptrElems /\
    getElementsFromStruct (recordOf (st_value op))
      (u32 (getElemsPerThread layout (shapeOf (st_value op))))
      = Some valueElems /\
    length ptrElems = length valueElems /\
    getVectorizeSize (st_ptrAxisInfo op) (shapeOf (st_ptr op)) layout
      = Some vec /\
    0 < vec /\
    mapM (storeGroup op ty ptrElems valueElems maskElems vec
                     (i32 (Z.quot numElems vec)) numElems)
         (vecStarts (Z.to_nat numElems) 0 numElems vec) = Some asms.
Proof.
  cbv zeta. unfold storeBody. intros Hb.
  apply bind_Some in Hb as (ptrElems & Hptr & Hb).
  apply bind_Some in Hb as (valueElems & Hval & Hb).
  apply bind_Some in Hb as (Hlen & _ & Hb).
  apply bind_Some in Hb as (maskElems & Hmask & Hb).
  apply bind_Some in Hb as (vec & Hvec & Hb).
  apply bind_Some in Hb as (numVecs & Hnv & Hb).
  apply divT_Some in Hnv as [Hne ->].
  pose proof (getVectorizeSize_nonneg _ _ _ _ Hvec).
  exists ptrElems, valueElems, maskElems, vec.
  repeat split; try assumption. lia.
Qed.

Lemma loadBody_inv (op : LoadOp V) ty asms :
  loadBody getElemsPerThread op ty = Some asms ->
  let layout := ld_ptrLayout op in
  let numElems := u32 (getElemsPerThread layout (shapeOf (ld_ptr op))) in
  exists ptrElems maskElems otherElems vec,
    getElementsFromStruct (recordOf (ld_ptr op)) numElems = Some ptrElems /\
    getVectorizeSize (ld_ptrAxisInfo op) (shapeOf (ld_ptr op)) layout
      = Some vec /\
    0 < vec /\
    mapM (loadGroup op ty ptrElems maskElems otherElems vec
                    (i32 (Z.quot numElems vec)) numElems)
         (vecStarts (Z.to_nat numElems) 0 numElems vec) = Some asms.
Proof.
  cbv zeta. unfold loadBody. intros Hb.
  apply bind_Some in Hb as (ptrElems & Hptr & Hb).
  apply bind_Some in Hb as (Hlen & _ & Hb).
  apply bind_Some in Hb as (maskElems & Hmask & Hb).
  apply bind_Some in Hb as (vec & Hvec & Hb).
  apply bind_Some in Hb as (numVecs & Hnv & Hb).
  apply bind_Some in Hb as (otherElems & Hother & Hb).
  apply divT_Some in Hnv as [Hne ->].
  pose proof (getVectorizeSize_nonneg _ _ _ _ Hvec).
  exists ptrElems, maskElems, otherElems, vec.
  repeat split; try assumption. lia.
Qed.

(** X14: the address of every access is the first pointer of its vector
    group, with offset zero: in a completed store or load lowering the
    instruction of group [i] addresses memory through the element
    [i * vec] of the pointer record, bound with constraint [l]; the other
    pointers of the group are not used. *)
Theorem access_address :
  (forall (op : StoreOp V) asms,
     StoreOpConversion getElemsPerThread op = Rewritten asms ->
     exists vec,
       getVectorizeSize (st_ptrAxisInfo op) (shapeOf (st_ptr op))
                        (st_ptrLayout op) = Some vec /\
       forall (i : nat) asm, asms !! i = Some asm ->
         exists w n p args pred,
           at_ (recordOf (st_ptr op)) (Z.of_nat i * vec) = Some p /\
           asm = [PtxSt w n (AddrOperand (Scalar (RecordElem p)) "l" 0)
                        args pred]) /\
  (forall (op : LoadOp V) asms,
     LoadOpConversion getElemsPerThread op = Rewritten asms ->
     exists vec,
       getVectorizeSize (ld_ptrAxisInfo op) (shapeOf (ld_ptr op))
                        (ld_ptrLayout op) = Some vec /\
       forall (i : nat) asm, asms !! i = Some asm ->
         exists w n p dsts pred movs,
           at_ (recordOf (ld_ptr op)) (Z.of_nat i * vec) = Some p /\
           asm = PtxLd w n dsts (AddrOperand (Scalar (RecordElem p)) "l" 0)
                       pred :: movs).
Proof.
  split.
  - intros op asms H. unfold StoreOpConversion in H.
    destruct (st_valueElemTy op) as [ty|]; [|discriminate].
    destruct (storeBody getElemsPerThread op ty) as [asms'|] eqn:Hb;
      [|discriminate].
    injection H as ->.
    destruct (storeBody_inv op ty asms Hb)
      as (ptrElems & valueElems & maskElems & vec & Hptr & _ & _ & Hvec & _ & Hmap).
    exists vec. split; [exact Hvec|]. intros i asm Hi.
    destruct (mapM_lookup_r _ _ _ _ _ Hmap Hi) as (vecStart & Hvs & Hasm).
    apply vecStarts_lookup in Hvs as [-> _].
    destruct (storeGroup_inv V op _ _ _ _ _ _ _ _ _ Hasm)
      as (g & args & maskVal & addr & _ & _ & _ & Haddr & ->).
    rewrite Z.add_0_l in Haddr.
    exists (width g), (nWords g), addr, args, maskVal.
    split; [|reflexivity].
    exact (getElementsFromStruct_at _ _ _ _ _ Hptr Haddr).
  - intros op asms H. unfold LoadOpConversion in H.
    destruct (ld_resultElemTy op) as [ty|]; [|discriminate].
    destruct (loadBody getElemsPerThread op ty) as [asms'|] eqn:Hb;
      [|discriminate].
    injection H as ->.
    destruct (loadBody_inv op ty asms Hb)
      as (ptrElems & maskElems & otherElems & vec & Hptr & Hvec & _ & Hmap).
    exists vec. split; [exact Hvec|]. intros i asm Hi.
    destruct (mapM_lookup_r _ _ _ _ _ Hmap Hi) as (vecStart & Hvs & Hasm).
    apply vecStarts_lookup in Hvs as [-> _].
    destruct (loadGroup_inv V op _ _ _ _ _ _ _ _ _ Hasm)
      as (g & pred & addr & movs & _ & _ & Haddr & _ & ->).
    rewrite Z.add_0_l in Haddr.
    eexists (width g), (nWords g), addr, _, pred, movs.
    split; [|reflexivity].
    exact (getElementsFromStruct_at _ _ _ _ _ Hptr Haddr).
Qed.

(** X15: a completed store packs every element of the value record
    exactly once: with [W] elements per word and [nW] words per group,
    [W * nW] is the vector width, there are [numElems / vec] groups, and
    element [j] of the record travels in group [j / vec], word
    [(j mod vec) / W], lane [(j mod vec) mod W], sign-extended to a byte
    when the elements are booleans. *)
Theorem store_packs_every_element (op : StoreOp V) asms :
  StoreOpConversion getElemsPerThread op = Rewritten asms ->
  let numElems :=
    u32 (getElemsPerThread (st_ptrLayout op) (shapeOf (st_ptr op))) in
  exists ty vec,
    st_valueElemTy op = Some ty /\
    getVectorizeSize (st_ptrAxisInfo op) (shapeOf (st_ptr op))
                     (st_ptrLayout op) = Some vec /\
    (0 < numElems < 2 ^ 31 -> valueElemNbits ty * vec < 2 ^ 31 ->
     exists g,
       vecGroup (valueElemNbits ty) vec (i32 (Z.quot numElems vec)) numElems
         = Some g /\
       wordNElems g * nWords g = vec /\
       Z.of_nat (length asms) * vec = numElems /\
       forall j, 0 <= j < numElems ->
         exists x addr args pred elems,
           at_ (recordOf (st_value op)) j = Some x /\
           at_ asms (j / vec)
             = Some [PtxSt (width g) (nWords g) addr args pred] /\
           Z.of_nat (length args) = nWords g /\
           at_ args (j mod vec / wordNElems g)
             = Some (BoundOperand (PackedWord (width g) elems)
                                  (constraintOf (width g))) /\
           Z.of_nat (length elems) = wordNElems g /\
           at_ elems (j mod vec mod wordNElems g)
             = Some (if isInteger ty 1 then SExtI8 x else RecordElem x)).
Proof.
  intros H numElems. unfold StoreOpConversion in H.
  destruct (st_valueElemTy op) as [ty|]; [|discriminate].
  destruct (storeBody getElemsPerThread op ty) as [asms'|] eqn:Hb;
    [|discriminate].
  injection H as ->.
  destruct (storeBody_inv op ty asms Hb)
    as (ptrElems & valueElems & maskElems & vec
        & Hptr & Hval & Hlen & Hvec & Hvpos & Hmap).
  fold numElems in Hptr, Hmap.
  exists ty, vec. split; [reflexivity|]. split; [exact Hvec|].
  intros Hn Hbits.
  pose proof (valueElemNbits_pos ty) as Hnb.
  (* the first group exists and fixes the constants *)
  assert (Hg : exists g,
             vecGroup (valueElemNbits ty) vec (i32 (Z.quot numElems vec))
                      numElems = Some g).
  { destruct (vecStarts (Z.to_nat numElems) 0 numElems vec) as [|s0 rest] eqn:Es.
    - exfalso. apply (vecStarts_nonempty numElems vec); [lia|exact Es].
    - apply mapM_Some_1 in Hmap. inversion Hmap as [|? asm0 ? ? H0 _]; subst.
      unfold storeGroup in H0. apply bind_Some in H0 as (g & Hg & _). eauto. }
  destruct Hg as (g & Hg). exists g. split; [exact Hg|].
  assert (Hnb' : 0 < valueElemNbits ty) by lia.
  destruct (vecGroup_exact _ _ _ _ Hnb' Hvpos Hbits Hn Hg)
    as (_ & _ & _ & HW & Hdiv).
  split; [exact HW|].
  assert (Hk : numElems = numElems / vec * vec).
  { pose proof (Z.div_mod numElems vec ltac:(lia)). lia. }
  set (k := numElems / vec) in *.
  assert (Hk0 : 0 <= k) by (apply Z.div_pos; lia).
  rewrite Hk in Hmap.
  destruct (vecStarts_multiples k vec Hk0 Hvpos) as [Hsl Hsat].
  pose proof (length_mapM _ _ _ Hmap) as Hal. rewrite Hsl in Hal.
  split; [lia|].
  assert (HnW : 1 <= nWords g).
  { unfold vecGroup in Hg. apply bind_Some in Hg as (q & _ & Hg).
    apply bind_Some in Hg as (w & _ & Hg).
    destruct (_ =? _); [|discriminate]. injection Hg as <-. simpl. lia. }
  assert (HWpos : 0 < wordNElems g) by nia.
  intros j Hj.
  assert (Hgj : 0 <= j / vec < k).
  { split; [apply Z.div_pos; lia|apply Z.div_lt_upper_bound; lia]. }
  assert (Hr : 0 <= j mod vec < vec) by (apply Z.mod_pos_bound; lia).
  assert (Hjs : j = vec * (j / vec) + j mod vec) by (apply Z.div_mod; lia).
  destruct (mapM_at _ _ _ _ _ Hmap (Hsat _ Hgj)) as (asm & Hasm & Hgrp).
  unfold storeGroup in Hgrp.
  apply bind_Some in Hgrp as (g' & Hg' & Hgrp).
  rewrite <- Hk in Hg'. rewrite Hg in Hg'. injection Hg' as <-.
  apply bind_Some in Hgrp as (args & Hargs & Hgrp).
  apply bind_Some in Hgrp as (maskVal & _ & Hgrp).
  apply bind_Some in Hgrp as (addr & _ & Hgrp). injection Hgrp as <-.
  destruct (mapM_seqZ_at _ _ _ Hargs) as [Hla Hwords].
  assert (Hw : 0 <= j mod vec / wordNElems g < nWords g).
  { split; [apply Z.div_pos; lia|apply Z.div_lt_upper_bound; nia]. }
  assert (He : 0 <= j mod vec mod wordNElems g < wordNElems g)
    by (apply Z.mod_pos_bound; lia).
  assert (Hrs : j mod vec = wordNElems g * (j mod vec / wordNElems g)
                            + j mod vec mod wordNElems g)
    by (apply Z.div_mod; lia).
  destruct (Hwords _ Hw) as (y & Hy & Hword).
  unfold storeWord in Hword.
  apply bind_Some in Hword as (elems & Helems & Hword). injection Hword as <-.
  destruct (mapM_seqZ_at _ _ _ Helems) as [Hle Hlanes].
  destruct (Hlanes _ He) as (z & Hz & Hlane).
  apply bind_Some in Hlane as (x & Hx & Hlane). injection Hlane as <-.
  exists x, (AddrOperand (Scalar (RecordElem addr)) "l" 0), args, maskVal, elems.
  split.
  { apply (getElementsFromStruct_at _ _ _ _ _ Hval).
    replace j with (j / vec * vec + j mod vec / wordNElems g * wordNElems g
                    + j mod vec mod wordNElems g) at 1 by nia.
    exact Hx. }
  split; [exact Hasm|]. split; [lia|]. split; [exact Hy|].
  split; [lia|exact Hz].
Qed.

(** X16: a completed load unpacks every element of its result from the
    position at which a store of the same type and width packs it: the
    result record has [numElems] entries and entry [j] is lane
    [(j mod vec) mod W] of result word [(j mod vec) / W] of the group that
    starts at [j / vec * vec]. *)
Theorem load_unpacks_every_element (op : LoadOp V) asms :
  LoadOpConversion getElemsPerThread op = Rewritten asms ->
  let numElems :=
    u32 (getElemsPerThread (ld_ptrLayout op) (shapeOf (ld_ptr op))) in
  exists ty vec,
    ld_resultElemTy op = Some ty /\
    getVectorizeSize (ld_ptrAxisInfo op) (shapeOf (ld_ptr op))
                     (ld_ptrLayout op) = Some vec /\
    (0 < numElems < 2 ^ 31 -> valueElemNbits ty * vec < 2 ^ 31 ->
     exists g vals,
       vecGroup (valueElemNbits ty) vec (i32 (Z.quot numElems vec)) numElems
         = Some g /\
       wordNElems g * nWords g = vec /\
       LoadOpResult getElemsPerThread op = Some vals /\
       Z.of_nat (length vals) = numElems /\
       forall j, 0 <= j < numElems ->
         at_ vals j
         = Some (ExtractElement (j / vec * vec)
                                (j mod vec / wordNElems g)
                                (j mod vec mod wordNElems g))).
Proof.
  intros H numElems. unfold LoadOpResult. rewrite H.
  unfold LoadOpConversion in H.
  destruct (ld_resultElemTy op) as [ty|]; [|discriminate].
  destruct (loadBody getElemsPerThread op ty) as [asms'|] eqn:Hb;
    [|discriminate].
  injection H as ->.
  destruct (loadBody_inv op ty asms Hb)
    as (ptrElems & maskElems & otherElems & vec & Hptr & Hvec & Hvpos & Hmap).
  fold numElems in Hptr, Hmap.
  exists ty, vec. split; [reflexivity|]. split; [exact Hvec|].
  intros Hn Hbits.
  pose proof (valueElemNbits_pos ty) as Hnb.
  assert (Hg : exists g,
             vecGroup (valueElemNbits ty) vec (i32 (Z.quot numElems vec))
                      numElems = Some g).
  { destruct (vecStarts (Z.to_nat numElems) 0 numElems vec) as [|s0 rest] eqn:Es.
    - exfalso. apply (vecStarts_nonempty numElems vec); [lia|exact Es].
    - apply mapM_Some_1 in Hmap. inversion Hmap as [|? asm0 ? ? H0 _]; subst.
      unfold loadGroup in H0. apply bind_Some in H0 as (g & Hg & _). eauto. }
  destruct Hg as (g & Hg).
  assert (Hnb' : 0 < valueElemNbits ty) by lia.
  destruct (vecGroup_exact _ _ _ _ Hnb' Hvpos Hbits Hn Hg)
    as (_ & _ & _ & HW & Hdiv).
  assert (Hk : numElems = numElems / vec * vec).
  { pose proof (Z.div_mod numElems vec ltac:(lia)). lia. }
  set (k := numElems / vec) in *.
  assert (Hk0 : 0 <= k) by (apply Z.div_pos; lia).
  destruct (vecStarts_multiples k vec Hk0 Hvpos) as [Hsl Hsat].
  rewrite <- Hk in Hsl, Hsat.
  assert (HnW : 1 <= nWords g).
  { pose proof Hg as Hg2. unfold vecGroup in Hg2.
    apply bind_Some in Hg2 as (q & _ & Hg2).
    apply bind_Some in Hg2 as (w & _ & Hg2).
    destruct (_ =? _); [|discriminate]. injection Hg2 as <-. simpl. lia. }
  assert (HWpos : 0 < wordNElems g) by nia.
  set (F := fun vecStart : Z =>
              (fun ii => ExtractElement vecStart (ii / wordNElems g)
                                        (ii mod wordNElems g))
                <$> seqZ 0 vec).
  assert (Hgroups :
            mapM (fun vecStart =>
                    g ← vecGroup (valueElemNbits ty) vec
                                 (i32 (Z.quot numElems vec)) numElems;
                    loadedValsOfGroup (valueElemNbits ty) vec g vecStart)
                 (vecStarts (Z.to_nat numElems) 0 numElems vec)
            = Some (F <$> vecStarts (Z.to_nat numElems) 0 numElems vec)).
  { apply mapM_fmap_Some. intros s _. rewrite Hg. cbn [mbind option_bind].
    unfold loadedValsOfGroup. rewrite (vecGroup_wordNElems _ _ _ _ _ Hg).
    cbn [mbind option_bind]. apply mapM_fmap_Some. intros ii Hii.
    apply elem_of_seqZ in Hii.
    assert (Hq : 0 <= ii / wordNElems g < nWords g).
    { split; [apply Z.div_pos; lia|apply Z.div_lt_upper_bound; nia]. }
    rewrite divT_pos, remT_pos by lia. cbn [mbind option_bind].
    rewrite at_seqZ by exact Hq. reflexivity. }
  exists g, (concat (F <$> vecStarts (Z.to_nat numElems) 0 numElems vec)).
  split; [exact Hg|]. split; [exact HW|].
  assert (Huni : Forall (fun l => length l = Z.to_nat vec)
                   (F <$> vecStarts (Z.to_nat numElems) 0 numElems vec)).
  { apply Forall_fmap, Forall_forall. intros s _. unfold F. simpl.
    now rewrite length_fmap, length_seqZ. }
  split.
  { unfold loadedVals. fold numElems. rewrite Hvec. cbn [mbind option_bind].
    rewrite divT_pos by lia. cbn [mbind option_bind].
    rewrite Z.quot_div_nonneg in Hgroups by lia.
    rewrite Hgroups. reflexivity. }
  split.
  { rewrite (concat_length_uniform _ _ Huni), length_fmap.
    rewrite Hsl. nia. }
  intros j Hj.
  assert (Hgj : 0 <= j / vec < k).
  { split; [apply Z.div_pos; lia|apply Z.div_lt_upper_bound; lia]. }
  assert (Hr : 0 <= j mod vec < vec) by (apply Z.mod_pos_bound; lia).
  assert (Hjs : j = vec * (j / vec) + j mod vec) by (apply Z.div_mod; lia).
  unfold at_. destruct (Z.ltb_spec j 0); [lia|].
  replace (Z.to_nat j)
    with (Z.to_nat (j / vec) * Z.to_nat vec + Z.to_nat (j mod vec))%nat by nia.
  rewrite (concat_lookup_uniform _ _ Huni) by lia.
  rewrite list_lookup_fmap.
  pose proof (Hsat _ Hgj) as Hs. unfold at_ in Hs.
  destruct (Z.ltb_spec (j / vec) 0); [lia|].
  rewrite Hs. cbn [fmap option_fmap option_map mbind option_bind].
  unfold F. rewrite list_lookup_fmap, lookup_seqZ_lt by lia.
  cbn [fmap option_fmap option_map]. do 2 f_equal; f_equal; lia.
Qed.

End MemoryAccessPositions.

Lemma access_address_witness :
  exists w n p args pred,
    at_ (recordOf (st_ptr exampleStore)) (Z.of_nat 0 * 4) = Some p /\
    [PtxSt 32 4 (AddrOperand (Scalar (RecordElem 100)) "l" 0)
       [BoundOperand (PackedWord 32 [RecordElem 200]) "r";
        BoundOperand (PackedWord 32 [RecordElem 201]) "r";
        BoundOperand (PackedWord 32 [RecordElem 202]) "r";
        BoundOperand (PackedWord 32 [RecordElem 203]) "r"]
       (ConstI1 1) : PtxInstr Z]
    = [PtxSt w n (AddrOperand (Scalar (RecordElem p)) "l" 0) args pred].
Proof.
  assert (H : StoreOpConversion blockedElemsPerThread exampleStore
              = Rewritten
                  [[PtxSt 32 4 (AddrOperand (Scalar (RecordElem 100)) "l" 0)
                      [BoundOperand (PackedWord 32 [RecordElem 200]) "r";
                       BoundOperand (PackedWord 32 [RecordElem 201]) "r";
                       BoundOperand (PackedWord 32 [RecordElem 202]) "r";
                       BoundOperand (PackedWord 32 [RecordElem 203]) "r"]
                      (ConstI1 1)]])
    by (vm_compute; reflexivity).
  destruct (proj1 (access_address Z blockedElemsPerThread) exampleStore _ H)
    as (vec & Hvec & Hp).
  vm_compute in Hvec. injection Hvec as <-.
  exact (Hp 0%nat _ eq_refl).
Defined.

Lemma store_packs_every_element_witness :
  exists g x addr args pred elems,
    vecGroup 32 4 (i32 (Z.quot 4 4)) 4 = Some g /\
    wordNElems g * nWords g = 4 /\
    at_ (recordOf (st_value exampleStore)) 2 = Some x /\
    at_ [[PtxSt 32 4 (AddrOperand (Scalar (RecordElem 100)) "l" 0)
            [BoundOperand (PackedWord 32 [RecordElem 200]) "r";
             BoundOperand (PackedWord 32 [RecordElem 201]) "r";
             BoundOperand (PackedWord 32 [RecordElem 202]) "r";
             BoundOperand (PackedWord 32 [RecordElem 203]) "r"]
            (ConstI1 1)]] (2 / 4)
      = Some [PtxSt (width g) (nWords g) addr args pred] /\
    at_ args (2 mod 4 / wordNElems g)
      = Some (BoundOperand (PackedWord (width g) elems)
                           (constraintOf (width g))) /\
    at_ elems (2 mod 4 mod wordNElems g) = Some (RecordElem x).
Proof.
  assert (H : StoreOpConversion blockedElemsPerThread exampleStore
              = Rewritten
                  [[PtxSt 32 4 (AddrOperand (Scalar (RecordElem 100)) "l" 0)
                      [BoundOperand (PackedWord 32 [RecordElem 200]) "r";
                       BoundOperand (PackedWord 32 [RecordElem 201]) "r";
                       BoundOperand (PackedWord 32 [RecordElem 202]) "r";
                       BoundOperand (PackedWord 32 [RecordElem 203]) "r"]
                      (ConstI1 1)]])
    by (vm_compute; reflexivity).
  destruct (store_packs_every_element Z blockedElemsPerThread exampleStore _ H)
    as (ty & vec & Hty & Hvec & Hrest).
  vm_compute in Hty. injection Hty as <-.
  vm_compute in Hvec. injection Hvec as <-.
  assert (Hn : 0 < u32 (blockedElemsPerThread (st_ptrLayout exampleStore)
                          (shapeOf (st_ptr exampleStore))) < 2 ^ 31)
    by (vm_compute; split; reflexivity).
  assert (Hb : valueElemNbits (FloatType 32) * 4 < 2 ^ 31)
    by (vm_compute; reflexivity).
  destruct (Hrest Hn Hb) as (g & Hg & HW & _ & Hpos).
  change (u32 (blockedElemsPerThread (st_ptrLayout exampleStore)
                 (shapeOf (st_ptr exampleStore)))) with 4 in Hg, Hpos.
  change (valueElemNbits (FloatType 32)) with 32 in Hg.
  destruct (Hpos 2 ltac:(lia))
    as (x & addr & args & pred & elems & Hx & Hasm & _ & Hargs & _ & Hel).
  exists g, x, addr, args, pred, elems. auto 10.
Defined.

Lemma load_unpacks_every_element_witness :
  exists g vals,
    vecGroup 16 4 (i32 (Z.quot 4 4)) 4 = Some g /\
    wordNElems g * nWords g = 4 /\
    LoadOpResult blockedElemsPerThread exampleLoad = Some vals /\
    Z.of_nat (length vals) = 4 /\
    at_ vals 3
      = Some (ExtractElement (3 / 4 * 4) (3 mod 4 / wordNElems g)
                             (3 mod 4 mod wordNElems g)).
Proof.
  destruct (LoadOpConversion blockedElemsPerThread exampleLoad)
    as [asms| |] eqn:H; try (vm_compute in H; discriminate).
  destruct (load_unpacks_every_element Z blockedElemsPerThread exampleLoad _ H)
    as (ty & vec & Hty & Hvec & Hrest).
  vm_compute in Hty. injection Hty as <-.
  vm_compute in Hvec. injection Hvec as <-.
  assert (Hn : 0 < u32 (blockedElemsPerThread (ld_ptrLayout exampleLoad)
                          (shapeOf (ld_ptr exampleLoad))) < 2 ^ 31)
    by (vm_compute; split; reflexivity).
  assert (Hb : valueElemNbits (IntegerType 16) * 4 < 2 ^ 31)
    by (vm_compute; reflexivity).
  destruct (Hrest Hn Hb) as (g & vals & Hg & HW & Hres & Hlen & Hpos).
  change (u32 (blockedElemsPerThread (ld_ptrLayout exampleLoad)
                 (shapeOf (ld_ptr exampleLoad)))) with 4 in Hg, Hlen, Hpos.
  change (valueElemNbits (IntegerType 16)) with 16 in Hg.
  exists g, vals. repeat split; try assumption.
  apply Hpos. lia.
Defined.

(** ** Broadcast without a broadcast dimension *)

Section IndexAnyLinear.

Variable wrap : Z -> Z.
Variable M : Z.
Hypothesis wrap_small : forall x, 0 <= x < M -> wrap x = x.

(** In either integer type the conversions round-trip every representable
    linear index, the first extent playing no role. *)
Lemma getMultiDimIndex_any_linear (s0 : Z) (tl : list Z) (i : Z) :
  Forall (fun s => 0 < s) tl ->
  prodZ tl < M ->
  0 <= i < M ->
  exists md,
    getMultiDimIndex wrap i (s0 :: tl) = Some md /\
    getLinearIndex wrap md (s0 :: tl) = Some i.
Proof.
  intros Hpos HM Hi.
  pose proof (prodZ_pos tl Hpos) as Hp.
  assert (Hr : 0 <= i mod prodZ tl < prodZ tl) by (apply Z.mod_pos_bound; lia).
  assert (Hq : 0 <= i / prodZ tl) by (apply Z.div_pos; lia).
  assert (Hsplit : i = i / prodZ tl * prodZ tl + i mod prodZ tl).
  { rewrite (Z.div_mod i (prodZ tl)) at 1 by lia. lia. }
  destruct (getMultiDimIndex_loop_spec wrap M wrap_small tl
              (i mod prodZ tl) Hpos Hr) as (md & Hmd & HF & Hlin).
  exists (i / prodZ tl :: md). unfold getMultiDimIndex, getLinearIndex.
  assert (Hacc : acc_mul_init wrap (s0 :: tl) = prodZ tl).
  { unfold acc_mul_init. simpl tail.
    rewrite (fold_wrap_prodZ wrap M wrap_small); [lia|assumption|lia|lia]. }
  rewrite Hacc.
  cbn [getMultiDimIndex_loop getLinearIndex_loop].
  rewrite divT_pos, remT_pos by lia.
  rewrite (acc_mul_next_prodZ tl Hpos).
  cbn [mbind option_bind]. rewrite Hmd. cbn [mbind option_bind].
  split; [reflexivity|].
  rewrite (wrap_small (i / prodZ tl * prodZ tl)) by nia.
  rewrite wrap_small by nia.
  rewrite Hlin by nia. f_equal. lia.
Qed.

End IndexAnyLinear.

Lemma logicalDim_same_shape layout shape d x :
  logicalDim layout shape shape d = Some x ->
  broadcasts x = false /\ srcTiles x = resultTiles x /\
  srcElemsInTile x = resultElemsInTile x.
Proof.
  unfold logicalDim. intros H.
  apply bind_Some in H as (s & Hs & H). rewrite Hs in H.
  cbn [mbind option_bind] in H.
  apply bind_Some in H as (spt_d & _ & H).
  apply bind_Some in H as (tpw_d & _ & H).
  apply bind_Some in H as (wpc_d & _ & H).
  rewrite Z.eqb_refl in H. cbn [negb] in H. injection H as <-. auto.
Qed.

Lemma broadcastDimsFrom_none dims : forall d,
  Forall (fun x => broadcasts x = false) dims -> broadcastDimsFrom d dims = [].
Proof.
  induction dims as [|x dims IH]; intros d H; [reflexivity|].
  inversion H as [|? ? Hx Hrest]; subst. simpl. rewrite Hx. now apply IH.
Qed.

(** X17: a broadcast between equal shapes is the identity on the record:
    with no broadcast dimension every element of the source record is
    written once, at its own position.  The logical shape is the one the
    lowering computes: tile counts, then elements per tile. *)
Theorem broadcast_same_shape_identity (V : Type)
    (getElemsPerThread : BlockedEncodingAttr -> list Z -> Z)
    (layout : BlockedEncodingAttr) (shape : list Z) (src : list V)
    (dims : list LogicalDim) :
  shape <> [] ->
  mapM (logicalDim layout shape shape) (seqZ 0 (Z.of_nat (length shape)))
    = Some dims ->
  Forall (fun s => 0 < s) (tail (srcLogicalShapeOf dims)) ->
  prodZ (tail (srcLogicalShapeOf dims)) < 2 ^ 63 ->
  u32 (getElemsPerThread layout shape) <= Z.of_nat (length src) ->
  BroadcastOpConversion getElemsPerThread
    {| bc_srcShape := shape; bc_resultShape := shape;
       bc_srcLayout := Blocked layout; bc_resultLayout := Blocked layout;
       bc_src := src |}
  = Rewritten (Some <$> take (Z.to_nat (u32 (getElemsPerThread layout shape)))
                             src).
Proof.
  intros Hne Hdims Hpos Hprod Hsrc.
  set (n := u32 (getElemsPerThread layout shape)) in *.
  assert (Hn : 0 <= n < 2 ^ 32) by apply u32_range.
  (* the logical shapes *)
  assert (Hall : Forall (fun x => broadcasts x = false /\
                                  srcTiles x = resultTiles x /\
                                  srcElemsInTile x = resultElemsInTile x) dims).
  { apply Forall_forall. intros x Hx.
    destruct (mapM_elem_of _ _ _ _ Hdims Hx) as (d & _ & Hd).
    exact (logicalDim_same_shape _ _ _ _ Hd). }
  assert (Hsame : resultLogicalShapeOf dims = srcLogicalShapeOf dims).
  { unfold resultLogicalShapeOf, srcLogicalShapeOf. f_equal.
    - apply map_ext_Forall. eapply Forall_impl; [exact Hall|].
      simpl. intros x (_ & E & _). congruence.
    - apply map_ext_Forall. eapply Forall_impl; [exact Hall|].
      simpl. intros x (_ & _ & E). congruence. }
  assert (Hnone : broadcastDimsFrom 0 dims = []).
  { apply broadcastDimsFrom_none. eapply Forall_impl; [exact Hall|].
    simpl. tauto. }
  assert (HL : exists s0 tl, srcLogicalShapeOf dims = s0 :: tl).
  { pose proof (length_mapM _ _ _ Hdims) as Hl. rewrite length_seqZ in Hl.
    destruct dims as [|x dims]; [destruct shape; [congruence|simpl in Hl; lia]|].
    unfold srcLogicalShapeOf. simpl. eauto. }
  destruct HL as (s0 & tl & HL). rewrite HL in Hpos, Hprod. simpl tail in *.
  (* the source values *)
  assert (Hsv : mapM (at_ src) (seqZ 0 n) = Some (take (Z.to_nat n) src)).
  { rewrite mapM_at_seqZ by lia. now rewrite drop_0. }
  set (srcVals := take (Z.to_nat n) src) in *.
  assert (Hlsv : length srcVals = Z.to_nat n).
  { unfold srcVals. rewrite length_take. lia. }
  set (target := resultLinearIndexOf (Z.of_nat (length shape))
                   (srcLogicalShapeOf dims) (srcLogicalShapeOf dims) [] []).
  assert (Htarget : forall i, 0 <= i < n -> target i 0 = Some i).
  { intros i Hi. unfold target, resultLinearIndexOf. rewrite HL.
    destruct (getMultiDimIndex_any_linear i64 (2 ^ 63) i64_small_nonneg
                s0 tl i Hpos Hprod ltac:(lia)) as (md & Hmd & Hlin).
    rewrite Hmd. cbn [mbind option_bind]. exact Hlin. }
  destruct (fold_writes
              (fun acc i => fold_left (broadcastWrite target srcVals i) [0] acc)
              (fun i : Z => i) (fun i => srcVals !! Z.to_nat i) (seqZ 0 n)
              (replicate (Z.to_nat n) None))
    as (resultVals & Hfold & Hlen & _ & Hat).
  { intros i a Hi. apply elem_of_seqZ in Hi. cbn [fold_left].
    unfold broadcastWrite. cbn [mbind option_bind].
    rewrite Htarget by lia. cbn [mbind option_bind].
    destruct (at_lt srcVals i ltac:(lia)) as [v Hv]. rewrite Hv.
    cbn [mbind option_bind]. f_equal.
    unfold at_ in Hv. destruct (Z.ltb_spec i 0); [lia|]. now rewrite Hv. }
  { apply Forall_forall. intros i Hi. apply elem_of_seqZ in Hi.
    rewrite length_replicate. lia. }
  rewrite length_replicate in Hlen.
  assert (Hres : resultVals = Some <$> srcVals).
  { apply list_eq. intros k. rewrite list_lookup_fmap.
    destruct (Nat.lt_ge_cases k (Z.to_nat n)) as [Hk|Hk].
    - specialize (Hat (Z.of_nat k) (srcVals !! k)).
      unfold at_ in Hat. destruct (Z.ltb_spec (Z.of_nat k) 0); [lia|].
      rewrite Nat2Z.id in Hat. rewrite Hat.
      + destruct (lookup_lt_is_Some_2 srcVals k ltac:(lia)) as [v ->].
        reflexivity.
      + exists (Z.of_nat k). split; [apply elem_of_seqZ; lia|reflexivity].
      + intros p _ ->. now rewrite Nat2Z.id.
    - rewrite (lookup_ge_None_2 resultVals) by lia.
      rewrite (lookup_ge_None_2 srcVals) by lia. reflexivity. }
  unfold BroadcastOpConversion. cbn [bc_srcLayout bc_resultLayout].
  rewrite decide_True by reflexivity.
  unfold broadcastBody. cbn [bc_srcShape bc_resultShape bc_src].
  rewrite option_guard_True by reflexivity. cbn [mbind option_bind].
  rewrite Hdims. cbn [mbind option_bind].
  rewrite Hsame, Hnone. cbn [mapM mret option_ret mbind option_bind].
  cbn [broadcastSizesOf duplicatesOf map app fold_left].
  fold n. rewrite Hsv. cbn [mbind option_bind].
  change (seqZ 0 1) with [0]. fold srcVals target.
  rewrite Hfold, Hres. reflexivity.
Qed.

Lemma broadcast_same_shape_identity_witness :
  BroadcastOpConversion blockedElemsPerThread
    {| bc_srcShape := [256; 4]; bc_resultShape := [256; 4];
       bc_srcLayout := Blocked exampleLayout2d;
       bc_resultLayout := Blocked exampleLayout2d;
       bc_src := seqZ 700 16 |}
  = Rewritten
      (Some <$> take (Z.to_nat (u32 (blockedElemsPerThread exampleLayout2d
                                       [256; 4])))
                     (seqZ 700 16)).
Proof.
  apply (broadcast_same_shape_identity Z blockedElemsPerThread exampleLayout2d
           [256; 4] (seqZ 700 16)
           [ {| srcTiles := 2; srcElemsInTile := 2; resultTiles := 2;
                resultElemsInTile := 2; broadcasts := false |};
             {| srcTiles := 2; srcElemsInTile := 2; resultTiles := 2;
                resultElemsInTile := 2; broadcasts := false |} ]).
  - discriminate.
  - vm_compute. reflexivity.
  - repeat constructor.
  - vm_compute. reflexivity.
  - vm_compute. discriminate.
Defined.

(** ** What a broadcast refuses *)

Lemma mapM_seqZ_None {B} (f : Z -> option B) n d :
  0 <= d < n -> f d = None -> mapM f (seqZ 0 n) = None.
Proof.
  intros Hd Hf. destruct (mapM f (seqZ 0 n)) as [l|] eqn:E; [|reflexivity].
  destruct (mapM_seqZ_at _ _ _ E) as [_ Hat].
  destruct (Hat d Hd) as (y & _ & Hy). congruence.
Qed.

(** X18: a broadcast stops at an assertion when the source layout is not
    a Blocked layout, when the two layouts differ, when the ranks differ,
    and when an extent of the source differs from the extent of the result
    without being 1. *)
Theorem broadcast_rejects (V : Type)
    (getElemsPerThread : BlockedEncodingAttr -> list Z -> Z)
    (op : BroadcastOp V) :
  ((forall b, bc_srcLayout op <> Blocked b) ->
   BroadcastOpConversion getElemsPerThread op = Aborted) /\
  (bc_srcLayout op <> bc_resultLayout op ->
   BroadcastOpConversion getElemsPerThread op = Aborted) /\
  (length (bc_srcShape op) <> length (bc_resultShape op) ->
   BroadcastOpConversion getElemsPerThread op = Aborted) /\
  (forall d s r,
     at_ (bc_srcShape op) d = Some s -> at_ (bc_resultShape op) d = Some r ->
     s <> r -> s <> 1 ->
     BroadcastOpConversion getElemsPerThread op = Aborted).
Proof.
  unfold BroadcastOpConversion. repeat split.
  - intros Hs. destruct (bc_srcLayout op) as [b| | |]; try reflexivity.
    destruct (Hs b eq_refl).
  - intros Hne. destruct (bc_srcLayout op) as [s| | |]; try reflexivity.
    destruct (bc_resultLayout op) as [r| | |]; try reflexivity.
    destruct (decide (s = r)) as [->|]; [congruence|reflexivity].
  - intros Hlen. destruct (bc_srcLayout op) as [s| | |]; try reflexivity.
    destruct (bc_resultLayout op) as [r| | |]; try reflexivity.
    destruct (decide (s = r)); [|reflexivity].
    unfold broadcastBody. rewrite option_guard_False by exact Hlen.
    reflexivity.
  - intros d s r Hs Hr Hsr Hs1.
    destruct (bc_srcLayout op) as [sl| | |]; try reflexivity.
    destruct (bc_resultLayout op) as [rl| | |]; try reflexivity.
    destruct (decide (sl = rl)); [|reflexivity].
    unfold broadcastBody.
    destruct (decide (length (bc_srcShape op) = length (bc_resultShape op)))
      as [Hlen|Hlen];
      [|rewrite option_guard_False by exact Hlen; reflexivity].
    rewrite option_guard_True by exact Hlen. cbn [mbind option_bind].
    rewrite (mapM_seqZ_None (logicalDim rl (bc_srcShape op) (bc_resultShape op))
               _ d); [reflexivity| |].
    + apply at_Some_lt in Hs. exact Hs.
    + unfold logicalDim. rewrite Hs, Hr. cbn [mbind option_bind].
      destruct (at_ (sizePerThread rl) d); [|reflexivity].
      destruct (at_ (threadsPerWarp rl) d); [|reflexivity].
      destruct (at_ (warpsPerCTA rl) d); [|reflexivity].
      cbn [mbind option_bind].
      destruct (Z.eqb_spec s r); [contradiction|]. cbn [negb].
      destruct (Z.eqb_spec s 1); [contradiction|reflexivity].
Qed.

Lemma broadcast_rejects_witness :
  BroadcastOpConversion blockedElemsPerThread
    {| bc_srcShape := [256; 2]; bc_resultShape := [256; 4];
       bc_srcLayout := Blocked exampleLayout2d;
       bc_resultLayout := Blocked exampleLayout2d;
       bc_src := seqZ 700 16 |} = Aborted.
Proof.
  apply (proj2 (proj2 (proj2
           (broadcast_rejects Z blockedElemsPerThread
              {| bc_srcShape := [256; 2]; bc_resultShape := [256; 4];
                 bc_srcLayout := Blocked exampleLayout2d;
                 bc_resultLayout := Blocked exampleLayout2d;
                 bc_src := seqZ 700 16 |}))) 1 2 4);
    [reflexivity|reflexivity|lia|lia].
Defined.

(** ** Conversion between layouts: plan, dimension order and accesses *)

(** X19: the replication plan of a dimension.  With [inPerCTA] and
    [outPerCTA] the regions the two layouts cover per pass, capped by the
    extent, the plan exists when the smaller region is not empty and
    divides the larger one; then source and destination cover the same
    region per round, [inNumCTAsEachRep * inPerCTA = outNumCTAsEachRep *
    outPerCTA], and at least one of the two factors is 1. *)
Theorem replicationPlan_covers (shape : list Z)
    (srcLayout dstLayout : BlockedEncodingAttr) (d s a b : Z) :
  at_ shape d = Some s ->
  getShapePerCTA srcLayout d = Some a ->
  getShapePerCTA dstLayout d = Some b ->
  let inPerCTA := Z.min (u32 s) a in
  let outPerCTA := Z.min (u32 s) b in
  let maxPerCTA := Z.max inPerCTA outPerCTA in
  0 < inPerCTA -> 0 < outPerCTA ->
  maxPerCTA mod Z.min inPerCTA outPerCTA = 0 ->
  exists p,
    replicationPlan shape srcLayout dstLayout d = Some p /\
    numReplicates_d p = ceil (u32 s) maxPerCTA /\
    inNumCTAsEachRep_d p * inPerCTA = maxPerCTA /\
    outNumCTAsEachRep_d p * outPerCTA = maxPerCTA /\
    (inNumCTAsEachRep_d p = 1 \/ outNumCTAsEachRep_d p = 1).
Proof.
  intros Hs Ha Hb inPerCTA outPerCTA maxPerCTA Hin Hout Hdiv.
  assert (Hri : maxPerCTA mod inPerCTA = 0).
  { unfold maxPerCTA in *. destruct (Z.le_ge_cases inPerCTA outPerCTA).
    - rewrite Z.min_l in Hdiv by lia. exact Hdiv.
    - rewrite Z.max_l by lia. apply Z.mod_same. lia. }
  assert (Hro : maxPerCTA mod outPerCTA = 0).
  { unfold maxPerCTA in *. destruct (Z.le_ge_cases inPerCTA outPerCTA).
    - rewrite Z.max_r by lia. apply Z.mod_same. lia.
    - rewrite Z.min_r in Hdiv by lia. exact Hdiv. }
  assert (Hmax : 0 < maxPerCTA) by (unfold maxPerCTA; lia).
  eexists. split.
  { unfold replicationPlan. rewrite Hs, Ha, Hb. cbn [mbind option_bind].
    fold inPerCTA outPerCTA maxPerCTA.
    rewrite !divT_pos, !remT_pos by lia. cbn [mbind option_bind].
    rewrite option_guard_True by (split; assumption). reflexivity. }
  cbn [numReplicates_d inNumCTAsEachRep_d outNumCTAsEachRep_d].
  pose proof (Z.div_mod maxPerCTA inPerCTA ltac:(lia)) as Hi.
  pose proof (Z.div_mod maxPerCTA outPerCTA ltac:(lia)) as Ho.
  split; [reflexivity|]. split; [lia|]. split; [lia|].
  unfold maxPerCTA. destruct (Z.le_ge_cases inPerCTA outPerCTA).
  - right. rewrite Z.max_r by lia. apply Z.div_same. lia.
  - left. rewrite Z.max_l by lia. apply Z.div_same. lia.
Qed.

Lemma replicationPlan_covers_witness :
  exists p,
    replicationPlan [128] exampleLayout (blocked1d 1 1) 0 = Some p /\
    numReplicates_d p = ceil (u32 128) (Z.max (Z.min (u32 128) 128)
                                              (Z.min (u32 128) 32)) /\
    inNumCTAsEachRep_d p * Z.min (u32 128) 128
      = Z.max (Z.min (u32 128) 128) (Z.min (u32 128) 32) /\
    outNumCTAsEachRep_d p * Z.min (u32 128) 32
      = Z.max (Z.min (u32 128) 128) (Z.min (u32 128) 32) /\
    (inNumCTAsEachRep_d p = 1 \/ outNumCTAsEachRep_d p = 1).
Proof.
  apply (replicationPlan_covers [128] exampleLayout (blocked1d 1 1) 0 128 128 32);
    vm_compute; reflexivity.
Defined.

(** X20: when the smaller region does not divide the larger one the plan
    stops at its assertion, and with it the whole conversion: nothing is
    emitted. *)
Theorem replicationPlan_indivisible (V : Type)
    (getElemsPerThread : BlockedEncodingAttr -> list Z -> Z)
    (op : ConvertLayoutOp V)
    (srcLayout dstLayout : BlockedEncodingAttr) (d s a b : Z) :
  cvt_srcLayout op = Blocked srcLayout ->
  cvt_dstLayout op = Blocked dstLayout ->
  at_ (cvt_shape op) d = Some s ->
  getShapePerCTA srcLayout d = Some a ->
  getShapePerCTA dstLayout d = Some b ->
  let inPerCTA := Z.min (u32 s) a in
  let outPerCTA := Z.min (u32 s) b in
  0 < inPerCTA -> 0 < outPerCTA ->
  Z.max inPerCTA outPerCTA mod Z.min inPerCTA outPerCTA <> 0 ->
  replicationPlan (cvt_shape op) srcLayout dstLayout d = None /\
  ConvertLayoutOpConversion getElemsPerThread op = Aborted.
Proof.
  intros Hsl Hdl Hs Ha Hb inPerCTA outPerCTA Hin Hout Hdiv.
  assert (Hplan : replicationPlan (cvt_shape op) srcLayout dstLayout d = None).
  { unfold replicationPlan. rewrite Hs, Ha, Hb. cbn [mbind option_bind].
    fold inPerCTA outPerCTA.
    rewrite !divT_pos, !remT_pos by lia. cbn [mbind option_bind].
    rewrite option_guard_False; [reflexivity|].
    intros [Hi Ho]. apply Hdiv.
    destruct (Z.le_ge_cases inPerCTA outPerCTA).
    - rewrite Z.min_l by lia. exact Hi.
    - rewrite Z.min_r by lia. exact Ho. }
  split; [exact Hplan|].
  unfold ConvertLayoutOpConversion. rewrite Hsl, Hdl.
  unfold convertBlocked.
  destruct (cvt_bufferOffset op); [|reflexivity].
  cbn [mbind option_bind].
  rewrite (mapM_seqZ_None
             (replicationPlan (cvt_shape op) srcLayout dstLayout)
             (Z.of_nat (length (cvt_shape op))) d
             (at_Some_lt _ _ _ Hs) Hplan).
  reflexivity.
Qed.

Lemma replicationPlan_indivisible_witness :
  ConvertLayoutOpConversion blockedElemsPerThread
    {| cvt_shape := [96];
       cvt_srcLayout := Blocked (blocked1d 3 1);
       cvt_dstLayout := Blocked (blocked1d 2 1);
       cvt_src := seqZ 500 3;
       cvt_bufferOffset := Some 0;
       cvt_scratch := {| paddedRepShape := [96]; inVec := 1; outVec := 1 |}
    |} = Aborted.
Proof.
  apply (replicationPlan_indivisible Z blockedElemsPerThread
           {| cvt_shape := [96];
              cvt_srcLayout := Blocked (blocked1d 3 1);
              cvt_dstLayout := Blocked (blocked1d 2 1);
              cvt_src := seqZ 500 3;
              cvt_bufferOffset := Some 0;
              cvt_scratch := {| paddedRepShape := [96];
                                inVec := 1; outVec := 1 |} |}
           (blocked1d 3 1) (blocked1d 2 1) 0 96 96 64);
    try (vm_compute; reflexivity).
  vm_compute. discriminate.
Defined.

Lemma reorder_lookup {T} (default : T) (input : list T) (ord : list Z) :
  length input = length ord ->
  Forall (fun o => 0 <= o < Z.of_nat (length ord)) ord ->
  NoDup ord ->
  exists result,
    reorder default input ord = Some result /\
    length result = length ord /\
    forall (i : nat) o x, ord !! i = Some o -> input !! i = Some x ->
      at_ result (Z.of_nat (length ord) - 1 - o) = Some x.
Proof.
  intros Hlen Hord Hnd. unfold reorder. rewrite Hlen, Nat.eqb_refl. simpl.
  destruct (fold_writes (reorder_step (Z.of_nat (length ord)))
              (fun z : Z * T => Z.of_nat (length ord) - 1 - fst z) snd
              (zip ord input) (replicate (length ord) default))
    as (result & Hres & Hlr & _ & Hset).
  { intros p a _. reflexivity. }
  { rewrite length_replicate. apply Forall_forall. intros [o v] Hin.
    apply elem_of_zip_l in Hin. simpl.
    rewrite Forall_forall in Hord. specialize (Hord o Hin). lia. }
  rewrite length_replicate in Hlr.
  exists result. repeat split; try assumption.
  intros i o x Hi Hx. apply Hset.
  - exists (o, x). split; [|reflexivity].
    apply list_elem_of_lookup. exists i.
    apply lookup_zip_with_Some. eauto.
  - intros [o' x'] Hin Ho'. simpl in *.
    assert (o' = o) by lia. subst o'.
    apply list_elem_of_lookup in Hin as [j Hj].
    apply lookup_zip_with_Some in Hj as (y & z & E & Hy & Hz).
    injection E as <- <-.
    assert (j = i) by (eapply NoDup_lookup; eauto). subst j. congruence.
Qed.

(** X21: [reorder] under an order that names every dimension once moves
    entry [i] of its input to position [rank - 1 - order[i]]: no entry is
    lost or overwritten. *)
Theorem reorder_places {T} (default : T) (input : list T) (ord : list Z) :
  length input = length ord ->
  Forall (fun o => 0 <= o < Z.of_nat (length ord)) ord ->
  NoDup ord ->
  exists result,
    reorder default input ord = Some result /\
    length result = length ord /\
    forall (i : nat) o x, ord !! i = Some o -> input !! i = Some x ->
      at_ result (Z.of_nat (length ord) - 1 - o) = Some x.
Proof. exact (reorder_lookup default input ord). Qed.

Lemma reorder_places_witness :
  exists result,
    reorder 0 [10; 20; 30] [1; 2; 0] = Some result /\
    length result = 3%nat /\
    forall (i : nat) o x, [1; 2; 0] !! i = Some o -> [10; 20; 30] !! i = Some x ->
      at_ result (Z.of_nat 3 - 1 - o) = Some x.
Proof.
  apply (reorder_places 0 [10; 20; 30] [1; 2; 0]).
  - reflexivity.
  - repeat constructor; simpl; lia.
  - apply (bool_decide_eq_true_1 (NoDup [1; 2; 0])). vm_compute. reflexivity.
Defined.

(** X22: with the row-major order [rank - 1, ..., 1, 0] (the last
    dimension varying fastest) [reorder] is the identity. *)
Theorem reorder_row_major {T} (default : T) (input : list T) :
  reorder default input (rev (seqZ 0 (Z.of_nat (length input)))) = Some input.
Proof.
  set (rank := length input).
  assert (Erev : rev (seqZ 0 (Z.of_nat rank)) = reverse (seqZ 0 (Z.of_nat rank)))
    by (unfold reverse; apply rev_alt).
  rewrite Erev.
  set (ord := reverse (seqZ 0 (Z.of_nat rank))).
  assert (Hlo : length ord = rank).
  { unfold ord. rewrite length_reverse, length_seqZ. lia. }
  destruct (reorder_lookup default input ord) as (result & Hres & Hlr & Hat).
  { now rewrite Hlo. }
  { apply Forall_forall. intros o Ho. unfold ord in Ho.
    apply elem_of_reverse, elem_of_seqZ in Ho. rewrite Hlo. lia. }
  { unfold ord. rewrite reverse_Permutation. apply NoDup_seqZ. }
  rewrite Hres. f_equal. apply list_eq. intros k.
  destruct (input !! k) as [x|] eqn:Ex.
  - pose proof (lookup_lt_Some _ _ _ Ex) as Hk. fold rank in Hk.
    assert (Hok : ord !! k = Some (Z.of_nat rank - 1 - Z.of_nat k)).
    { unfold ord. rewrite reverse_lookup by (rewrite length_seqZ; lia).
      rewrite length_seqZ. rewrite lookup_seqZ_lt by lia. f_equal. lia. }
    specialize (Hat k _ x Hok Ex). rewrite Hlo in Hat.
    unfold at_ in Hat.
    destruct (Z.ltb_spec (Z.of_nat rank - 1 - (Z.of_nat rank - 1 - Z.of_nat k)) 0);
      [lia|].
    rewrite <- Hat. f_equal. lia.
  - apply lookup_ge_None_2. apply lookup_ge_None_1 in Ex. fold rank in Ex. lia.
Qed.

Lemma elemIdsFrom_length fuel : forall e accum vec l,
  0 < vec -> 0 <= e -> accum + vec <= 2 ^ 32 ->
  elemIdsFrom fuel e accum vec = Some l ->
  Z.of_nat (length l) = Z.max 0 (ceil (accum - e) vec).
Proof.
  induction fuel as [|fuel IH]; intros e accum vec l Hv He Hb H.
  - simpl in H. destruct (Z.ltb_spec e accum) as [Hlt|Hge]; [discriminate|].
    injection H as <-.
    assert (Hc : ceil (accum - e) vec < 1).
    { unfold ceil. apply Z.div_lt_upper_bound; lia. }
    simpl. lia.
  - simpl in H. destruct (Z.ltb_spec e accum) as [Hlt|Hge].
    + apply bind_Some in H as (rest & Hrest & H). injection H as <-.
      unfold uadd in Hrest. rewrite u32_small in Hrest by lia.
      apply IH in Hrest; [|lia|lia|lia].
      rewrite (ceil_step (accum - e) vec Hv).
      replace (accum - (e + vec)) with (accum - e - vec) in Hrest by lia.
      assert (Hc : 0 <= ceil (accum - e - vec) vec).
      { unfold ceil. apply Z.div_pos; lia. }
      simpl length. lia.
    + injection H as <-.
      assert (Hc : ceil (accum - e) vec < 1).
      { unfold ceil. apply Z.div_lt_upper_bound; lia. }
      simpl. lia.
Qed.

Section ConvertLayoutAccesses.

Variable V : Type.

Lemma emitLoop_length {A} (k : nat)
    (f : A -> list (CvtValue V) -> option (list (SmemOp V) * list (CvtValue V)))
    l : forall vals r,
  (forall a v r', f a v = Some r' -> length (fst r') = k) ->
  emitLoop f l vals = Some r -> length (fst r) = (length l * k)%nat.
Proof.
  induction l as [|a l IH]; intros vals r Hf H; simpl in H.
  - injection H as <-. reflexivity.
  - apply bind_Some in H as (r1 & H1 & H).
    apply bind_Some in H as (r2 & H2 & H). injection H as <-.
    cbn [fst]. rewrite length_app, (Hf _ _ _ H1), (IH _ _ Hf H2).
    simpl. lia.
Qed.

Lemma emitLoop_preserve {A}
    (f : A -> list (CvtValue V) -> option (list (SmemOp V) * list (CvtValue V)))
    l : forall vals r,
  (forall a v r', f a v = Some r' -> snd r' = v) ->
  emitLoop f l vals = Some r -> snd r = vals.
Proof.
  induction l as [|a l IH]; intros vals r Hf H; simpl in H.
  - injection H as <-. reflexivity.
  - apply bind_Some in H as (r1 & H1 & H).
    apply bind_Some in H as (r2 & H2 & H). injection H as <-.
    cbn [snd]. rewrite (IH _ _ Hf H2). exact (Hf _ _ _ H1).
Qed.

Lemma processElem_one stNotRd layout rank shapePerCTA vec padded outOrd
    first rep inRep ctaId linearCTAId accum elemId
    (vals : list (CvtValue V)) r :
  processElem stNotRd layout rank shapePerCTA vec padded outOrd first rep
              inRep ctaId linearCTAId accum elemId vals = Some r ->
  (exists o, fst r = [o] /\ accessOf stNotRd vec o) /\
  (stNotRd = true -> snd r = vals).
Proof.
  unfold processElem. intros H.
  apply bind_Some in H as (md & _ & H).
  apply bind_Some in H as (off & _ & H).
  apply bind_Some in H as (ro & _ & H).
  apply bind_Some in H as (rs & _ & H).
  destruct stNotRd.
  - apply bind_Some in H as (valVec & Hvv & H). injection H as <-.
    split; [|reflexivity]. eexists. split; [reflexivity|].
    eexists _, _. split; [reflexivity|].
    apply length_mapM in Hvv. now rewrite length_seqZ in Hvv.
  - apply bind_Some in H as (vals' & _ & H). injection H as <-.
    split; [|discriminate]. eexists. split; [reflexivity|].
    eexists. reflexivity.
Qed.

(** X23: one call of [processReplicaBlocked] emits, for each of the
    [product(numCTAsEachRep)] tiles of the replica, one access per [vec]
    elements of the tile, every access being [vec] elements wide; in store
    mode the record of values is left as it was. *)
Theorem processReplicaBlocked_accesses stNotRd layout shape each rep vec padded
    outOrd (vals : list (CvtValue V)) ops vals' :
  processReplicaBlocked stNotRd layout shape each rep vec padded outOrd vals
    = Some (ops, vals') ->
  0 < vec -> product (sizePerThread layout) + vec <= 2 ^ 32 ->
  Z.of_nat (length ops)
    = product each * ceil (product (sizePerThread layout)) vec /\
  Forall (accessOf stNotRd vec) ops /\
  (stNotRd = true -> vals' = vals).
Proof.
  unfold processReplicaBlocked. intros H Hv Hb.
  apply bind_Some in H as (spc & _ & H).
  apply bind_Some in H as (numCTAs & _ & H).
  apply bind_Some in H as (first & _ & H).
  set (accum := product (sizePerThread layout)) in *.
  assert (Hacc : 0 <= accum < 2 ^ 32).
  { unfold accum, product. destruct (sizePerThread layout) as [|s l] using rev_ind.
    - simpl. lia.
    - rewrite fold_left_app. simpl. apply u32_range. }
  assert (Hc : 0 <= ceil accum vec).
  { unfold ceil. apply Z.div_pos; lia. }
  assert (Hcta : forall a v (r' : list (SmemOp V) * list (CvtValue V)),
             processCTA stNotRd layout (Z.of_nat (length shape)) numCTAs spc
                        each rep vec padded outOrd first accum a v = Some r' ->
             length (fst r') = Z.to_nat (ceil accum vec) /\
             Forall (accessOf stNotRd vec) (fst r') /\
             (stNotRd = true -> snd r' = v)).
  { intros a v r' Hr. unfold processCTA in Hr.
    apply bind_Some in Hr as (inRep & _ & Hr).
    apply bind_Some in Hr as (ctaIds & _ & Hr).
    apply bind_Some in Hr as (lin & _ & Hr).
    apply bind_Some in Hr as (elemIds & Hids & Hr).
    apply elemIdsFrom_length in Hids; [|lia|lia|lia].
    rewrite Z.sub_0_r in Hids.
    split; [|split].
    - rewrite (emitLoop_length 1 _ _ _ _ ltac:(
                 intros ? ? ? Hp; apply processElem_one in Hp
                   as [(o & -> & _) _]; reflexivity) Hr).
      lia.
    - eapply (emitLoop_Forall V); [|exact Hr].
      intros e v1 r1 Hp. apply processElem_one in Hp as [(o & -> & Ho) _].
      constructor; [exact Ho|constructor].
    - intros ->. eapply emitLoop_preserve; [|exact Hr].
      intros e v1 r1 Hp. apply processElem_one in Hp as [_ Hs]. now apply Hs. }
  split; [|split].
  - pose proof (emitLoop_length (Z.to_nat (ceil accum vec)) _ _ _ _ ltac:(
                  intros ? ? ? Hp; apply Hcta in Hp as [Hl _]; exact Hl) H)
      as Hlen.
    cbn [fst] in Hlen. rewrite Hlen, length_seqZ.
    assert (Hp : 0 <= product each).
    { unfold product. destruct each as [|s l] using rev_ind.
      - simpl. lia.
      - rewrite fold_left_app. simpl. apply u32_range. }
    nia.
  - change ops with (fst (ops, vals')).
    eapply (emitLoop_Forall V); [|exact H].
    intros a v r' Hp. apply Hcta in Hp as (_ & Hf & _). exact Hf.
  - intros ->. change vals' with (snd (ops, vals')).
    eapply emitLoop_preserve; [|exact H].
    intros a v r' Hp. apply Hcta in Hp as (_ & _ & Hs). now apply Hs.
Qed.

End ConvertLayoutAccesses.

Lemma processReplicaBlocked_accesses_witness :
  exists (ops : list (SmemOp Z)) vals',
    processReplicaBlocked true exampleLayout [128] [1] [0] 4 [128] [0]
      (FromRecord <$> [10; 11; 12; 13]) = Some (ops, vals') /\
    Z.of_nat (length ops)
      = product [1] * ceil (product (sizePerThread exampleLayout)) 4 /\
    Forall (accessOf true 4) ops /\
    vals' = FromRecord <$> [10; 11; 12; 13].
Proof.
  destruct (processReplicaBlocked true exampleLayout [128] [1] [0] 4 [128] [0]
              (FromRecord <$> [10; 11; 12; 13]))
    as [[ops vals']|] eqn:E; [|vm_compute in E; discriminate].
  assert (Hb : product (sizePerThread exampleLayout) + 4 <= 2 ^ 32)
    by (vm_compute; discriminate).
  destruct (processReplicaBlocked_accesses Z true exampleLayout [128] [1] [0] 4
              [128] [0] _ ops vals' E ltac:(lia) Hb) as (H1 & H2 & H3).
  exists ops, vals'. repeat split; auto.
Defined.

(** ** Patterns that rebuild a record element by element *)

Lemma getElementsFromStruct_take {V} (llvmStruct : list V) elems :
  0 <= elems <= Z.of_nat (length llvmStruct) ->
  getElementsFromStruct llvmStruct elems
  = Some (take (Z.to_nat elems) llvmStruct).
Proof.
  intros H. unfold getElementsFromStruct.
  rewrite mapM_at_seqZ by lia. now rewrite drop_0.
Qed.

Lemma getElementsFromStruct_short {V} (llvmStruct : list V) elems :
  Z.of_nat (length llvmStruct) < elems ->
  getElementsFromStruct llvmStruct elems = None.
Proof.
  intros H. unfold getElementsFromStruct.
  apply (mapM_seqZ_None _ _ (Z.of_nat (length llvmStruct))); [lia|].
  unfold at_. destruct (Z.ltb_spec (Z.of_nat (length llvmStruct)) 0); [lia|].
  apply lookup_ge_None_2. lia.
Qed.

(** X24: view-like operations do not touch the data: when the source
    record has the number of elements of the result type, the lowered
    result is the source record itself; a longer record is cut to that
    number and a shorter one stops the lowering at an out-of-range
    subscript. *)
Theorem view_like_identity (V : Type)
    (getElemsPerThreadOf : Attribute -> list Z -> Z) (op : ViewLikeOp V) :
  let elems :=
    u32 (getElemsPerThreadOf (vw_resultLayout op) (vw_resultShape op)) in
  (elems = Z.of_nat (length (vw_src op)) ->
   ViewLikeOpConversion getElemsPerThreadOf op = Rewritten (vw_src op)) /\
  (elems <= Z.of_nat (length (vw_src op)) ->
   ViewLikeOpConversion getElemsPerThreadOf op
   = Rewritten (take (Z.to_nat elems) (vw_src op))) /\
  (Z.of_nat (length (vw_src op)) < elems ->
   ViewLikeOpConversion getElemsPerThreadOf op = Aborted).
Proof.
  intros elems.
  assert (He : 0 <= elems) by apply u32_range.
  unfold ViewLikeOpConversion. fold elems. repeat split.
  - intros E. rewrite getElementsFromStruct_take by lia.
    rewrite take_ge by lia. reflexivity.
  - intros E. rewrite getElementsFromStruct_take by lia. reflexivity.
  - intros E. rewrite getElementsFromStruct_short by lia. reflexivity.
Qed.

Lemma view_like_identity_witness :
  ViewLikeOpConversion (fun _ _ => 4)
    {| vw_resultShape := [128; 1]; vw_resultLayout := Blocked exampleLayout;
       vw_src := [10; 11; 12; 13] |}
  = Rewritten [10; 11; 12; 13].
Proof.
  apply (proj1 (view_like_identity Z (fun _ _ => 4)
                  {| vw_resultShape := [128; 1];
                     vw_resultLayout := Blocked exampleLayout;
                     vw_src := [10; 11; 12; 13] |})).
  vm_compute. reflexivity.
Defined.

Lemma elementwise_spec {V} (create : V -> V -> ElementOp V) (a b : list V)
    (elems : Z) :
  0 <= elems ->
  (elems <= Z.of_nat (length a) -> elems <= Z.of_nat (length b) ->
   exists resultVals,
     elementwise create a b elems = Some resultVals /\
     Z.of_nat (length resultVals) = elems /\
     forall i, 0 <= i < elems ->
       exists x y, at_ a i = Some x /\ at_ b i = Some y /\
                   at_ resultVals i = Some (create x y)) /\
  (Z.of_nat (length a) < elems \/ Z.of_nat (length b) < elems ->
   elementwise create a b elems = None).
Proof.
  intros He. split.
  - intros Ha Hb. unfold elementwise.
    rewrite !getElementsFromStruct_take by lia. cbn [mbind option_bind].
    set (as_ := take (Z.to_nat elems) a). set (bs := take (Z.to_nat elems) b).
    assert (Hla : length as_ = Z.to_nat elems)
      by (unfold as_; rewrite length_take; lia).
    assert (Hlb : length bs = Z.to_nat elems)
      by (unfold bs; rewrite length_take; lia).
    destruct (mapM_seqZ_total
                (fun i => x ← at_ as_ i; y ← at_ bs i; Some (create x y)) elems)
      as [resultVals Hres].
    { intros k Hk. destruct (at_lt as_ k ltac:(lia)) as [x ->].
      destruct (at_lt bs k ltac:(lia)) as [y ->]. simpl. eauto. }
    exists resultVals. split; [exact Hres|].
    destruct (mapM_seqZ_at _ _ _ Hres) as [Hl Hat].
    split; [lia|]. intros i Hi.
    destruct (Hat i Hi) as (z & Hz & Hbody).
    apply bind_Some in Hbody as (x & Hx & Hbody).
    apply bind_Some in Hbody as (y & Hy & Hbody). injection Hbody as <-.
    exists x, y. repeat split; try assumption.
    + unfold as_, at_ in *. destruct (Z.ltb_spec i 0); [lia|].
      rewrite lookup_take_Some in Hx. tauto.
    + unfold bs, at_ in *. destruct (Z.ltb_spec i 0); [lia|].
      rewrite lookup_take_Some in Hy. tauto.
  - intros Hshort. unfold elementwise.
    destruct (Z.lt_ge_cases (Z.of_nat (length a)) elems) as [Ha|Ha].
    + rewrite (getElementsFromStruct_short a elems Ha). reflexivity.
    + destruct Hshort as [?|Hb]; [lia|].
      rewrite (getElementsFromStruct_take a elems) by lia.
      cbn [mbind option_bind].
      rewrite (getElementsFromStruct_short b elems Hb). reflexivity.
Qed.

(** X25: the binary arithmetic patterns and the pointer addition work
    element by element: over a Blocked result layout and operand records
    of at least [elems] fields, the result record has [elems] elements and
    element [i] is the operation applied to the elements [i] of the two
    operands.  A scalar binary operation is left to another pattern; a
    layout that is not Blocked or an operand record that is too short
    stops the lowering. *)
Theorem elementwise_patterns (V : Type)
    (getElemsPerThread : BlockedEncodingAttr -> list Z -> Z) :
  (forall (op : BinaryOp V),
     match bin_resultTy op with
     | None => BinaryOpConversion getElemsPerThread op = MatchFailure
     | Some (Blocked l, shape) =>
         let elems := u32 (getElemsPerThread l shape) in
         (elems <= Z.of_nat (length (bin_lhs op)) ->
          elems <= Z.of_nat (length (bin_rhs op)) ->
          exists resultVals,
            BinaryOpConversion getElemsPerThread op = Rewritten resultVals /\
            Z.of_nat (length resultVals) = elems /\
            forall i, 0 <= i < elems ->
              exists x y,
                at_ (bin_lhs op) i = Some x /\ at_ (bin_rhs op) i = Some y /\
                at_ resultVals i = Some (DestOp x y)) /\
         (Z.of_nat (length (bin_lhs op)) < elems \/
          Z.of_nat (length (bin_rhs op)) < elems ->
          BinaryOpConversion getElemsPerThread op = Aborted)
     | Some _ => BinaryOpConversion getElemsPerThread op = Aborted
     end) /\
  (forall (op : AddPtrOp V),
     match ap_resultLayout op with
     | Blocked l =>
         let elems := u32 (getElemsPerThread l (ap_resultShape op)) in
         (elems <= Z.of_nat (length (ap_ptr op)) ->
          elems <= Z.of_nat (length (ap_offset op)) ->
          exists resultVals,
            AddPtrOpConversion getElemsPerThread op = Rewritten resultVals /\
            Z.of_nat (length resultVals) = elems /\
            forall i, 0 <= i < elems ->
              exists p o,
                at_ (ap_ptr op) i = Some p /\ at_ (ap_offset op) i = Some o /\
                at_ resultVals i = Some (GEPOp p o)) /\
         (Z.of_nat (length (ap_ptr op)) < elems \/
          Z.of_nat (length (ap_offset op)) < elems ->
          AddPtrOpConversion getElemsPerThread op = Aborted)
     | _ => AddPtrOpConversion getElemsPerThread op = Aborted
     end).
Proof.
  split.
  - intros op. unfold BinaryOpConversion.
    destruct (bin_resultTy op) as [[layout shape]|]; [|reflexivity].
    destruct layout as [l| | |]; try reflexivity.
    cbv zeta. set (elems := u32 (getElemsPerThread l shape)).
    assert (He : 0 <= elems) by apply u32_range.
    destruct (elementwise_spec DestOp (bin_lhs op) (bin_rhs op) elems He)
      as [Hok Hshort].
    split.
    + intros Ha Hb. destruct (Hok Ha Hb) as (vals & -> & Hl & Hat). eauto.
    + intros Hs. rewrite (Hshort Hs). reflexivity.
  - intros op. unfold AddPtrOpConversion.
    destruct (ap_resultLayout op) as [l| | |]; try reflexivity.
    cbv zeta. set (elems := u32 (getElemsPerThread l (ap_resultShape op))).
    assert (He : 0 <= elems) by apply u32_range.
    destruct (elementwise_spec GEPOp (ap_ptr op) (ap_offset op) elems He)
      as [Hok Hshort].
    split.
    + intros Ha Hb. destruct (Hok Ha Hb) as (vals & -> & Hl & Hat). eauto.
    + intros Hs. rewrite (Hshort Hs). reflexivity.
Qed.

Lemma elementwise_patterns_witness :
  exists resultVals,
    BinaryOpConversion blockedElemsPerThread
      {| bin_resultTy := Some (Blocked exampleLayout, [128]);
         bin_lhs := [10; 11; 12; 13]; bin_rhs := [20; 21; 22; 23] |}
      = Rewritten resultVals /\
    Z.of_nat (length resultVals) = 4 /\
    at_ resultVals 2 = Some (DestOp 12 22).
Proof.
  pose proof (proj1 (elementwise_patterns Z blockedElemsPerThread)
                {| bin_resultTy := Some (Blocked exampleLayout, [128]);
                   bin_lhs := [10; 11; 12; 13];
                   bin_rhs := [20; 21; 22; 23] |}) as H.
  cbn [bin_resultTy bin_lhs bin_rhs] in H. cbv zeta in H.
  destruct H as [H _].
  destruct H as (resultVals & Hres & Hlen & Hat);
    [vm_compute; discriminate|vm_compute; discriminate|].
  change (u32 (blockedElemsPerThread exampleLayout [128])) with 4 in Hlen, Hat.
  exists resultVals. split; [exact Hres|]. split; [exact Hlen|].
  destruct (Hat 2 ltac:(lia)) as (x & y & Hx & Hy & Hr).
  vm_compute in Hx. injection Hx as <-.
  vm_compute in Hy. injection Hy as <-. exact Hr.
Defined.

(** ** A conversion between one-dimensional layouts, end to end *)

Lemma getLinearIndex_one x T : 0 <= x < 2 ^ 32 -> getLinearIndex u32 [x] [T] = Some x.
Proof.
  intros Hx. unfold getLinearIndex, acc_mul_init.
  cbn [tail fold_left getLinearIndex_loop acc_mul_next mbind option_bind].
  rewrite Z.mul_1_r, Z.add_0_l, (u32_small x), (u32_small x) by lia. reflexivity.
Qed.

Lemma mapM_at_offset {A} (t : list A) a n :
  0 <= a -> 0 <= n -> a + n <= Z.of_nat (length t) ->
  mapM (fun v => at_ t (a + v)) (seqZ 0 n)
  = Some (take (Z.to_nat n) (drop (Z.to_nat a) t)).
Proof.
  intros Ha Hn Hlen. apply mapM_Some.
  apply Forall2_same_length_lookup_2.
  - rewrite length_seqZ, length_take, length_drop. lia.
  - intros i x y Hx Hy. apply lookup_seqZ in Hx as [-> Hi].
    rewrite lookup_take_Some in Hy. destruct Hy as [Hy _].
    rewrite lookup_drop in Hy. unfold at_.
    destruct (Z.ltb_spec (a + (0 + Z.of_nat i)) 0); [lia|].
    rewrite <- Hy. f_equal. lia.
Qed.

Lemma mapM_ext_in {A B} (f g : A -> option B) (l : list A) :
  (forall x, x ∈ l -> f x = g x) -> mapM f l = mapM g l.
Proof.
  induction l as [|a l IH]; intros H; [reflexivity|].
  cbn [mapM]. rewrite (H a) by apply list_elem_of_here.
  rewrite IH; [reflexivity|]. intros x Hx. apply H, list_elem_of_further, Hx.
Qed.

(** The loop over [elemId] visits the multiples of the vector width when
    the width divides the number of elements of a tile. *)
Lemma elemIdsFrom_multiples k vec :
  0 <= k -> 0 < vec -> k * vec + vec <= 2 ^ 32 ->
  elemIdsFrom (Z.to_nat (k * vec)) 0 (k * vec) vec
  = Some ((fun i => i * vec) <$> seqZ 0 k).
Proof.
  intros Hk Hv Hb.
  assert (H : forall (n : nat) fuel i,
             0 <= i -> i + Z.of_nat n = k -> (Z.to_nat (Z.of_nat n * vec) <= fuel)%nat ->
             elemIdsFrom fuel (i * vec) (k * vec) vec
             = Some ((fun j => j * vec) <$> seqZ i (Z.of_nat n))).
  { induction n as [|n IH]; intros fuel i Hi Hin Hf.
    - assert (i = k) by lia. subst i.
      destruct fuel; simpl; rewrite Z.ltb_irrefl; reflexivity.
    - destruct fuel as [|fuel]; [nia|].
      cbn [elemIdsFrom].
      destruct (Z.ltb_spec (i * vec) (k * vec)) as [_|Hge]; [|nia].
      unfold uadd. rewrite u32_small by nia.
      replace (i * vec + vec) with ((i + 1) * vec) by lia.
      rewrite (IH fuel (i + 1)) by nia. cbn [mbind option_bind].
      replace (Z.of_nat (S n)) with (1 + Z.of_nat n) by lia.
      rewrite (seqZ_app i 1) by lia. reflexivity. }
  specialize (H (Z.to_nat k) (Z.to_nat (k * vec)) 0).
  rewrite Z2Nat.id in H by lia. rewrite Z.mul_0_l in H.
  apply H; lia.
Qed.

Lemma at_take_drop {A} (l : list A) a n v :
  0 <= a -> 0 <= v < n -> at_ (take (Z.to_nat n) (drop (Z.to_nat a) l)) v = at_ l (a + v).
Proof.
  intros Ha Hv. unfold at_.
  destruct (Z.ltb_spec v 0); [lia|]. destruct (Z.ltb_spec (a + v) 0); [lia|].
  rewrite lookup_take_lt by lia. rewrite lookup_drop. f_equal. lia.
Qed.

Lemma elem_of_concat_2 {A} (x : A) l ls : l ∈ ls -> x ∈ l -> x ∈ concat ls.
Proof.
  intros Hl Hx. apply list_elem_of_In. apply in_concat. exists l.
  split; apply list_elem_of_In; assumption.
Qed.

(** Membership in the operations of two nested loops, the outer one over
    the tiles [0 .. each) and the inner one over the multiples of [vec]. *)
Lemma elem_of_tile_vectors {A} (h : Z -> Z -> A) each k vec cta i :
  0 <= cta < each -> 0 <= i < k ->
  h cta (i * vec)
  ∈ concat ((fun c => concat ((fun e => [h c e])
                                <$> ((fun j => j * vec) <$> seqZ 0 k)))
              <$> seqZ 0 each).
Proof.
  intros Hc Hi.
  apply (elem_of_concat_2 _
           (concat ((fun e => [h cta e]) <$> ((fun j => j * vec) <$> seqZ 0 k)))).
  - apply (list_elem_of_fmap_2
             (fun c => concat ((fun e => [h c e])
                                 <$> ((fun j => j * vec) <$> seqZ 0 k)))).
    apply elem_of_seqZ. lia.
  - apply (elem_of_concat_2 _ [h cta (i * vec)]).
    + apply (list_elem_of_fmap_2 (fun e => [h cta e])).
      apply (list_elem_of_fmap_2 (fun j => j * vec)).
      apply elem_of_seqZ. lia.
    + apply list_elem_of_here.
Qed.

(** The index [x] that a lane owns at position [n] of its list, against
    the iteration that handles slot [n] of its record: the round is
    [x / (each * period)], and the offset emitted for the iteration
    evaluates on the lane to [x mod (each * period)] less the position in
    the vector. *)
Lemma lane_slot_address w R spt each vec tid n :
  0 < w -> 0 < R -> 0 < spt -> 0 < each -> 0 < vec -> spt mod vec = 0 ->
  R * each * (spt * 32 * w) < 2 ^ 31 ->
  0 <= tid < 32 * w -> 0 <= n < R * each * spt ->
  let x := spt * tid + (n / spt * (spt * 32 * w) + n mod spt) in
  let r := n / spt / each in
  let cta := (n / spt) mod each in
  let e := (n mod spt) / vec * vec in
  let v := (n mod spt) mod vec in
  r = x / (each * (spt * 32 * w)) /\
  0 <= r < R /\ 0 <= cta < each /\ 0 <= (n mod spt) / vec < spt / vec /\
  0 <= v < vec /\
  n = e + (r * each + cta) * spt + v /\
  eval tid
    (Add (Mul (IndexConst spt)
              (Add (URem laneId (IndexConst (R * each * 32 * w)))
                   (Mul (URem warpId (IndexConst (R * each * w)))
                        (IndexConst 32))))
         (IndexConst (cta * (spt * 32 * w) + e)))
  = Some (x mod (each * (spt * 32 * w)) - v).
Proof.
  intros Hw HR Hspt Heach Hvec Hdiv Hsmall Htid Hn x r cta e v.
  assert (Hs : spt = spt / vec * vec).
  { rewrite (Z.div_mod spt vec) at 1 by lia. rewrite Hdiv. lia. }
  pose proof (Z.div_mod n spt ltac:(lia)) as Hn1.
  pose proof (Z.mod_pos_bound n spt ltac:(lia)) as Hn2.
  pose proof (Z.div_mod (n / spt) each ltac:(lia)) as Hl1.
  pose proof (Z.mod_pos_bound (n / spt) each ltac:(lia)) as Hl2.
  pose proof (Z.div_mod (n mod spt) vec ltac:(lia)) as He1.
  pose proof (Z.mod_pos_bound (n mod spt) vec ltac:(lia)) as He2.
  assert (Hlin : 0 <= n / spt < R * each).
  { split; [apply Z.div_pos; lia|apply Z.div_lt_upper_bound; lia]. }
  assert (Hr : 0 <= r < R).
  { unfold r. split; [apply Z.div_pos; lia|].
    apply Z.div_lt_upper_bound; lia. }
  assert (Hi : 0 <= (n mod spt) / vec < spt / vec).
  { split; [apply Z.div_pos; lia|].
    apply Z.div_lt_upper_bound; [lia|]. rewrite Z.mul_comm, <- Hs. lia. }
  fold r cta in Hl1. fold v in He1, He2. fold cta in Hl2.
  assert (He : e + v = n mod spt) by (unfold e; lia).
  assert (He0 : 0 <= e).
  { unfold e. apply Z.mul_nonneg_nonneg; lia. }
  set (P := spt * 32 * w) in *.
  assert (HP : 0 < P) by (unfold P; lia).
  assert (Htid' : spt * tid <= spt * (32 * w - 1))
    by (apply Z.mul_le_mono_nonneg_l; lia).
  assert (Htid0 : 0 <= spt * tid) by (apply Z.mul_nonneg_nonneg; lia).
  assert (Hlow : 0 <= spt * tid + n mod spt < P) by (unfold P; lia).
  assert (Hx : x = each * P * r + (cta * P + spt * tid + n mod spt)).
  { unfold x. rewrite Hl1 at 1. lia. }
  assert (HcP : 0 <= cta * P) by (apply Z.mul_nonneg_nonneg; lia).
  assert (HcP' : cta * P <= (each - 1) * P)
    by (apply Z.mul_le_mono_nonneg_r; lia).
  assert (Hrem : 0 <= cta * P + spt * tid + n mod spt < each * P) by lia.
  assert (HeP : 1 * (each * P) <= R * (each * P)).
  { apply Z.mul_le_mono_nonneg_r; [|lia].
    apply Z.mul_nonneg_nonneg; lia. }
  split; [apply (Z.div_unique_pos x (each * P) r _ Hrem Hx)|].
  split; [exact Hr|]. split; [exact Hl2|]. split; [exact Hi|].
  split; [exact He2|]. split.
  { rewrite <- (Z.mul_comm each), <- Hl1. lia. }
  rewrite <- (Z.mod_unique_pos x (each * P) r _ Hrem Hx).
  replace (cta * P + spt * tid + n mod spt - v)
    with (spt * tid + (cta * P + e)) by lia.
  apply eval_add.
  - apply (eval_base_1d spt w (R * each)); lia.
  - apply eval_const. lia.
  - lia.
Qed.

Section ConvertLayout1d.

Variable V : Type.

(** A loop whose iterations take the record from one stage of an invariant
    to the next, emitting operations that do not depend on the record. *)
Lemma emitLoop_inv {A} (Inv : Z -> list (CvtValue V) -> Prop)
    (f : A -> list (CvtValue V) -> option (list (SmemOp V) * list (CvtValue V)))
    (g : A -> list (SmemOp V)) (k : Z) (l : list A) : forall t0 v,
  (forall (i : nat) a v, l !! i = Some a -> Inv (t0 + Z.of_nat i * k) v ->
     exists v', f a v = Some (g a, v') /\ Inv (t0 + (Z.of_nat i + 1) * k) v') ->
  Inv t0 v ->
  exists v', emitLoop f l v = Some (concat (g <$> l), v') /\
             Inv (t0 + Z.of_nat (length l) * k) v'.
Proof.
  induction l as [|a l IH]; intros t0 v Hstep Hinv.
  - exists v. split; [reflexivity|].
    replace (t0 + Z.of_nat (length (@nil A)) * k) with t0
      by (cbn [length]; lia).
    exact Hinv.
  - destruct (Hstep 0%nat a v eq_refl) as (v1 & Hf & Hinv1).
    { replace (t0 + Z.of_nat 0 * k) with t0 by lia. exact Hinv. }
    destruct (IH (t0 + k) v1) as (v2 & Hl & Hinv2).
    { intros i a' v' Hi Hv'.
      destruct (Hstep (S i) a' v' Hi) as (v'' & Hf' & Hinv').
      - replace (t0 + Z.of_nat (S i) * k) with (t0 + k + Z.of_nat i * k)
          by lia.
        exact Hv'.
      - exists v''. split; [exact Hf'|].
        replace (t0 + k + (Z.of_nat i + 1) * k)
          with (t0 + (Z.of_nat (S i) + 1) * k) by lia.
        exact Hinv'. }
    { replace (t0 + k) with (t0 + (Z.of_nat 0 + 1) * k) by lia. exact Hinv1. }
    exists v2. split.
    + cbn [emitLoop]. rewrite Hf. cbn [mbind option_bind snd fst].
      rewrite Hl. reflexivity.
    + replace (t0 + Z.of_nat (length (a :: l)) * k)
        with (t0 + k + Z.of_nat (length l) * k) by (cbn [length]; lia).
      exact Hinv2.
Qed.

(** *** One side of the conversion: the replica of one layout *)

Section Side.

Variables w R spt each vec p : Z.
Hypothesis w_pos : 0 < w.
Hypothesis R_pos : 0 < R.
Hypothesis spt_pos : 0 < spt.
Hypothesis each_pos : 0 < each.
Hypothesis vec_pos : 0 < vec.
Hypothesis vec_divides : spt mod vec = 0.
Hypothesis N_small : R * each * (spt * 32 * w) < 2 ^ 31.

Let P : Z := spt * 32 * w.
Let T : Z := R * each.
Let N : Z := R * each * (spt * 32 * w).

Let base : Value :=
  Mul (IndexConst spt)
      (Add (URem laneId (IndexConst (R * each * 32 * w)))
           (Mul (URem warpId (IndexConst (R * each * w))) (IndexConst 32))).

Let offsetOf (cta e : Z) : Value := Add base (IndexConst (cta * P + e)).

Let elemIds : list Z := (fun i => i * vec) <$> seqZ 0 (spt / vec).

Lemma side_period : P <= N /\ each * P <= N /\ spt <= P.
Proof.
  unfold N, P.
  assert (H1 : 1 <= R * each) by nia.
  assert (H2 : 0 < spt * 32 * w) by nia.
  assert (H3 : 0 < each * (spt * 32 * w)) by nia.
  assert (H4 : 1 <= 32 * w) by lia.
  repeat split.
  - nia.
  - replace (R * each * (spt * 32 * w)) with (R * (each * (spt * 32 * w)))
      by lia.
    nia.
  - nia.
Qed.

Lemma side_vec : spt = spt / vec * vec /\ 0 < spt / vec /\ vec <= spt.
Proof.
  assert (Hs : spt = spt / vec * vec).
  { rewrite (Z.div_mod spt vec) at 1 by lia. rewrite vec_divides. lia. }
  assert (Hk : 0 <= spt / vec) by (apply Z.div_pos; lia).
  revert Hs Hk. generalize (spt / vec). intros q Hs Hk.
  assert (Hq : 0 < q) by nia.
  repeat split; [exact Hs|exact Hq|nia].
Qed.

Lemma side_elemIds :
  elemIdsFrom (Z.to_nat spt) 0 spt vec = Some elemIds.
Proof.
  destruct side_vec as (Hs & Hk & Hle). destruct side_period as (HP & _ & HsP).
  pose proof (elemIdsFrom_multiples (spt / vec) vec ltac:(lia) vec_pos) as H.
  rewrite <- Hs in H. apply H. unfold N in HP. lia.
Qed.

Lemma side_offset cta e :
  0 <= cta -> 0 <= e -> cta * P + e < 2 ^ 32 ->
  (mapM (fun d =>
           first_d ← at_ [base] d;
           cta_d ← at_ [cta] d;
           spc_d ← at_ [P] d;
           elem_d ← at_ [e] d;
           Some (Add first_d (IndexConst (cta_d *u spc_d +u elem_d))))
        (seqZ 0 1))
  = Some [offsetOf cta e].
Proof.
  intros Hc He Hb. apply mapM_Some. change (seqZ 0 1) with [0].
  constructor; [|constructor]. subscripts.
  unfold umul, uadd, offsetOf.
  assert (0 <= cta * P) by (unfold P; nia).
  rewrite (u32_small (cta * P)) by lia. rewrite u32_small by lia.
  reflexivity.
Qed.

Lemma side_slot lin e v :
  0 <= lin -> 0 <= e -> 0 <= v -> e + lin * spt + v < 2 ^ 32 ->
  e +u lin *u spt +u v = e + lin * spt + v.
Proof.
  intros Hl He Hv Hb. unfold umul, uadd.
  assert (0 <= lin * spt) by nia.
  rewrite (u32_small (lin * spt)) by lia.
  rewrite (u32_small (e + lin * spt)) by lia.
  apply u32_small. lia.
Qed.

(** The store of one vector: the [vec] elements of the record from slot
    [elemId + linearCTAId * spt] on, at the offset of the tile and element. *)
Lemma processElem_store_1d r cta lin e (vals : list (CvtValue V)) :
  0 <= cta -> 0 <= e -> 0 <= lin -> cta * P + e < 2 ^ 32 ->
  e + lin * spt + vec <= Z.of_nat (length vals) ->
  Z.of_nat (length vals) < 2 ^ 32 ->
  processElem true (blocked1d spt w) 1 [P] vec [p] [0] [base] [r] [cta]
              cta lin spt e vals
  = Some ([SmemStore (offsetOf cta e) vec
             (take (Z.to_nat vec) (drop (Z.to_nat (e + lin * spt)) vals))],
          vals).
Proof.
  intros Hc He Hl Hb Hlen Hsz. unfold processElem.
  change (sizePerThread (blocked1d spt w)) with [spt].
  rewrite getMultiDimIndex_one by lia. cbn [mbind option_bind].
  rewrite side_offset by lia. cbn [mbind option_bind].
  change (reorder Null [offsetOf cta e] [0]) with (Some [offsetOf cta e]).
  change (reorder 0 [p] [0]) with (Some [p]).
  cbn [mbind option_bind].
  change (linearize [offsetOf cta e] [p]) with (offsetOf cta e).
  rewrite (mapM_ext_in _ (fun v => at_ vals (e + lin * spt + v))).
  - rewrite mapM_at_offset by lia. reflexivity.
  - intros v Hv. apply elem_of_seqZ in Hv. rewrite side_slot by lia.
    reflexivity.
Qed.

(** What the load of the replica leaves in slot [j] of the result record:
    the tile [j / spt] gives the round and the tile of the round, the
    position [j mod spt] in the tile gives the vector and the lane. *)
Let loaded (j : Z) : CvtValue V :=
  Extracted [j / spt / each] ((j / spt) mod each)
            ((j mod spt) / vec * vec) ((j mod spt) mod vec).

(** The slots below [t] have been loaded. *)
Let Loaded (t : Z) (vals : list (CvtValue V)) : Prop :=
  Z.of_nat (length vals) = T * spt /\
  forall n, 0 <= n < t -> at_ vals n = Some (loaded n).

Lemma side_slot_position r cta i v :
  0 <= r -> 0 <= cta < each -> 0 <= i < spt / vec -> 0 <= v < vec ->
  loaded ((r * each + cta) * spt + i * vec + v)
  = Extracted [r] cta (i * vec) v.
Proof.
  intros Hr Hc Hi Hv. destruct side_vec as (Hs & Hk & Hle).
  assert (Hin : 0 <= i * vec + v < spt) by nia.
  unfold loaded.
  replace ((r * each + cta) * spt + i * vec + v)
    with ((i * vec + v) + (r * each + cta) * spt) by lia.
  rewrite Z.div_add, Z.mod_add by lia.
  rewrite (Z.div_small (i * vec + v)), (Z.mod_small (i * vec + v)) by lia.
  rewrite Z.add_0_l.
  replace (r * each + cta) with (cta + r * each) by lia.
  rewrite Z.div_add, Z.mod_add by lia.
  rewrite (Z.div_small cta), (Z.mod_small cta) by lia.
  rewrite Z.add_0_l.
  replace (i * vec + v) with (v + i * vec) by lia.
  rewrite Z.div_add, Z.mod_add by lia.
  rewrite (Z.div_small v), (Z.mod_small v) by lia.
  rewrite Z.add_0_l. reflexivity.
Qed.

Lemma side_slot_bound r cta i :
  0 <= r < R -> 0 <= cta < each -> 0 <= i < spt / vec ->
  0 <= (r * each + cta) * spt + i * vec /\
  (r * each + cta) * spt + i * vec + vec <= T * spt /\
  T * spt < 2 ^ 31 /\ cta * P + i * vec + vec <= each * P.
Proof.
  intros Hr Hc Hi. destruct side_vec as (Hs & Hk & Hle).
  destruct side_period as (HP & HeP & HsP).
  assert (Hlin : 0 <= r * each + cta < T) by (unfold T; nia).
  assert (Hiv : 0 <= i * vec /\ i * vec + vec <= spt) by nia.
  assert (HT : T * spt <= N).
  { unfold T, N. assert (1 <= 32 * w) by lia.
    assert (0 < R * each * spt) by nia.
    replace (R * each * (spt * 32 * w)) with (R * each * spt * (32 * w))
      by lia.
    nia. }
  unfold N in HT, HP, HeP. repeat split; try nia.
Qed.

(** The load of one vector fills the next [vec] slots. *)
Lemma processElem_load_1d r cta i (vals : list (CvtValue V)) :
  0 <= r < R -> 0 <= cta < each -> 0 <= i < spt / vec ->
  Loaded ((r * each + cta) * spt + i * vec) vals ->
  exists vals',
    processElem false (blocked1d spt w) 1 [P] vec [p] [0] [base] [r] [cta]
                cta (r * each + cta) spt (i * vec) vals
    = Some ([SmemLoad (offsetOf cta (i * vec)) vec], vals') /\
    Loaded ((r * each + cta) * spt + (i + 1) * vec) vals'.
Proof.
  intros Hr Hc Hi [Hlen Hlow].
  destruct (side_slot_bound r cta i Hr Hc Hi) as (Ht0 & Ht1 & HT & Hoff).
  destruct side_period as (HP & HeP & HsP).
  set (lin := r * each + cta) in *.
  assert (Hlin : 0 <= lin) by (unfold lin; nia).
  assert (Hiv : 0 <= i * vec) by nia.
  assert (HcP : 0 <= cta * P) by (unfold P; nia).
  unfold processElem.
  change (sizePerThread (blocked1d spt w)) with [spt].
  rewrite getMultiDimIndex_one by lia. cbn [mbind option_bind].
  rewrite side_offset by (unfold N in HeP; lia). cbn [mbind option_bind].
  change (reorder Null [offsetOf cta (i * vec)] [0])
    with (Some [offsetOf cta (i * vec)]).
  change (reorder 0 [p] [0]) with (Some [p]).
  cbn [mbind option_bind].
  change (linearize [offsetOf cta (i * vec)] [p])
    with (offsetOf cta (i * vec)).
  destruct (fold_writes
              (fun (acc : option (list (CvtValue V))) v =>
                 vs ← acc;
                 set_at vs (i * vec +u lin *u spt +u v)
                        (Extracted [r] cta (i * vec) v))
              (fun v => i * vec +u lin *u spt +u v)
              (fun v => Extracted [r] cta (i * vec) v)
              (seqZ 0 vec) vals)
    as (vals' & Hfold & Hlen' & Hother & Hwritten).
  { intros v a _. reflexivity. }
  { apply Forall_forall. intros v Hv. apply elem_of_seqZ in Hv.
    rewrite side_slot by lia. lia. }
  rewrite Hfold. cbn [mbind option_bind].
  exists vals'. split; [reflexivity|]. split; [lia|].
  intros n Hn.
  destruct (Z.lt_ge_cases n (lin * spt + i * vec)) as [Hlt|Hge].
  - rewrite Hother; [apply Hlow; lia|].
    intros v Hv. apply elem_of_seqZ in Hv. rewrite side_slot by lia. lia.
  - apply Hwritten.
    + exists (n - (lin * spt + i * vec)). split.
      * apply elem_of_seqZ. lia.
      * rewrite side_slot by lia. lia.
    + intros v Hv Hkey. apply elem_of_seqZ in Hv.
      rewrite side_slot in Hkey by lia.
      replace n with (lin * spt + i * vec + v) by lia.
      unfold lin. rewrite side_slot_position by lia. reflexivity.
Qed.

(** The loops over [ctaId] and over [elemId] reach every tile of the
    replica and every vector of a tile. *)
Lemma processCTA_1d stNotRd r cta (vals : list (CvtValue V)) :
  0 <= r < R -> 0 <= cta < each ->
  processCTA stNotRd (blocked1d spt w) 1 [T] [P] [each] [r] vec [p] [0]
             [base] spt cta vals
  = emitLoop (processElem stNotRd (blocked1d spt w) 1 [P] vec [p] [0] [base]
                          [r] [cta] cta (r * each + cta) spt)
             elemIds vals.
Proof.
  intros Hr Hc. unfold processCTA.
  destruct (side_slot_bound r cta 0 Hr Hc) as (Ht0 & _ & HT & _).
  { destruct side_vec as (_ & Hk & _). lia. }
  assert (Hlin : 0 <= r * each + cta < 2 ^ 32).
  { assert (r * each + cta < T) by (unfold T; nia).
    assert (T <= T * spt) by (unfold T in *; nia). nia. }
  rewrite getMultiDimIndex_one by lia. cbn [mbind option_bind].
  change (seqZ 0 (Z.of_nat (length [cta]))) with [0].
  change (replicate (Z.to_nat 1) 0) with [0].
  cbn [fold_left]. subscripts.
  change (set_at [0] 0 (r *u each +u cta)) with (Some [r *u each +u cta]).
  cbn [mbind option_bind].
  assert (Hid : r *u each +u cta = r * each + cta).
  { unfold umul, uadd. rewrite (u32_small (r * each)) by nia.
    apply u32_small. lia. }
  rewrite Hid, getLinearIndex_one by lia. cbn [mbind option_bind].
  rewrite side_elemIds. reflexivity.
Qed.

Lemma processReplicaBlocked_1d stNotRd r (vals : list (CvtValue V)) :
  processReplicaBlocked stNotRd (blocked1d spt w) [N] [each] [r] vec [p] [0]
                        vals
  = emitLoop (processCTA stNotRd (blocked1d spt w) 1 [T] [P] [each] [r] vec
                         [p] [0] [base] spt)
             (seqZ 0 each) vals.
Proof.
  unfold processReplicaBlocked. destruct side_period as (HP & HeP & HsP).
  assert (HP0 : 0 < P) by (unfold P; nia).
  assert (HN : N < 2 ^ 31) by exact N_small.
  assert (HRe : 0 < R * each) by nia.
  change (Z.of_nat (length [N])) with 1.
  change (seqZ 0 1) with [0].
  assert (Hspc : mapM (shapePerCTAOf (blocked1d spt w)) [0] = Some [P]).
  { apply mapM_Some. constructor; [|constructor].
    unfold shapePerCTAOf, blocked1d.
    cbn [sizePerThread threadsPerWarp warpsPerCTA].
    subscripts. unfold umul. rewrite (u32_small (spt * 32)) by (unfold P in *; nia).
    rewrite u32_small by (fold P; lia). reflexivity. }
  rewrite Hspc. cbn [mbind option_bind].
  assert (Hcta : mapM (fun d => shape_d ← at_ [N] d;
                                spc_d ← at_ [P] d;
                                Some (ceil (u32 shape_d) spc_d)) [0]
                 = Some [T]).
  { apply mapM_Some. constructor; [|constructor]. subscripts.
    rewrite u32_small by lia. unfold N, T, P.
    rewrite ceil_exact by (fold P; lia). reflexivity. }
  rewrite Hcta. cbn [mbind option_bind].
  pose proof (emitBase_1d spt w (R * each) spt_pos w_pos HRe) as Hbase.
  unfold N at 1. rewrite Hbase by (fold N; lia). cbn [mbind option_bind].
  assert (Hprod : product [each] = each).
  { unfold product. cbn [fold_left]. rewrite Z.mul_1_l.
    apply u32_small. nia. }
  assert (Hacc : product (sizePerThread (blocked1d spt w)) = spt).
  { unfold product, blocked1d. cbn [sizePerThread fold_left].
    rewrite Z.mul_1_l. apply u32_small. lia. }
  rewrite Hprod, Hacc. reflexivity.
Qed.

Let storeOf (vals : list (CvtValue V)) (r cta e : Z) : SmemOp V :=
  SmemStore (offsetOf cta e) vec
            (take (Z.to_nat vec)
                  (drop (Z.to_nat (e + (r * each + cta) * spt)) vals)).

Let loadOf (cta e : Z) : SmemOp V := SmemLoad (offsetOf cta e) vec.

Let storesOf (vals : list (CvtValue V)) (r : Z) : list (SmemOp V) :=
  concat ((fun cta => concat ((fun e => [storeOf vals r cta e]) <$> elemIds))
            <$> seqZ 0 each).

Let loadsOf : list (SmemOp V) :=
  concat ((fun cta => concat ((fun e => [loadOf cta e]) <$> elemIds))
            <$> seqZ 0 each).

Lemma side_elemIds_lookup (i : nat) e :
  elemIds !! i = Some e -> e = Z.of_nat i * vec /\ 0 <= Z.of_nat i < spt / vec.
Proof.
  unfold elemIds. rewrite list_lookup_fmap. intros H.
  destruct (seqZ 0 (spt / vec) !! i) as [j|] eqn:E; [|discriminate].
  apply lookup_seqZ in E as [-> Hi]. injection H as <-. split; lia.
Qed.

Lemma side_elemIds_length : Z.of_nat (length elemIds) = spt / vec.
Proof.
  unfold elemIds. rewrite length_fmap, length_seqZ.
  destruct side_vec as (_ & Hk & _). lia.
Qed.

(** The stores of one round: every vector of every tile of the round, read
    from the source record, which is left as it was. *)
Lemma replica_store_1d r (vals : list (CvtValue V)) :
  0 <= r < R ->
  T * spt <= Z.of_nat (length vals) < 2 ^ 32 ->
  processReplicaBlocked true (blocked1d spt w) [N] [each] [r] vec [p] [0]
                        vals
  = Some (storesOf vals r, vals).
Proof.
  intros Hr Hlen. rewrite processReplicaBlocked_1d.
  destruct (emitLoop_inv (fun _ v => v = vals)
              (processCTA true (blocked1d spt w) 1 [T] [P] [each] [r] vec
                          [p] [0] [base] spt)
              (fun cta => concat ((fun e => [storeOf vals r cta e])
                                    <$> elemIds))
              0 (seqZ 0 each) 0 vals) as (v' & Hloop & ->);
    [|reflexivity|exact Hloop].
  intros c cta v Hc ->. apply lookup_seqZ in Hc as [-> Hc].
  rewrite Z.add_0_l. exists vals. split; [|reflexivity].
  rewrite processCTA_1d by lia.
  destruct (emitLoop_inv (fun _ v => v = vals)
              (processElem true (blocked1d spt w) 1 [P] vec [p] [0] [base]
                           [r] [Z.of_nat c] (Z.of_nat c)
                           (r * each + Z.of_nat c) spt)
              (fun e => [storeOf vals r (Z.of_nat c) e])
              0 elemIds 0 vals) as (v' & Hloop & ->);
    [|reflexivity|exact Hloop].
  intros i e v Hi ->. apply side_elemIds_lookup in Hi as [-> Hi].
  exists vals. split; [|reflexivity].
  destruct (side_slot_bound r (Z.of_nat c) (Z.of_nat i) Hr ltac:(lia) Hi)
    as (Ht0 & Ht1 & HT & Hoff).
  destruct side_period as (HP & HeP & HsP).
  assert (0 <= Z.of_nat i * vec) by nia.
  assert (0 <= r * each + Z.of_nat c) by nia.
  rewrite processElem_store_1d by (unfold N in HeP; lia).
  reflexivity.
Qed.

Lemma Loaded_eq t t' (vals : list (CvtValue V)) :
  t = t' -> Loaded t vals -> Loaded t' vals.
Proof. intros <-. exact id. Qed.

(** The loads of one round fill the slots of the round. *)
Lemma replica_load_1d r (vals : list (CvtValue V)) :
  0 <= r < R ->
  Loaded (r * each * spt) vals ->
  exists vals',
    processReplicaBlocked false (blocked1d spt w) [N] [each] [r] vec [p] [0]
                          vals
    = Some (loadsOf, vals') /\
    Loaded ((r + 1) * each * spt) vals'.
Proof.
  intros Hr Hinv. rewrite processReplicaBlocked_1d.
  destruct (emitLoop_inv Loaded
              (processCTA false (blocked1d spt w) 1 [T] [P] [each] [r] vec
                          [p] [0] [base] spt)
              (fun cta => concat ((fun e => [loadOf cta e]) <$> elemIds))
              spt (seqZ 0 each) (r * each * spt) vals)
    as (v' & Hloop & Hinv'); [|exact Hinv|].
  - intros c cta v Hc Hv. apply lookup_seqZ in Hc as [-> Hc].
    rewrite Z.add_0_l. rewrite processCTA_1d by lia.
    destruct (emitLoop_inv Loaded
                (processElem false (blocked1d spt w) 1 [P] vec [p] [0] [base]
                             [r] [Z.of_nat c] (Z.of_nat c)
                             (r * each + Z.of_nat c) spt)
                (fun e => [loadOf (Z.of_nat c) e])
                vec elemIds ((r * each + Z.of_nat c) * spt) v)
      as (v' & Hloop & Hinv').
    + intros i e v0 Hi Hv0. apply side_elemIds_lookup in Hi as [-> Hi].
      destruct (processElem_load_1d r (Z.of_nat c) (Z.of_nat i) v0 Hr
                  ltac:(lia) Hi Hv0) as (v1 & Hp & Hv1).
      exists v1. split; [exact Hp|exact Hv1].
    + revert Hv. apply Loaded_eq. lia.
    + exists v'. split; [exact Hloop|]. revert Hinv'. apply Loaded_eq.
      rewrite side_elemIds_length. destruct side_vec as (Hs & _ & _). lia.
  - exists v'. split; [exact Hloop|]. revert Hinv'. apply Loaded_eq.
    rewrite length_seqZ. lia.
Qed.

End Side.

(** *** The two sides together *)

Section Conversion.

Variables a b w ia ib R inV outV p bufferOffset : Z.
Variable src : list V.
Variable getElemsPerThread : BlockedEncodingAttr -> list Z -> Z.
Hypothesis a_pos : 0 < a.
Hypothesis b_pos : 0 < b.
Hypothesis w_pos : 0 < w.
Hypothesis ia_pos : 0 < ia.
Hypothesis ib_pos : 0 < ib.
Hypothesis R_pos : 0 < R.
Hypothesis inV_pos : 0 < inV.
Hypothesis outV_pos : 0 < outV.
Hypothesis same_region : ia * a = ib * b.
Hypothesis one_side : ia = 1 \/ ib = 1.
Hypothesis inV_divides : a mod inV = 0.
Hypothesis outV_divides : b mod outV = 0.
Hypothesis N_small : R * ia * (a * 32 * w) < 2 ^ 31.

Let N : Z := R * ia * (a * 32 * w).

Hypothesis srcElems : getElemsPerThread (blocked1d a w) [N] = R * ia * a.
Hypothesis dstElems : getElemsPerThread (blocked1d b w) [N] = R * ib * b.
Hypothesis src_long : R * ia * a <= Z.of_nat (length src).

Let baseOf (spt each : Z) : Value :=
  Mul (IndexConst spt)
      (Add (URem laneId (IndexConst (R * each * 32 * w)))
           (Mul (URem warpId (IndexConst (R * each * w))) (IndexConst 32))).

Let srcVals : list (CvtValue V) :=
  FromRecord <$> take (Z.to_nat (R * ia * a)) src.

Let storesOf (r : Z) : list (SmemOp V) :=
  concat ((fun cta =>
             concat ((fun e =>
                        [SmemStore
                           (Add (baseOf a ia)
                                (IndexConst (cta * (a * 32 * w) + e)))
                           inV
                           (take (Z.to_nat inV)
                                 (drop (Z.to_nat (e + (r * ia + cta) * a))
                                       srcVals))])
                       <$> ((fun i => i * inV) <$> seqZ 0 (a / inV))))
            <$> seqZ 0 ia).

Let loadsOf : list (SmemOp V) :=
  concat ((fun cta =>
             concat ((fun e =>
                        [SmemLoad
                           (Add (baseOf b ib)
                                (IndexConst (cta * (b * 32 * w) + e)))
                           outV])
                       <$> ((fun i => i * outV) <$> seqZ 0 (b / outV))))
            <$> seqZ 0 ib).

Let loaded (j : Z) : CvtValue V :=
  Extracted [j / b / ib] ((j / b) mod ib)
            ((j mod b) / outV * outV) ((j mod b) mod outV).

Let op : ConvertLayoutOp V :=
  {| cvt_shape := [N];
     cvt_srcLayout := Blocked (blocked1d a w);
     cvt_dstLayout := Blocked (blocked1d b w);
     cvt_src := src;
     cvt_bufferOffset := Some bufferOffset;
     cvt_scratch := {| paddedRepShape := [p]; inVec := inV; outVec := outV |}
  |}.

Lemma N_dst : R * ib * (b * 32 * w) = N.
Proof.
  unfold N. replace (R * ib * (b * 32 * w)) with (R * (ib * b) * (32 * w))
    by lia.
  rewrite <- same_region. lia.
Qed.

Lemma conversion_sizes :
  0 < a * 32 * w <= N /\ 0 < b * 32 * w <= N /\
  R * ia * a <= N /\ R * ib * b <= N /\
  Z.max (a * 32 * w) (b * 32 * w) = ia * (a * 32 * w) /\
  ia * (a * 32 * w) = ib * (b * 32 * w).
Proof.
  pose proof N_dst as Hd. unfold N in *.
  assert (H32 : 1 <= 32 * w) by lia.
  assert (Ha : 0 < a * 32 * w) by nia.
  assert (Hb : 0 < b * 32 * w) by nia.
  assert (Hia : 1 <= R * ia) by nia.
  assert (Hib : 1 <= R * ib) by nia.
  assert (HRa : 0 < R * ia * a) by nia.
  assert (HRb : 0 < R * ib * b) by nia.
  assert (Heq : ia * (a * 32 * w) = ib * (b * 32 * w)).
  { replace (ia * (a * 32 * w)) with (ia * a * (32 * w)) by lia.
    rewrite same_region. lia. }
  split; [split; [lia|nia]|]. split; [split; [lia|nia]|].
  split.
  { replace (R * ia * (a * 32 * w)) with (R * ia * a * (32 * w)) by lia.
    nia. }
  split.
  { rewrite <- Hd.
    replace (R * ib * (b * 32 * w)) with (R * ib * b * (32 * w)) by lia.
    nia. }
  split; [|exact Heq].
  destruct one_side as [->| ->].
  - rewrite Z.mul_1_l in *. rewrite Heq. apply Z.max_l. nia.
  - rewrite Z.mul_1_l in Heq. rewrite Heq. apply Z.max_r. nia.
Qed.

Lemma plan_1d :
  mapM (replicationPlan [N] (blocked1d a w) (blocked1d b w)) [0]
  = Some [ {| numReplicates_d := R;
              inNumCTAsEachRep_d := ia;
              outNumCTAsEachRep_d := ib |} ].
Proof.
  destruct conversion_sizes as (HPa & HPb & _ & _ & Hmax & Heq).
  assert (HN : N < 2 ^ 31) by exact N_small.
  apply mapM_Some. constructor; [|constructor].
  unfold replicationPlan. subscripts.
  unfold getShapePerCTA, shapePerCTAOf, blocked1d.
  cbn [sizePerThread threadsPerWarp warpsPerCTA]. subscripts.
  unfold umul. rewrite (u32_small (a * 32)), (u32_small (b * 32)) by nia.
  rewrite (u32_small (a * 32 * w)), (u32_small (b * 32 * w)) by lia.
  rewrite (u32_small N) by lia.
  rewrite (Z.min_r N (a * 32 * w)), (Z.min_r N (b * 32 * w)) by lia.
  rewrite Hmax.
  assert (Hd1 : divT (ia * (a * 32 * w)) (a * 32 * w) = Some ia).
  { rewrite divT_pos by nia. now rewrite Z.div_mul by lia. }
  assert (Hd2 : divT (ia * (a * 32 * w)) (b * 32 * w) = Some ib).
  { rewrite Heq, divT_pos by nia. now rewrite Z.div_mul by lia. }
  assert (Hr1 : remT (ia * (a * 32 * w)) (a * 32 * w) = Some 0).
  { rewrite remT_pos by nia. now rewrite Z.mod_mul by lia. }
  assert (Hr2 : remT (ia * (a * 32 * w)) (b * 32 * w) = Some 0).
  { rewrite Heq, remT_pos by nia. now rewrite Z.mod_mul by lia. }
  rewrite Hd1, Hd2, Hr1, Hr2. cbn [mbind option_bind].
  rewrite option_guard_True by (split; reflexivity).
  cbn [mbind option_bind]. do 3 f_equal.
  unfold N. replace (R * ia * (a * 32 * w)) with (R * (ia * (a * 32 * w)))
    by lia.
  apply ceil_exact. nia.
Qed.

(** The whole lowering: [R] rounds of barrier, stores, barrier, loads, and
    a result record of which every slot has been loaded. *)
Lemma conversion_1d :
  exists outVals,
    ConvertLayoutOpConversion getElemsPerThread op
    = Rewritten (concat ((fun r => roundOps (storesOf r, loadsOf))
                           <$> seqZ 0 R),
                 outVals) /\
    Z.of_nat (length outVals) = R * ib * b /\
    forall n, 0 <= n < R * ib * b -> at_ outVals n = Some (loaded n).
Proof.
  destruct conversion_sizes as (HPa & HPb & HRa & HRb & _ & _).
  assert (HN : N < 2 ^ 31) by exact N_small.
  pose proof N_dst as Hdst. unfold N in Hdst.
  assert (HsmallD : R * ib * (b * 32 * w) < 2 ^ 31) by (rewrite Hdst; exact N_small).
  set (Inv := fun (t : Z) (vals : list (CvtValue V)) =>
                Z.of_nat (length vals) = R * ib * b /\
                forall n, 0 <= n < t -> at_ vals n = Some (loaded n)).
  destruct (emitLoop_inv Inv
              (replicationRound [N] (blocked1d a w) (blocked1d b w)
                 [ {| numReplicates_d := R;
                      inNumCTAsEachRep_d := ia;
                      outNumCTAsEachRep_d := ib |} ]
                 {| paddedRepShape := [p]; inVec := inV; outVec := outV |}
                 srcVals)
              (fun r => roundOps (storesOf r, loadsOf))
              (ib * b) (seqZ 0 R) 0
              (replicate (Z.to_nat (R * ib * b)) NullValue))
    as (outVals & Hloop & Hlen & Hall).
  { intros i r v Hi [Hlv Hv]. apply lookup_seqZ in Hi as [-> Hi].
    rewrite Z.add_0_l in *.
    assert (Hr : 0 <= Z.of_nat i < R) by lia.
    destruct (replica_load_1d w R b ib outV p w_pos R_pos b_pos ib_pos
                outV_pos outV_divides HsmallD (Z.of_nat i) v Hr)
      as (v' & Hld & Hlv' & Hv').
    { split; [exact Hlv|]. intros n Hn. apply Hv. lia. }
    exists v'. split.
    - unfold replicationRound.
      cbn [map numReplicates_d inNumCTAsEachRep_d outNumCTAsEachRep_d
           inVec outVec paddedRepShape].
      rewrite getMultiDimIndex_one by lia. cbn [mbind option_bind].
      change (order (blocked1d b w)) with [0].
      unfold N.
      rewrite (replica_store_1d w R a ia inV p w_pos R_pos a_pos ia_pos
                 inV_pos inV_divides N_small (Z.of_nat i) srcVals Hr).
      + cbn [mbind option_bind]. rewrite <- Hdst, Hld.
        reflexivity.
      + unfold srcVals. rewrite length_fmap, length_take. lia.
    - split; [exact Hlv'|]. intros n Hn. apply Hv'. lia. }
  { split.
    - rewrite length_replicate. lia.
    - intros n Hn. lia. }
  exists outVals. split; [|split; [exact Hlen|]].
  - unfold ConvertLayoutOpConversion, op.
    cbn [cvt_srcLayout cvt_dstLayout].
    unfold convertBlocked.
    cbn [cvt_bufferOffset cvt_shape cvt_src cvt_scratch mbind option_bind].
    change (seqZ 0 (Z.of_nat (length [N]))) with [0].
    rewrite plan_1d. cbn [mbind option_bind map numReplicates_d].
    assert (Hprod : product [R] = R).
    { unfold product. cbn [fold_left]. rewrite Z.mul_1_l.
      apply u32_small. nia. }
    rewrite Hprod, srcElems, dstElems.
    rewrite (u32_small (R * ia * a)), (u32_small (R * ib * b)) by lia.
    rewrite mapM_at_seqZ by lia. cbn [mbind option_bind].
    change (drop (Z.to_nat 0) src) with src.
    fold srcVals. rewrite Hloop. reflexivity.
  - intros n Hn. apply Hall. rewrite length_seqZ. lia.
Qed.

Lemma srcVals_at s v0 :
  0 <= s < R * ia * a -> at_ src s = Some v0 ->
  at_ srcVals s = Some (FromRecord v0).
Proof.
  intros Hs. unfold srcVals, at_.
  destruct (Z.ltb_spec s 0); [lia|].
  rewrite list_lookup_fmap, lookup_take_lt by lia.
  intros ->. reflexivity.
Qed.

(** The data flow of the conversion: the element of tensor index [x]
    leaves the source record and enters the result record through the same
    address of the staging buffer, in the same round. *)
Lemma conversion_1d_address :
  exists rounds outVals,
    ConvertLayoutOpConversion getElemsPerThread op
    = Rewritten (concat (roundOps <$> rounds), outVals) /\
    emitBaseIndexForBlockedLayout (blocked1d a w) [N]
    = Some [baseOf a ia] /\
    emitBaseIndexForBlockedLayout (blocked1d b w) [N]
    = Some [baseOf b ib] /\
    Z.of_nat (length rounds) = R /\
    Z.of_nat (length outVals) = R * ib * b /\
    forall tidS tidD s j x idxS idxD,
      0 <= tidS < 32 * w -> 0 <= tidD < 32 * w ->
      laneIndices (blocked1d a w) [N] tidS = Some idxS ->
      at_ idxS s = Some [x] ->
      laneIndices (blocked1d b w) [N] tidD = Some idxD ->
      at_ idxD j = Some [x] ->
      exists st ld ctaS eS vS valVec v0 ctaD eD vD,
        at_ rounds (x / (ia * (a * 32 * w))) = Some (st, ld) /\
        SmemStore (Add (baseOf a ia) (IndexConst (ctaS * (a * 32 * w) + eS)))
                  inV valVec ∈ st /\
        at_ valVec vS = Some (FromRecord v0) /\
        at_ src s = Some v0 /\
        eval tidS
             (Add (baseOf a ia) (IndexConst (ctaS * (a * 32 * w) + eS)))
        = Some (x mod (ia * (a * 32 * w)) - vS) /\
        SmemLoad (Add (baseOf b ib) (IndexConst (ctaD * (b * 32 * w) + eD)))
                 outV ∈ ld /\
        at_ outVals j = Some (Extracted [x / (ia * (a * 32 * w))] ctaD eD vD) /\
        eval tidD
             (Add (baseOf b ib) (IndexConst (ctaD * (b * 32 * w) + eD)))
        = Some (x mod (ia * (a * 32 * w)) - vD).
Proof.
  destruct conversion_1d as (outVals & Hconv & Hlen & Hall).
  destruct conversion_sizes as (HPa & HPb & HRa & HRb & _ & Heq).
  pose proof N_dst as Hdst. unfold N in Hdst.
  assert (HsmallD : R * ib * (b * 32 * w) < 2 ^ 31)
    by (rewrite Hdst; exact N_small).
  assert (HRia : 0 < R * ia) by nia.
  assert (HRib : 0 < R * ib) by nia.
  exists ((fun r => (storesOf r, loadsOf)) <$> seqZ 0 R), outVals.
  split.
  { rewrite <- list_fmap_compose. exact Hconv. }
  split.
  { apply (emitBase_1d a w (R * ia)); try assumption.
    unfold N in N_small. lia. }
  split.
  { unfold N. rewrite <- Hdst.
    apply (emitBase_1d b w (R * ib)); try assumption. lia. }
  split; [rewrite length_fmap, length_seqZ; lia|].
  split; [exact Hlen|].
  intros tidS tidD s j x idxS idxD HtS HtD HidxS HatS HidxD HatD.
  unfold N in HidxS, HidxD.
  rewrite (laneIndices_1d a w (R * ia)) in HidxS by (assumption || lia).
  rewrite <- Hdst in HidxD.
  rewrite (laneIndices_1d b w (R * ib)) in HidxD by (assumption || lia).
  injection HidxS as <-. injection HidxD as <-.
  apply at_fmap_seqZ in HatS as [Hs HxS]. injection HxS as HxS.
  apply at_fmap_seqZ in HatD as [Hj HxD]. injection HxD as HxD.
  pose proof (lane_slot_address w R a ia inV tidS s w_pos R_pos a_pos ia_pos
                inV_pos inV_divides N_small HtS Hs) as HS.
  pose proof (lane_slot_address w R b ib outV tidD j w_pos R_pos b_pos ib_pos
                outV_pos outV_divides HsmallD HtD Hj) as HD.
  cbv zeta in HS, HD. rewrite <- HxS in HS. rewrite <- HxD, <- Heq in HD.
  destruct HS as (HrS & HrS' & HcS & HiS & HvS & HsS & HevS).
  destruct HD as (HrD & HrD' & HcD & HiD & HvD & HjD & HevD).
  destruct (at_lt src s ltac:(lia)) as [v0 Hv0].
  exists (storesOf (x / (ia * (a * 32 * w)))), loadsOf,
    ((s / a) mod ia), ((s mod a) / inV * inV), ((s mod a) mod inV),
    (take (Z.to_nat inV)
          (drop (Z.to_nat ((s mod a) / inV * inV
                           + (x / (ia * (a * 32 * w)) * ia + (s / a) mod ia) * a))
                srcVals)),
    v0, ((j / b) mod ib), ((j mod b) / outV * outV), ((j mod b) mod outV).
  split.
  { apply at_fmap_seqZ. split; [lia|reflexivity]. }
  split.
  { apply (elem_of_tile_vectors
             (fun cta e =>
                SmemStore (Add (baseOf a ia)
                               (IndexConst (cta * (a * 32 * w) + e)))
                          inV
                          (take (Z.to_nat inV)
                                (drop (Z.to_nat
                                         (e + (x / (ia * (a * 32 * w)) * ia
                                               + cta) * a))
                                      srcVals)))
             ia (a / inV) inV ((s / a) mod ia) ((s mod a) / inV));
      assumption. }
  split.
  { assert (0 <= (s mod a) / inV * inV)
      by (apply Z.mul_nonneg_nonneg; lia).
    assert (0 <= (x / (ia * (a * 32 * w)) * ia + (s / a) mod ia) * a).
    { rewrite <- HrS. apply Z.mul_nonneg_nonneg; [|lia].
      apply Z.add_nonneg_nonneg; [apply Z.mul_nonneg_nonneg|]; lia. }
    rewrite at_take_drop by lia.
    rewrite <- HrS, <- HsS. apply srcVals_at; assumption. }
  split; [exact Hv0|]. split; [exact HevS|].
  split.
  { apply (elem_of_tile_vectors
             (fun cta e =>
                SmemLoad (Add (baseOf b ib)
                              (IndexConst (cta * (b * 32 * w) + e)))
                         outV)
             ib (b / outV) outV ((j / b) mod ib) ((j mod b) / outV));
      assumption. }
  split; [|exact HevD].
  rewrite (Hall j Hj). unfold loaded. rewrite HrD. reflexivity.
Qed.

End Conversion.

End ConvertLayout1d.

(** X26: a conversion between two one-dimensional Blocked layouts over the
    same [w] warps runs to completion and fills the result record.  With
    [a] and [b] elements per lane and tile on the two sides, vector widths
    that divide them, and a shape of [R] rounds in which the source covers
    [ia] tiles and the result [ib] tiles (one of the two being 1), the
    lowering is rewritten, the result record has [R * ib * b] elements,
    and slot [n] holds lane [(n mod b) mod outV] of the vector loaded in
    round [n / b / ib], tile [(n / b) mod ib], element
    [(n mod b) / outV * outV]: no slot is left unwritten.  The number of
    elements per lane is the one the layout attribute reports. *)
Theorem convert_layout_1d_fills_result (V : Type)
    (getElemsPerThread : BlockedEncodingAttr -> list Z -> Z)
    (a b w ia ib R inV outV p bufferOffset : Z) (src : list V) :
  0 < a -> 0 < b -> 0 < w -> 0 < ia -> 0 < ib -> 0 < R ->
  0 < inV -> 0 < outV ->
  ia * a = ib * b -> ia = 1 \/ ib = 1 ->
  a mod inV = 0 -> b mod outV = 0 ->
  let N := R * ia * (a * 32 * w) in
  N < 2 ^ 31 ->
  getElemsPerThread (blocked1d a w) [N] = R * ia * a ->
  getElemsPerThread (blocked1d b w) [N] = R * ib * b ->
  R * ia * a <= Z.of_nat (length src) ->
  exists ops outVals,
    ConvertLayoutOpConversion getElemsPerThread
      {| cvt_shape := [N];
         cvt_srcLayout := Blocked (blocked1d a w);
         cvt_dstLayout := Blocked (blocked1d b w);
         cvt_src := src;
         cvt_bufferOffset := Some bufferOffset;
         cvt_scratch := {| paddedRepShape := [p];
                           inVec := inV; outVec := outV |} |}
    = Rewritten (ops, outVals) /\
    Z.of_nat (length outVals) = R * ib * b /\
    forall n, 0 <= n < R * ib * b ->
      at_ outVals n
      = Some (Extracted [n / b / ib] ((n / b) mod ib)
                        ((n mod b) / outV * outV) ((n mod b) mod outV)).
Proof.
  intros Ha Hb Hw Hia Hib HR HinV HoutV Hreg Hone Hdi Hdo N HN Hse Hde Hsrc.
  destruct (conversion_1d V a b w ia ib R inV outV p bufferOffset src
              getElemsPerThread Ha Hb Hw Hia Hib HR HinV HoutV Hreg Hone
              Hdi Hdo HN Hse Hde Hsrc) as (outVals & Hconv & Hlen & Hall).
  eexists _, outVals. split; [exact Hconv|]. split; [exact Hlen|exact Hall].
Qed.

Lemma convert_layout_1d_fills_result_witness :
  exists ops outVals,
    ConvertLayoutOpConversion blockedElemsPerThread
      {| cvt_shape := [256];
         cvt_srcLayout := Blocked (blocked1d 4 1);
         cvt_dstLayout := Blocked (blocked1d 1 1);
         cvt_src := seqZ 500 8;
         cvt_bufferOffset := Some 0;
         cvt_scratch := {| paddedRepShape := [128];
                           inVec := 2; outVec := 1 |} |}
    = Rewritten (ops, outVals) /\
    at_ outVals 5 = Some (Extracted [1] 1 0 0).
Proof.
  assert (Hs : blockedElemsPerThread (blocked1d 4 1) [256] = 2 * 1 * 4)
    by (vm_compute; reflexivity).
  assert (Hd : blockedElemsPerThread (blocked1d 1 1) [256] = 2 * 4 * 1)
    by (vm_compute; reflexivity).
  assert (Hl : 2 * 1 * 4 <= Z.of_nat (length (seqZ 500 8)))
    by (vm_compute; discriminate).
  destruct (convert_layout_1d_fills_result Z blockedElemsPerThread
              4 1 1 1 4 2 2 1 128 0 (seqZ 500 8)
              ltac:(lia) ltac:(lia) ltac:(lia) ltac:(lia) ltac:(lia)
              ltac:(lia) ltac:(lia) ltac:(lia) ltac:(lia)
              (or_introl eq_refl) ltac:(reflexivity) ltac:(reflexivity)
              ltac:(lia) Hs Hd Hl)
    as (ops & outVals & Hconv & _ & Hall).
  exists ops, outVals. split; [exact Hconv|].
  exact (Hall 5 ltac:(lia)).
Defined.

(** X27: the data flow of that conversion.  Whenever a lane of the source
    layout owns the tensor index [x] at position [s] of its list and a lane
    of the result layout owns it at position [j], the round [x / period]
    (with [period] the region of one round) contains a vector store whose
    lane [vS] is element [s] of the source record and a vector load whose
    lane [vD] becomes element [j] of the result record, and on the two
    lanes both accesses reach the element offset [x mod period] of the
    staging buffer: the store offset evaluates to [x mod period - vS] and
    the load offset to [x mod period - vD].  The offsets are the emitted
    base index of the layout plus the constant of the tile and element. *)
Theorem convert_layout_1d_same_address (V : Type)
    (getElemsPerThread : BlockedEncodingAttr -> list Z -> Z)
    (a b w ia ib R inV outV p bufferOffset : Z) (src : list V) :
  0 < a -> 0 < b -> 0 < w -> 0 < ia -> 0 < ib -> 0 < R ->
  0 < inV -> 0 < outV ->
  ia * a = ib * b -> ia = 1 \/ ib = 1 ->
  a mod inV = 0 -> b mod outV = 0 ->
  let period := ia * (a * 32 * w) in
  let N := R * ia * (a * 32 * w) in
  N < 2 ^ 31 ->
  getElemsPerThread (blocked1d a w) [N] = R * ia * a ->
  getElemsPerThread (blocked1d b w) [N] = R * ib * b ->
  R * ia * a <= Z.of_nat (length src) ->
  exists rounds outVals baseS baseD,
    ConvertLayoutOpConversion getElemsPerThread
      {| cvt_shape := [N];
         cvt_srcLayout := Blocked (blocked1d a w);
         cvt_dstLayout := Blocked (blocked1d b w);
         cvt_src := src;
         cvt_bufferOffset := Some bufferOffset;
         cvt_scratch := {| paddedRepShape := [p];
                           inVec := inV; outVec := outV |} |}
    = Rewritten (concat (roundOps <$> rounds), outVals) /\
    emitBaseIndexForBlockedLayout (blocked1d a w) [N] = Some [baseS] /\
    emitBaseIndexForBlockedLayout (blocked1d b w) [N] = Some [baseD] /\
    Z.of_nat (length rounds) = R /\
    Z.of_nat (length outVals) = R * ib * b /\
    forall tidS tidD s j x idxS idxD,
      0 <= tidS < 32 * w -> 0 <= tidD < 32 * w ->
      laneIndices (blocked1d a w) [N] tidS = Some idxS ->
      at_ idxS s = Some [x] ->
      laneIndices (blocked1d b w) [N] tidD = Some idxD ->
      at_ idxD j = Some [x] ->
      exists st ld ctaS eS vS valVec v0 ctaD eD vD,
        at_ rounds (x / period) = Some (st, ld) /\
        SmemStore (Add baseS (IndexConst (ctaS * (a * 32 * w) + eS)))
                  inV valVec ∈ st /\
        at_ valVec vS = Some (FromRecord v0) /\
        at_ src s = Some v0 /\
        eval tidS (Add baseS (IndexConst (ctaS * (a * 32 * w) + eS)))
        = Some (x mod period - vS) /\
        SmemLoad (Add baseD (IndexConst (ctaD * (b * 32 * w) + eD))) outV
          ∈ ld /\
        at_ outVals j = Some (Extracted [x / period] ctaD eD vD) /\
        eval tidD (Add baseD (IndexConst (ctaD * (b * 32 * w) + eD)))
        = Some (x mod period - vD).
Proof.
  intros Ha Hb Hw Hia Hib HR HinV HoutV Hreg Hone Hdi Hdo period N HN
         Hse Hde Hsrc.
  destruct (conversion_1d_address V a b w ia ib R inV outV p bufferOffset
              src getElemsPerThread Ha Hb Hw Hia Hib HR HinV HoutV Hreg
              Hone Hdi Hdo HN Hse Hde Hsrc)
    as (rounds & outVals & Hconv & HbS & HbD & Hlr & Hlo & Hflow).
  eexists rounds, outVals, _, _.
  split; [exact Hconv|]. split; [exact HbS|]. split; [exact HbD|].
  split; [exact Hlr|]. split; [exact Hlo|exact Hflow].
Qed.

Lemma convert_layout_1d_same_address_witness :
  exists rounds outVals,
    ConvertLayoutOpConversion blockedElemsPerThread
      {| cvt_shape := [256];
         cvt_srcLayout := Blocked (blocked1d 4 1);
         cvt_dstLayout := Blocked (blocked1d 1 1);
         cvt_src := seqZ 500 8;
         cvt_bufferOffset := Some 0;
         cvt_scratch := {| paddedRepShape := [128];
                           inVec := 2; outVec := 1 |} |}
    = Rewritten (concat (roundOps <$> rounds), outVals) /\
    Z.of_nat (length rounds) = 2.
Proof.
  assert (Hs : blockedElemsPerThread (blocked1d 4 1) [256] = 2 * 1 * 4)
    by (vm_compute; reflexivity).
  assert (Hd : blockedElemsPerThread (blocked1d 1 1) [256] = 2 * 4 * 1)
    by (vm_compute; reflexivity).
  assert (Hl : 2 * 1 * 4 <= Z.of_nat (length (seqZ 500 8)))
    by (vm_compute; discriminate).
  destruct (convert_layout_1d_same_address Z blockedElemsPerThread
              4 1 1 1 4 2 2 1 128 0 (seqZ 500 8)
              ltac:(lia) ltac:(lia) ltac:(lia) ltac:(lia) ltac:(lia)
              ltac:(lia) ltac:(lia) ltac:(lia) ltac:(lia)
              (or_introl eq_refl) ltac:(reflexivity) ltac:(reflexivity)
              ltac:(lia) Hs Hd Hl)
    as (rounds & outVals & _ & _ & Hconv & _ & _ & Hlr & _).
  exists rounds, outVals. split; [exact Hconv|exact Hlr].
Defined.

(** ** The base index as a number *)

(** An order that names every dimension once names every dimension. *)
Lemma order_covers (ord : list Z) (n : nat) k :
  length ord = n ->
  Forall (fun o => 0 <= o < Z.of_nat n) ord -> NoDup ord ->
  0 <= k < Z.of_nat n -> exists i : nat, ord !! i = Some k.
Proof.
  intros Hlen Hord Hnd Hk.
  assert (Hsub : ord ⊆+ seqZ 0 (Z.of_nat n)).
  { apply NoDup_submseteq; [exact Hnd|]. intros x Hx.
    rewrite Forall_forall in Hord. apply elem_of_seqZ. apply Hord in Hx. lia. }
  assert (Hperm : ord ≡ₚ seqZ 0 (Z.of_nat n)).
  { apply submseteq_length_Permutation; [exact Hsub|].
    rewrite length_seqZ. lia. }
  apply list_elem_of_lookup. rewrite Hperm. apply elem_of_seqZ. lia.
Qed.

Lemma ceil_mul_lt m n : 0 < m -> 0 < n -> 1 <= ceil m n /\ n * (ceil m n - 1) < m.
Proof.
  intros Hm Hn. unfold ceil.
  pose proof (Z.mul_div_le (m + n - 1) n Hn).
  assert (1 <= (m + n - 1) / n).
  { apply Z.div_le_lower_bound; lia. }
  split; [assumption|lia].
Qed.

(** What [delinearize] under an order computes on a lane: the component
    stored at dimension [order[i]] evaluates to digit [i] of the linear
    value in the mixed radix given by the shape taken in that order. *)
Lemma delinearize_order_eval (tid : Z) (linear : Value) (shape ord : list Z)
    (x : Z) :
  shape <> [] ->
  length ord = length shape ->
  Forall (fun o => 0 <= o < Z.of_nat (length shape)) ord ->
  NoDup ord ->
  Forall (fun s => 0 < s < 2 ^ 32) shape ->
  eval tid linear = Some x ->
  exists multiDim coords digits reordered,
    delinearize_order linear shape ord = Some multiDim /\
    length coords = length shape /\
    mapM (at_ shape) ord = Some reordered /\
    mapM (at_ coords) ord = Some digits /\
    linZ digits reordered = x /\
    Forall2 (fun m d => 0 <= m < d) (tail digits) (tail reordered) /\
    forall k, 0 <= k < Z.of_nat (length shape) ->
      exists v c, at_ multiDim k = Some v /\ at_ coords k = Some c /\
                  eval tid v = Some c.
Proof.
  intros Hne Hlen Hord Hnd Hshape Hx.
  destruct (delinearize_order_lookup linear shape ord Hne Hlen Hord Hnd)
    as (reordered & RL & ML & Hre & Hdel & Hdo & HlML & Hlook).
  pose proof (length_mapM _ _ _ Hre) as Hlre.
  assert (Hrne : reordered <> []).
  { intros E. rewrite E in Hlre. simpl in Hlre.
    destruct shape; [congruence|]. simpl in Hlen. lia. }
  assert (Hrpos : Forall (fun s => 0 < s < 2 ^ 32) reordered).
  { apply Forall_forall. intros s Hs.
    destruct (mapM_elem_of _ _ _ _ Hre Hs) as (o & _ & Ho).
    unfold at_ in Ho. destruct (o <? 0); [discriminate|].
    rewrite Forall_forall in Hshape. apply Hshape.
    apply list_elem_of_lookup. eauto. }
  assert (Htl : Forall (fun s => 0 < s < 2 ^ 32) (tail reordered)).
  { destruct reordered as [|r rs]; [constructor|].
    inversion Hrpos; assumption. }
  destruct (delinearize_digits tid linear reordered x Hrne Htl Hx)
    as (RL' & vals & Hdel' & Hev & HF & Hsum).
  assert (RL' = RL) by congruence. subst RL'.
  set (digits := x / prodZ (tail reordered) :: vals) in *.
  apply mapM_Some_1 in Hev.
  pose proof (Forall2_length _ _ _ Hev) as HlRL.
  assert (Hat : forall k, 0 <= k < Z.of_nat (length shape) ->
            exists v c, at_ ML k = Some v /\ eval tid v = Some c /\
                        forall i : nat, ord !! i = Some k -> digits !! i = Some c).
  { intros k Hk.
    destruct (order_covers ord (length shape) k Hlen Hord Hnd Hk) as [i Hi].
    destruct (Hlook i k Hi) as (v & Hv & HMLk).
    destruct (Forall2_lookup_l _ _ _ _ _ Hev Hv) as (c & Hc & Hevc).
    exists v, c. split; [exact HMLk|]. split; [exact Hevc|].
    intros j Hj.
    assert (j = i) by (eapply NoDup_lookup; eauto). subst j. exact Hc. }
  destruct (mapM_seqZ_total (fun k => v ← at_ ML k; eval tid v)
              (Z.of_nat (length shape))) as [coords Hcoords].
  { intros k Hk. destruct (Hat k Hk) as (v & c & Hv & Hc & _).
    rewrite Hv. cbn [mbind option_bind]. rewrite Hc. eauto. }
  destruct (mapM_seqZ_at _ _ _ Hcoords) as [Hlc Hck].
  assert (Hcoord : forall k, 0 <= k < Z.of_nat (length shape) ->
            exists v c, at_ ML k = Some v /\ at_ coords k = Some c /\
                        eval tid v = Some c /\
                        forall i : nat, ord !! i = Some k -> digits !! i = Some c).
  { intros k Hk. destruct (Hat k Hk) as (v & c & Hv & Hc & Hd).
    destruct (Hck k Hk) as (y & Hy & Hf).
    rewrite Hv in Hf. cbn [mbind option_bind] in Hf.
    assert (y = c) by congruence. subst y.
    exists v, c. auto. }
  exists ML, coords, digits, reordered.
  split; [exact Hdo|]. split; [lia|]. split; [exact Hre|].
  split.
  { apply mapM_Some. apply Forall2_same_length_lookup_2.
    - unfold digits. cbn [length].
      pose proof (Forall2_length _ _ _ HF) as Hlv.
      destruct reordered as [|r rs]; [congruence|].
      cbn [tail length] in *. lia.
    - intros i o d Hi Hd.
      assert (Ho : 0 <= o < Z.of_nat (length shape)).
      { rewrite Forall_forall in Hord. apply Hord.
        apply list_elem_of_lookup. eauto. }
      destruct (Hcoord o Ho) as (v & c & _ & Hc & _ & Hdig).
      rewrite (Hdig i Hi) in Hd. congruence. }
  split; [exact Hsum|]. split; [exact HF|].
  intros k Hk. destruct (Hcoord k Hk) as (v & c & Hv & Hc & He & _).
  exists v, c. auto.
Qed.

Lemma at_lookup {A} (l : list A) k x :
  at_ l k = Some x -> 0 <= k /\ l !! Z.to_nat k = Some x.
Proof.
  unfold at_. destruct (Z.ltb_spec k 0); [discriminate|]. auto.
Qed.

(** The value of one base index: no operation of the emitted expression
    wraps when the extent and the tile of one warp stay below 2^31. *)
Lemma eval_base_index tid (lane group : Value) (lane_c group_c : Z)
    (shape_k spt_k tpw_k : Z) :
  eval tid lane = Some lane_c -> eval tid group = Some group_c ->
  0 < shape_k < 2 ^ 31 -> 0 < spt_k -> 0 < tpw_k ->
  spt_k * tpw_k < 2 ^ 31 ->
  eval tid
    (Mul (IndexConst spt_k)
         (Add (URem lane (IndexConst (ceil (u32 shape_k) spt_k)))
              (Mul (URem group
                      (IndexConst (ceil (u32 shape_k) (u32 (spt_k * tpw_k)))))
                   (IndexConst tpw_k))))
  = Some (spt_k * (lane_c mod ceil shape_k spt_k
                   + group_c mod ceil shape_k (spt_k * tpw_k) * tpw_k)).
Proof.
  intros Hl Hg Hs Hspt Htpw Hst.
  assert (Hspt' : spt_k <= spt_k * tpw_k).
  { replace spt_k with (spt_k * 1) at 1 by lia.
    apply Z.mul_le_mono_nonneg_l; lia. }
  assert (Htpw' : tpw_k <= spt_k * tpw_k).
  { replace tpw_k with (1 * tpw_k) at 1 by lia.
    apply Z.mul_le_mono_nonneg_r; lia. }
  rewrite (u32_small shape_k), (u32_small (spt_k * tpw_k)) by lia.
  destruct (ceil_mul_lt shape_k spt_k ltac:(lia) Hspt) as [HA1 HA2].
  destruct (ceil_mul_lt shape_k (spt_k * tpw_k) ltac:(lia) ltac:(lia))
    as [HB1 HB2].
  set (A := ceil shape_k spt_k) in *.
  set (B := ceil shape_k (spt_k * tpw_k)) in *.
  pose proof (eval_range _ _ _ Hl) as Hlr.
  pose proof (eval_range _ _ _ Hg) as Hgr.
  pose proof (Z.mod_pos_bound lane_c A ltac:(lia)) as Hlm.
  pose proof (Z.mod_pos_bound group_c B ltac:(lia)) as Hgm.
  set (a := lane_c mod A) in *. set (b := group_c mod B) in *.
  assert (HAle : A <= shape_k).
  { unfold A. apply ceil_bounds; lia. }
  assert (HBle : B <= shape_k).
  { unfold B. apply ceil_bounds; lia. }
  assert (Hsa : 0 <= spt_k * a <= spt_k * (A - 1)).
  { split; [apply Z.mul_nonneg_nonneg; lia|].
    apply Z.mul_le_mono_nonneg_l; lia. }
  assert (Hsb : 0 <= spt_k * tpw_k * b <= spt_k * tpw_k * (B - 1)).
  { split; [apply Z.mul_nonneg_nonneg; lia|].
    apply Z.mul_le_mono_nonneg_l; lia. }
  assert (Hbt : 0 <= b * tpw_k <= spt_k * tpw_k * b).
  { split; [apply Z.mul_nonneg_nonneg; lia|].
    replace (spt_k * tpw_k * b) with (spt_k * (b * tpw_k)) by lia.
    replace (b * tpw_k) with (1 * (b * tpw_k)) at 1 by lia.
    apply Z.mul_le_mono_nonneg_r; [apply Z.mul_nonneg_nonneg; lia|lia]. }
  assert (Ha' : a <= spt_k * a).
  { replace a with (1 * a) at 1 by lia.
    apply Z.mul_le_mono_nonneg_r; lia. }
  apply eval_mul.
  - apply eval_const. lia.
  - apply eval_add.
    + apply eval_urem; [exact Hl|apply eval_const; lia|lia].
    + apply eval_mul.
      * apply eval_urem; [exact Hg|apply eval_const; lia|lia].
      * apply eval_const. lia.
      * lia.
    + lia.
  - replace (spt_k * (a + b * tpw_k))
      with (spt_k * a + spt_k * tpw_k * b) by lia.
    lia.
Qed.

(** C3 (as amended): for a Blocked layout whose parameter vectors have the
    rank of the shape, whose order names every dimension once, with
    positive entries, tiles of one warp [sizePerThread[k] *
    threadsPerWarp[k]] and extents [shape[k]] between 1 and 2^31, the base
    index emitted for dimension [k] evaluates on every lane to
    [sizePerThread[k] * (laneCoord[k] mod ceil(shape[k] / sizePerThread[k])
     + (groupCoord[k] mod ceil(shape[k] / (sizePerThread[k] *
        threadsPerWarp[k]))) * threadsPerWarp[k])].
    The coordinates are the delinearizations of [threadId mod 32] over
    [threadsPerWarp] and of [threadId div 32] over [warpsPerCTA] under the
    order: taken in the order of the layout they are the row-major digits
    of the number, every digit after the first below its extent. *)
Theorem emitBaseIndexForBlockedLayout_formula
    (l : BlockedEncodingAttr) (shape : list Z) (tid : Z) :
  shape <> [] ->
  length (sizePerThread l) = length shape ->
  length (threadsPerWarp l) = length shape ->
  length (warpsPerCTA l) = length shape ->
  length (order l) = length shape ->
  Forall (fun o => 0 <= o < Z.of_nat (length shape)) (order l) ->
  NoDup (order l) ->
  Forall (fun s => 0 < s < 2 ^ 31) shape ->
  Forall (fun s => 0 < s < 2 ^ 32) (threadsPerWarp l) ->
  Forall (fun s => 0 < s < 2 ^ 32) (warpsPerCTA l) ->
  Forall2 (fun spt tpw => 0 < spt /\ spt * tpw < 2 ^ 31)
          (sizePerThread l) (threadsPerWarp l) ->
  0 <= tid < 2 ^ 32 ->
  exists laneCoord groupCoord laneDigits groupDigits lanesInOrder
         warpsInOrder multiDimBase,
    length laneCoord = length shape /\
    length groupCoord = length shape /\
    mapM (at_ (threadsPerWarp l)) (order l) = Some lanesInOrder /\
    mapM (at_ laneCoord) (order l) = Some laneDigits /\
    linZ laneDigits lanesInOrder = tid mod 32 /\
    Forall2 (fun m d => 0 <= m < d) (tail laneDigits) (tail lanesInOrder) /\
    mapM (at_ (warpsPerCTA l)) (order l) = Some warpsInOrder /\
    mapM (at_ groupCoord) (order l) = Some groupDigits /\
    linZ groupDigits warpsInOrder = tid / 32 /\
    Forall2 (fun m d => 0 <= m < d) (tail groupDigits) (tail warpsInOrder) /\
    emitBaseIndexForBlockedLayout l shape = Some multiDimBase /\
    length multiDimBase = length shape /\
    forall k, 0 <= k < Z.of_nat (length shape) ->
      exists shape_k spt_k tpw_k lane_k group_k base_k,
        at_ shape k = Some shape_k /\
        at_ (sizePerThread l) k = Some spt_k /\
        at_ (threadsPerWarp l) k = Some tpw_k /\
        at_ laneCoord k = Some lane_k /\
        at_ groupCoord k = Some group_k /\
        at_ multiDimBase k = Some base_k /\
        eval tid base_k
        = Some (spt_k * (lane_k mod ceil shape_k spt_k
                         + group_k mod ceil shape_k (spt_k * tpw_k) * tpw_k)).
Proof.
  intros Hne Hspt Htpw Hwpc Hord Hrange Hnd Hshape Htpos Hwpos Htile Htid.
  assert (Htne : threadsPerWarp l <> []).
  { intros E. rewrite E in Htpw. destruct shape; simpl in *; congruence. }
  assert (Hwne : warpsPerCTA l <> []).
  { intros E. rewrite E in Hwpc. destruct shape; simpl in *; congruence. }
  destruct (delinearize_order_eval tid laneId (threadsPerWarp l) (order l)
              (tid mod 32) Htne ltac:(congruence)
              ltac:(rewrite Htpw; exact Hrange) Hnd Htpos
              (eval_laneId tid Htid))
    as (laneV & laneCoord & laneDigits & lanesInOrder
        & HlaneV & Hllane & Hlio & Hldig & Hlsum & Hlrange & Hlane).
  destruct (delinearize_order_eval tid warpId (warpsPerCTA l) (order l)
              (tid / 32) Hwne ltac:(congruence)
              ltac:(rewrite Hwpc; exact Hrange) Hnd Hwpos
              (eval_warpId tid Htid))
    as (groupV & groupCoord & groupDigits & warpsInOrder
        & HgroupV & Hlgroup & Hwio & Hgdig & Hgsum & Hgrange & Hgroup).
  destruct (emitBase_structure l shape Hne Hspt Htpw Hwpc Hord Hrange)
    as (laneV' & groupV' & multiDimBase & HlaneV' & HgroupV' & Hbase & Hlb
        & Hk).
  fold laneId in HlaneV'. fold warpId in HgroupV'.
  assert (laneV' = laneV) by congruence.
  assert (groupV' = groupV) by congruence. subst laneV' groupV'.
  exists laneCoord, groupCoord, laneDigits, groupDigits, lanesInOrder,
    warpsInOrder, multiDimBase.
  split; [congruence|]. split; [congruence|].
  split; [exact Hlio|]. split; [exact Hldig|]. split; [exact Hlsum|].
  split; [exact Hlrange|].
  split; [exact Hwio|]. split; [exact Hgdig|]. split; [exact Hgsum|].
  split; [exact Hgrange|].
  split; [exact Hbase|]. split; [exact Hlb|].
  intros k Hkr.
  destruct (Hk k Hkr)
    as (shape_k & spt_k & tpw_k & lane_v & group_v
        & Hsk & Hsptk & Htpwk & Hlv & Hgv & Hbk).
  destruct (Hlane k ltac:(rewrite Htpw; exact Hkr))
    as (lane_v' & lane_k & Hlv' & Hlk & Helane).
  destruct (Hgroup k ltac:(rewrite Hwpc; exact Hkr))
    as (group_v' & group_k & Hgv' & Hgk & Hegroup).
  assert (lane_v' = lane_v) by congruence.
  assert (group_v' = group_v) by congruence. subst lane_v' group_v'.
  eexists shape_k, spt_k, tpw_k, lane_k, group_k, _.
  split; [exact Hsk|]. split; [exact Hsptk|]. split; [exact Htpwk|].
  split; [exact Hlk|]. split; [exact Hgk|]. split; [exact Hbk|].
  apply at_lookup in Hsk as [_ Hsk]. apply at_lookup in Hsptk as [_ Hsptk].
  apply at_lookup in Htpwk as [_ Htpwk].
  rewrite Forall_forall in Hshape, Htpos.
  pose proof (Hshape shape_k (list_elem_of_lookup_2 _ _ _ Hsk)) as Hs.
  pose proof (Htpos tpw_k (list_elem_of_lookup_2 _ _ _ Htpwk)) as Ht.
  pose proof (Forall2_lookup_lr _ _ _ _ _ _ Htile Hsptk Htpwk) as [Hp Hpt].
  apply eval_base_index; try assumption; lia.
Qed.

Lemma emitBaseIndexForBlockedLayout_formula_witness :
  exists multiDimBase base0 base1,
    emitBaseIndexForBlockedLayout
      {| sizePerThread := [1; 1]; threadsPerWarp := [4; 8];
         warpsPerCTA := [2; 1]; order := [1; 0] |} [8; 8]
      = Some multiDimBase /\
    at_ multiDimBase 0 = Some base0 /\ eval 38 base0 = Some 6 /\
    at_ multiDimBase 1 = Some base1 /\ eval 38 base1 = Some 1.
Proof.
  destruct (emitBaseIndexForBlockedLayout_formula
              {| sizePerThread := [1; 1]; threadsPerWarp := [4; 8];
                 warpsPerCTA := [2; 1]; order := [1; 0] |} [8; 8] 38)
    as (laneCoord & groupCoord & laneDigits & groupDigits & lanesInOrder
        & warpsInOrder & multiDimBase
        & Hll & Hlg & Hlio & Hldig & Hlsum & Hlr
        & Hwio & Hgdig & Hgsum & Hgr & Hbase & _ & Hk).
  - discriminate.
  - reflexivity.
  - reflexivity.
  - reflexivity.
  - reflexivity.
  - repeat constructor; simpl; lia.
  - apply (bool_decide_eq_true_1 (NoDup [1; 0])). vm_compute. reflexivity.
  - repeat constructor; lia.
  - repeat constructor; lia.
  - repeat constructor; lia.
  - repeat constructor; simpl; lia.
  - lia.
  - cbn [threadsPerWarp warpsPerCTA order sizePerThread] in *.
    vm_compute in Hlio. injection Hlio as <-.
    vm_compute in Hwio. injection Hwio as <-.
    destruct laneCoord as [|l0 [|l1 [|]]]; try discriminate Hll.
    destruct groupCoord as [|g0 [|g1 [|]]]; try discriminate Hlg.
    change (mapM (at_ [l0; l1]) [1; 0]) with (Some [l1; l0]) in Hldig.
    change (mapM (at_ [g0; g1]) [1; 0]) with (Some [g1; g0]) in Hgdig.
    injection Hldig as <-. injection Hgdig as <-.
    change (linZ [l1; l0] [8; 4]) with (l1 * (4 * 1) + (l0 * 1 + 0)) in Hlsum.
    change (linZ [g1; g0] [1; 2]) with (g1 * (2 * 1) + (g0 * 1 + 0)) in Hgsum.
    change (38 mod 32) with 6 in Hlsum. change (38 / 32) with 1 in Hgsum.
    cbn [tail] in Hlr, Hgr.
    inversion Hlr as [|? ? ? ? Hl0 _]; subst.
    inversion Hgr as [|? ? ? ? Hg0 _]; subst.
    assert (l0 = 2) by lia. assert (l1 = 1) by lia.
    assert (g0 = 1) by lia. assert (g1 = 0) by lia. subst.
    destruct (Hk 0 ltac:(simpl; lia))
      as (s0 & p0 & t0 & a0 & b0 & base0
          & Hs0 & Hp0 & Ht0 & Ha0 & Hb0 & Hbase0 & He0).
    destruct (Hk 1 ltac:(simpl; lia))
      as (s1 & p1 & t1 & a1 & b1 & base1
          & Hs1 & Hp1 & Ht1 & Ha1 & Hb1 & Hbase1 & He1).
    injection Hs0 as <-. injection Hp0 as <-. injection Ht0 as <-.
    injection Ha0 as <-. injection Hb0 as <-.
    injection Hs1 as <-. injection Hp1 as <-. injection Ht1 as <-.
    injection Ha1 as <-. injection Hb1 as <-.
    exists multiDimBase, base0, base1.
    split; [exact Hbase|]. split; [exact Hbase0|]. split; [exact He0|].
    split; [exact Hbase1|exact He1].
Defined.

(** C3 as stated fails for an extent of 2^32 or more: the extent is read
    as an unsigned 32-bit number.  Over a shape of 2^32 + 16 elements, one
    element per lane and 32 lanes, lane 20 has lane coordinate 20 and group
    coordinate 0; the claim reduces the lane coordinate modulo
    ceil((2^32 + 16) / 1) and gives the base index 20, the emitted value
    reduces it modulo 16 and evaluates to 4. *)
Lemma base_index_reads_extent_unsigned :
  exists base,
    emitBaseIndexForBlockedLayout
      {| sizePerThread := [1]; threadsPerWarp := [32];
         warpsPerCTA := [1]; order := [0] |} [2 ^ 32 + 16]
      = Some [base] /\
    eval 20 base = Some 4 /\
    20 mod 32 = 20 /\ 20 / 32 = 0 /\
    1 * (20 mod ceil (2 ^ 32 + 16) 1
         + 0 mod ceil (2 ^ 32 + 16) (1 * 32) * 32) = 20.
Proof.
  eexists. split; [vm_compute; reflexivity|].
  repeat split; vm_compute; reflexivity.
Qed.

(** ** Broadcast of a column: the column of the source slot *)



Section BroadcastColumns.

Variable V : Type.
Variables spt0 spt1 tpw0 tpw1 wpc0 wpc1 : Z.
Variable ord : list Z.
Variable src : list V.

Hypothesis spt0_pos : 0 < spt0.
Hypothesis spt1_pos : 0 < spt1.
Hypothesis tpw0_pos : 0 < tpw0.
Hypothesis tpw1_pos : 0 < tpw1.
Hypothesis wpc0_pos : 0 < wpc0.
Hypothesis wpc1_pos : 0 < wpc1.
Hypothesis period0_fits : spt0 * tpw0 * wpc0 < 2 ^ 20.
Hypothesis period1_fits : spt1 * tpw1 * wpc1 < 2 ^ 20.
Hypothesis tile_fits : spt0 * spt1 < 2 ^ 20.

Let layout : BlockedEncodingAttr :=
  {| sizePerThread := [spt0; spt1]; threadsPerWarp := [tpw0; tpw1];
     warpsPerCTA := [wpc0; wpc1]; order := ord |}.

Let B0 : Z := ceil 256 (spt0 * tpw0 * wpc0).
Let B1 : Z := ceil 4 (spt1 * tpw1 * wpc1).

Hypothesis src_long_enough : B0 * spt0 * spt1 <= Z.of_nat (length src).





End BroadcastColumns.



